(** * Manga Translator Pro: slicing engine and page scheduler

    A shallow embedding of the two cores of the application:

    - [services/geminiService.ts]: [calculateRowEnergy],
      [findExactCutInZone] and the cut loop and chunk loop of
      [splitLongImage];
    - the [App] component (its file imports [./types] and
      [./components/MangaReader]): the page collection with
      [processPage], [handleRegenerate], the rate-history clean-up and
      the scheduler effect;
    - the [MangaReader] component: the render conditions that decide
      when the redo and retry buttons, the only callers of
      [handleRegenerate], exist.

    Further parts of the same files are embedded for the properties
    proved beyond those cores: [isComplexImage], the choice of the
    aspect ratio in [translateMangaPage] and [stitchTranslatedPages]
    ([services/geminiService.ts]); [extractNumber], [handleModeChange]
    and [handleFilesSelected] (the [App] component).

    Modelling conventions.

    - Row indices, widths, heights, array indices and [Date.now()]
      timestamps are integers ([Z]).  JavaScript numbers that are not
      integers (brightness, energy, scores, zone fractions) are exact
      rationals ([Q]): binary rounding of IEEE doubles is not modelled.
      A statement that depends on the exact value of such a number is
      made either over the values that the code compares, whatever
      computes them ([scanWith]), or on inputs on which the arithmetic
      of the code is exact ([exactFraction], [safeNumbers]), or with a
      margin that rounding cannot bridge.
    - [NaN] is modelled ([JS.Num]): reading a typed array outside its
      bounds yields [undefined], which arithmetic turns into [NaN], and
      every comparison with [NaN] is false.
    - A canvas bitmap is a list of rows, each row the RGBA bytes of its
      pixels; [ImageData.data] is the flat row-major byte list that the
      source indexes.
    - Promises are modelled by the list of calls that have been
      dispatched and have not settled yet. *)

From Stdlib Require Import String.
From Stdlib Require Import ZArith QArith Qround Qabs List Lia Bool.
From Stdlib Require Import Sorted Permutation.
From Stdlib Require Import Ascii Lqa DecimalString DecimalNat DecimalZ.
Import ListNotations.
Open Scope Z_scope.

(* ================================================================== *)
(** * Counted loops *)

(** [for (let x = start; x < stop; x += step)]: the successive values of
    the loop variable.  The fuel is the distance to [stop], which is
    enough for every [step >= 1] (lemma [forRange_complete]). *)
Fixpoint forRangeFuel (fuel : nat) (x stop step : Z) : list Z :=
  match fuel with
  | O => []
  | S fuel' =>
      if x <? stop then x :: forRangeFuel fuel' (x + step) stop step else []
  end.

Definition forRange (start stop step : Z) : list Z :=
  forRangeFuel (Z.to_nat (stop - start)) start stop step.

(* ================================================================== *)
(** * JavaScript numbers *)

Module JS.

(** A finite number or [NaN].  [Infinity] only occurs in the source as
    the initial value of [minEnergy]; it has its own type [Bound]. *)
Inductive Num : Type :=
| Fin (q : Q)
| NaN.

Inductive Bound : Type :=
| Infinity
| Below (q : Q).

Definition Qltb (x y : Q) : bool := negb (Qle_bool y x).

Definition add (a b : Num) : Num :=
  match a, b with Fin x, Fin y => Fin (x + y) | _, _ => NaN end.

Definition sub (a b : Num) : Num :=
  match a, b with Fin x, Fin y => Fin (x - y) | _, _ => NaN end.

Definition mul (a b : Num) : Num :=
  match a, b with Fin x, Fin y => Fin (x * y) | _, _ => NaN end.

(** Division.  The only division by zero the modelled code can perform
    is [0 / 0] (the sums of [calculateRowEnergy] over an empty row),
    which is [NaN]. *)
Definition div (a b : Num) : Num :=
  match a, b with
  | Fin x, Fin y => if Qeq_bool y 0 then NaN else Fin (x / y)
  | _, _ => NaN
  end.

Definition abs (a : Num) : Num :=
  match a with Fin x => Fin (Qabs x) | NaN => NaN end.

(** [a > b] and [a < b]: false as soon as one side is [NaN]. *)
Definition gt (a b : Num) : bool :=
  match a, b with Fin x, Fin y => Qltb y x | _, _ => false end.

Definition lt (a b : Num) : bool :=
  match a, b with Fin x, Fin y => Qltb x y | _, _ => false end.

Definition ofZ (z : Z) : Num := Fin (inject_Z z).

(** [Math.ceil] and [Math.floor] on a rational. *)
Definition ceil (q : Q) : Z := Qceiling q.
Definition floor (q : Q) : Z := Qfloor q.

(** [data[i]] on a [Uint8ClampedArray]: the byte, or [undefined] (here
    [NaN], its value in arithmetic) outside the array. *)
Definition rd (data : list Z) (i : Z) : Num :=
  if i <? 0 then NaN
  else match nth_error data (Z.to_nat i) with
       | Some b => ofZ b
       | None => NaN
       end.

End JS.

(* ================================================================== *)
(** * The slicing engine ([services/geminiService.ts]) *)

Module Slicer.

Import JS.

(** ** Canvas *)

(** The bitmap of a canvas: [cheight] rows of [4 * cwidth] bytes. *)
Record Canvas : Type := mkCanvas {
  cwidth : Z;
  cheight : Z;
  bitmap : list (list Z)
}.

Definition canvas_wf (c : Canvas) : Prop :=
  0 <= cwidth c /\ 0 <= cheight c /\
  length (bitmap c) = Z.to_nat (cheight c) /\
  Forall (fun row => length row = Z.to_nat (4 * cwidth c)) (bitmap c).

(** Row [y] of the rectangle of width [sw] anchored at column 0: the
    bytes of the bitmap where the rectangle overlaps it and transparent
    black (all zero) elsewhere, as [getImageData] and [drawImage] define
    it for pixels outside the bitmap. *)
Definition canvasRow (c : Canvas) (sw y : Z) : list Z :=
  let blank := repeat 0 (Z.to_nat (4 * sw)) in
  if (0 <=? y) && (y <? cheight c)
  then firstn (Z.to_nat (4 * sw)) (nth (Z.to_nat y) (bitmap c) [] ++ blank)
  else blank.

(** [ctx.getImageData(0, sy, sw, sh).data]; [None] is the
    [IndexSizeError] thrown for an empty rectangle. *)
Definition getImageData (c : Canvas) (sy sw sh : Z) : option (list Z) :=
  if (sw =? 0) || (sh =? 0) then None
  else Some (flat_map (fun r => canvasRow c sw (sy + r)) (forRange 0 sh 1)).

(** ** calculateRowEnergy *)

Definition STRIDE : Z := 2.

Record RowStats : Type := mkRowStats {
  energy : Num;
  brightness : Num
}.

(** One iteration of the loop over [x]; the accumulator is
    [(diffSum, brightnessSum)]. *)
Definition rowStep (data : list Z) (rowOffset : Z)
    (acc : Num * Num) (x : Z) : Num * Num :=
  let '(diffSum, brightnessSum) := acc in
  let i := rowOffset + x * 4 in
  let nextI := rowOffset + (x + STRIDE) * 4 in
  let brightnessSum :=
    add brightnessSum
        (div (add (add (rd data i) (rd data (i + 1))) (rd data (i + 2)))
             (ofZ 3)) in
  let dR := abs (sub (rd data i) (rd data nextI)) in
  let dG := abs (sub (rd data (i + 1)) (rd data (nextI + 1))) in
  let dB := abs (sub (rd data (i + 2)) (rd data (nextI + 2))) in
  let diffSum := add diffSum (add (add dR dG) dB) in
  (diffSum, brightnessSum).

(** [for (let x = 0; x < width - STRIDE; x += STRIDE)]: the columns
    that are sampled. *)
Definition sampledColumns (width : Z) : list Z :=
  forRange 0 (width - STRIDE) STRIDE.

Definition rowSums (data : list Z) (width y : Z) : Num * Num :=
  let rowOffset := y * width * 4 in
  fold_left (rowStep data rowOffset) (sampledColumns width) (ofZ 0, ofZ 0).

Definition sampleCount (width : Z) : Z :=
  ceil (inject_Z width / inject_Z STRIDE).

Definition calculateRowEnergy (data : list Z) (width y : Z) : RowStats :=
  let '(diffSum, brightnessSum) := rowSums data width y in
  let count := sampleCount width in
  {| energy := div diffSum (ofZ count);
     brightness := div brightnessSum (ofZ count) |}.

(** The two sums in closed form, over plain bytes: for the sampled pixel
    at column [x], the mean of its three colour channels, and the sum
    of the absolute differences of its channels with those of the pixel
    [STRIDE] columns to its right. *)
Definition byteAt (data : list Z) (i : Z) : Q :=
  inject_Z (nth (Z.to_nat i) data 0).

Definition channelMean (data : list Z) (rowOffset x : Z) : Q :=
  let i := rowOffset + x * 4 in
  ((byteAt data i + byteAt data (i + 1) + byteAt data (i + 2)) / inject_Z 3)%Q.

Definition strideDelta (data : list Z) (rowOffset x : Z) : Q :=
  let i := rowOffset + x * 4 in
  let nextI := rowOffset + (x + STRIDE) * 4 in
  (Qabs (byteAt data i - byteAt data nextI)
   + Qabs (byteAt data (i + 1) - byteAt data (nextI + 1))
   + Qabs (byteAt data (i + 2) - byteAt data (nextI + 2)))%Q.

Definition sumOver (f : Z -> Q) (xs : list Z) : Q :=
  fold_left (fun acc x => (acc + f x)%Q) xs (inject_Z 0).

(** The statistics as the specification words them: both sums divided
    by the number of sampled pixels.  Only used to compare with
    [calculateRowEnergy]. *)
Definition averageOverSamples (data : list Z) (width y : Z) : RowStats :=
  let '(diffSum, brightnessSum) := rowSums data width y in
  let samples := Z.of_nat (length (sampledColumns width)) in
  {| energy := div diffSum (ofZ samples);
     brightness := div brightnessSum (ofZ samples) |}.

(** ** findExactCutInZone *)

(** The composite score of local row [y] of a zone of [height] rows. *)
Definition rowScore (data : list Z) (width height y : Z) : Num :=
  let st := calculateRowEnergy data width y in
  let score := energy st in
  let score :=
    if gt (brightness st) (ofZ 240) || lt (brightness st) (ofZ 20)
    then sub score (ofZ 30) else score in
  let half := div (ofZ height) (ofZ 2) in
  let distFromCenter := div (abs (sub (ofZ y) half)) half in
  add score (mul distFromCenter (Fin (1 # 2))).

(** One iteration of the scan; the state is [(bestY, minEnergy)]. *)
Definition scanStep (data : list Z) (width height : Z)
    (st : Z * Bound) (y : Z) : Z * Bound :=
  match rowScore data width height y with
  | Fin s =>
      let better :=
        match snd st with Infinity => true | Below m => Qltb s m end in
      if better then (y, Below s) else st
  | NaN => st
  end.

(** The same scan with the score of each row given by [score], whatever
    computes it: [scanStep data width height] is [scanUpdate] at the
    scores [rowScore data width height]. *)
Definition scanUpdate (score : Z -> Num) (st : Z * Bound) (y : Z) : Z * Bound :=
  match score y with
  | Fin s =>
      let better :=
        match snd st with Infinity => true | Below m => Qltb s m end in
      if better then (y, Below s) else st
  | NaN => st
  end.

Definition scanWith (score : Z -> Num) (height : Z) : Z * Bound :=
  fold_left (scanUpdate score) (forRange 0 height 1) (-1, Infinity).

(** [None] when [getImageData] throws. *)
Definition findExactCutInZone (ctx : Canvas) (width startY endY : Z)
    : option Z :=
  if startY >=? endY then Some startY
  else
    let height := endY - startY in
    match getImageData ctx startY width height with
    | None => None
    | Some data =>
        let '(bestY, _) :=
          fold_left (scanStep data width height)
                    (forRange 0 height 1) (-1, Infinity) in
        Some (startY + bestY)
    end.

(** ** splitLongImage: the cut loop *)

(** A safe zone as returned by [getAiSafeZones]. *)
Record Zone : Type := mkZone {
  start_percent : Q;
  end_percent : Q;
  type : string
}.

Definition TARGET_CHUNK_HEIGHT : Z := 2500.

(** [(z.start_percent + z.end_percent) / 2 * img.height] *)
Definition zoneMid (imgHeight : Z) (z : Zone) : Q :=
  ((start_percent z + end_percent z) / 2 * inject_Z imgHeight)%Q.

(** The callback of [validZones.reduce]. *)
Definition closerZone (imgHeight desiredCutY : Z) (prev curr : Zone) : Zone :=
  let prevMid := zoneMid imgHeight prev in
  let currMid := zoneMid imgHeight curr in
  let prevDist := Qabs (prevMid - inject_Z desiredCutY) in
  let currDist := Qabs (currMid - inject_Z desiredCutY) in
  if Qltb currDist prevDist then curr else prev.

Definition validZones (imgHeight currentY : Z) (zones : list Zone) : list Zone :=
  filter (fun z => Qltb (inject_Z (currentY + 100)) (zoneMid imgHeight z)) zones.

(** The rows handed to [findExactCutInZone] for the chosen zone, when a
    zone is chosen: [(zStartPx, zEndPx)]. *)
Definition zoneRows (imgHeight currentY desiredCutY : Z) (zones : list Zone)
    : option (Z * Z) :=
  match validZones imgHeight currentY zones with
  | [] => None
  | z0 :: rest =>
      let bestZone := fold_left (closerZone imgHeight desiredCutY) rest z0 in
      let zMid := zoneMid imgHeight bestZone in
      if Qltb (Qabs (zMid - inject_Z desiredCutY)) (inject_Z 1800)
      then Some (floor (start_percent bestZone * inject_Z imgHeight),
                 floor (end_percent bestZone * inject_Z imgHeight))
      else None
  end.

(** The rows of the fallback search: [(searchStart, searchEnd)]. *)
Definition fallbackRows (imgHeight currentY desiredCutY : Z) : Z * Z :=
  (Z.max (currentY + 100) (desiredCutY - 300),
   Z.min (imgHeight - 10) (desiredCutY + 300)).

(** The body of the [while] loop after the [break] test: the cut that is
    pushed.  [None] when [findExactCutInZone] throws. *)
Definition nextCut (ctx : Canvas) (zones : list Zone)
    (currentY desiredCutY : Z) : option Z :=
  let imgHeight := cheight ctx in
  let imgWidth := cwidth ctx in
  let cutY :=
    match zoneRows imgHeight currentY desiredCutY zones with
    | Some (zStartPx, zEndPx) =>
        findExactCutInZone ctx imgWidth zStartPx zEndPx
    | None => Some (-1)
    end in
  match cutY with
  | None => None
  | Some cutY =>
      let cutY :=
        if cutY =? -1 then
          let '(searchStart, searchEnd) :=
            fallbackRows imgHeight currentY desiredCutY in
          findExactCutInZone ctx imgWidth searchStart searchEnd
        else Some cutY in
      match cutY with
      | None => None
      | Some cutY =>
          Some (if cutY <=? currentY
                then currentY + TARGET_CHUNK_HEIGHT else cutY)
      end
  end.

Inductive Outcome (A : Type) : Type :=
| Done (a : A)
| Threw
| OutOfFuel.
Arguments Done {A} a.
Arguments Threw {A}.
Arguments OutOfFuel {A}.

(** [while (currentY < img.height) { ... }] with [splitPoints] and
    [currentY] as loop state; one unit of fuel per iteration. *)
Fixpoint cutLoop (fuel : nat) (ctx : Canvas) (zones : list Zone)
    (splitPoints : list Z) (currentY : Z) : Outcome (list Z) :=
  match fuel with
  | O => OutOfFuel
  | S fuel' =>
      if currentY <? cheight ctx then
        let desiredCutY := currentY + TARGET_CHUNK_HEIGHT in
        if desiredCutY >=? cheight ctx then Done splitPoints
        else
          match nextCut ctx zones currentY desiredCutY with
          | None => Threw
          | Some cutY => cutLoop fuel' ctx zones (splitPoints ++ [cutY]) cutY
          end
      else Done splitPoints
  end.

(** [[...new Set(splitPoints)]]: first occurrences, in insertion order. *)
Definition setAdd (acc : list Z) (x : Z) : list Z :=
  if existsb (Z.eqb x) acc then acc else acc ++ [x].

Definition dedupe (l : list Z) : list Z := fold_left setAdd l [].

(** [.sort((a, b) => a - b)]: ascending numeric order. *)
Fixpoint insertAsc (x : Z) (l : list Z) : list Z :=
  match l with
  | [] => [x]
  | y :: r => if x <=? y then x :: l else y :: insertAsc x r
  end.

Definition sortAsc (l : list Z) : list Z := fold_right insertAsc [] l.

Definition loopFuel (ctx : Canvas) : nat := S (Z.to_nat (cheight ctx)).

(** [uniquePoints], the finalized cut-point list. *)
Definition uniquePoints (ctx : Canvas) (zones : list Zone) : Outcome (list Z) :=
  match cutLoop (loopFuel ctx) ctx zones [0] 0 with
  | Done splitPoints =>
      let splitPoints := splitPoints ++ [cheight ctx] in
      Done (sortAsc (dedupe splitPoints))
  | Threw => Threw
  | OutOfFuel => OutOfFuel
  end.

(** ** splitLongImage: the chunk loop *)

(** A file is a name and the picture it decodes to.  The encoder
    ([toBlob]) is not modelled: a chunk file is identified with its name
    and the pixels drawn on its canvas. *)
Record File : Type := mkFile {
  fname : string;
  pixels : Canvas
}.

(** [[\w\d_-]]: an ASCII letter or digit, [_] or [-] (the [i] flag adds
    no character to this class). *)
Definition isWordChar (c : ascii) : bool :=
  let n := nat_of_ascii c in
  ((48 <=? n) && (n <=? 57) || (65 <=? n) && (n <=? 90)
   || (97 <=? n) && (n <=? 122) || (n =? 95) || (n =? 45))%nat.

Fixpoint allWordChars (s : string) : bool :=
  match s with
  | EmptyString => true
  | String c rest => isWordChar c && allWordChars rest
  end.

(** [name.replace(/(\.[\w\d_-]+)$/i, insert + "$1")] for an [insert]
    without [$]: the match is the first dot that is followed, up to the
    end of the name, by one or more characters of the class; a name
    without such an ending is returned unchanged. *)
Fixpoint insertBeforeExtension (insert name : string) : string :=
  match name with
  | EmptyString => EmptyString
  | String c rest =>
      if Ascii.eqb c "."%char && negb (String.eqb rest EmptyString)
         && allWordChars rest
      then (insert ++ name)%string
      else String c (insertBeforeExtension insert rest)
  end.

(** [`${n}`] for an integer [n]. *)
Definition numberToString (n : Z) : string :=
  NilEmpty.string_of_int (Z.to_int n).

(** [file.name.replace(/(\.[\w\d_-]+)$/i, `_part_${n}$1`)] *)
Definition partName (name : string) (n : Z) : string :=
  insertBeforeExtension ("_part_" ++ numberToString n) name.

(** [cCtx.drawImage(canvas, 0, y1, img.width, h, 0, 0, img.width, h)] on
    a fresh canvas of [img.width] by [h]. *)
Definition drawChunk (ctx : Canvas) (y1 h : Z) : Canvas :=
  {| cwidth := cwidth ctx;
     cheight := h;
     bitmap := map (fun r => canvasRow ctx (cwidth ctx) (y1 + r))
                   (forRange 0 h 1) |}.

(** [for (let i = 0; i < uniquePoints.length - 1; i++)], written by
    recursion on the remaining points; [i] is the loop index. *)
Fixpoint chunkLoop (ctx : Canvas) (file : File) (i : Z) (points : list Z)
    : list File :=
  match points with
  | y1 :: ((y2 :: _) as rest) =>
      let h := y2 - y1 in
      if h <? 100 then chunkLoop ctx file (i + 1) rest
      else {| fname := partName (fname file) (i + 1);
              pixels := drawChunk ctx y1 h |}
           :: chunkLoop ctx file (i + 1) rest
  | _ => []
  end.

(** [splitLongImage(file)], with the answer of [getAiSafeZones] as a
    parameter.  [1.2 * 2500 = 3000].  The branches taken when the
    browser gives no 2D context or no blob are not modelled. *)
Definition splitLongImage (file : File) (zones : list Zone)
    : Outcome (list File) :=
  let img := pixels file in
  if cheight img <=? 3000 then Done [file]
  else
    match uniquePoints img zones with
    | Done points => Done (chunkLoop img file 0 points)
    | Threw => Threw
    | OutOfFuel => OutOfFuel
    end.

(** The picture obtained by stacking pictures by height. *)
Definition stack (files : list File) : list (list Z) :=
  flat_map (fun f => bitmap (pixels f)) files.

(** The rows of the picture [rows] that lie in an interval of [points]
    at least 100 rows high, interval after interval: what restacking
    is compared with. *)
Fixpoint keptRows (rows : list (list Z)) (points : list Z) : list (list Z) :=
  match points with
  | y1 :: ((y2 :: _) as rest) =>
      (if y2 - y1 <? 100 then []
       else firstn (Z.to_nat (y2 - y1)) (skipn (Z.to_nat y1) rows))
      ++ keptRows rows rest
  | _ => []
  end.

(** Every two consecutive points are at least [m] apart. *)
Fixpoint gapsAtLeast (m : Z) (points : list Z) : Prop :=
  match points with
  | y1 :: ((y2 :: _) as rest) => m <= y2 - y1 /\ gapsAtLeast m rest
  | _ => True
  end.

(** A hint whose two fractions lie in [[0, 1]]. *)
Definition zoneInRange (z : Zone) : Prop :=
  (0 <= start_percent z /\ start_percent z <= 1)%Q /\
  (0 <= end_percent z /\ end_percent z <= 1)%Q.

(** Where a cut list ends. *)
Definition lastPoint (points : list Z) : Z := last points 0.

(** ** Sample inputs *)

(** A strip of [w] by [h] pixels, all of the colour [(v, v, v)],
    opaque. *)
Definition plainStrip (w h v : Z) : Canvas :=
  mkCanvas w h
           (repeat (concat (repeat [v; v; v; 255] (Z.to_nat w))) (Z.to_nat h)).

Definition plainFile (w h v : Z) : File :=
  mkFile "strip.png" (plainStrip w h v).

(** One row of four white pixels, as [ImageData.data]. *)
Definition whiteRow4 : list Z := concat (repeat [255; 255; 255; 255] 4).

(** A hint whose bounds are inverted and leave [0, 1]. *)
Definition invertedZone : Zone := mkZone (3 # 2) (1 # 2) "gutter".

(** A hint that starts inside the image and ends below it. *)
Definition overhangingZone : Zone := mkZone (15 # 16) (9 # 8) "safe_background".

(** A well-formed hint close to the bottom of the image. *)
Definition bottomZone : Zone := mkZone (31 # 32) (63 # 64) "gutter".

End Slicer.

(* ================================================================== *)
(** * The page scheduler (the [App] and [MangaReader] components) *)

Module Scheduler.

Inductive Status : Type := pending | processing | completed | error.

Definition Status_eqb (a b : Status) : bool :=
  match a, b with
  | pending, pending | processing, processing
  | completed, completed | error, error => true
  | _, _ => false
  end.

(** [interface MangaPage] *)
Record MangaPage : Type := mkPage {
  id : string;
  originalFile : Slicer.File;
  originalUrl : string;
  translatedUrl : option string;
  status : Status;
  pageNumber : Z
}.

(** [{ ...p, status: st }] and [{ ...p, status: st, translatedUrl: u }] *)
Definition withStatus (p : MangaPage) (st : Status) : MangaPage :=
  {| id := id p; originalFile := originalFile p; originalUrl := originalUrl p;
     translatedUrl := translatedUrl p; status := st;
     pageNumber := pageNumber p |}.

Definition withResult (p : MangaPage) (st : Status) (u : option string)
    : MangaPage :=
  {| id := id p; originalFile := originalFile p; originalUrl := originalUrl p;
     translatedUrl := u; status := st; pageNumber := pageNumber p |}.

Definition CONCURRENCY_LIMIT : Z := 5.
Definition RPM_LIMIT : Z := 20.

(** ** The state updaters *)

(** [processPage], success branch:
    [prev.map(p => p.id === page.id ? {...p, status: 'completed', translatedUrl: url} : p)] *)
Definition resolveSuccess (page : MangaPage) (url : string)
    (prev : list MangaPage) : list MangaPage :=
  map (fun p => if String.eqb (id p) (id page)
                then withResult p completed (Some url) else p) prev.

(** [processPage], [catch] branch. *)
Definition resolveFailure (page : MangaPage) (prev : list MangaPage)
    : list MangaPage :=
  map (fun p => if String.eqb (id p) (id page)
                then withStatus p error else p) prev.

(** [handleRegenerate(pageId)] *)
Definition handleRegenerate (pageId : string) (prev : list MangaPage)
    : list MangaPage :=
  map (fun p => if String.eqb (id p) pageId
                then withResult p pending None else p) prev.

(** [t => now - t < 60000] *)
Definition inWindow (now t : Z) : bool := now - t <? 60000.

(** The updater of the clean-up interval. *)
Definition cleanupHistory (now : Z) (prev : list Z) : list Z :=
  let filtered := filter (inWindow now) prev in
  if negb (Nat.eqb (length filtered) (length prev)) then filtered else prev.

(** [pagesToStart.find(start => start.id === p.id)] as a truth value. *)
Definition isStarted (pagesToStart : list MangaPage) (p : MangaPage) : bool :=
  existsb (fun start => String.eqb (id start) (id p)) pagesToStart.

(** The [setPages] updater of the scheduler. *)
Definition startPages (pagesToStart prev : list MangaPage) : list MangaPage :=
  map (fun p => if isStarted pagesToStart p
                then withStatus p processing else p) prev.

(** ** The scheduler effect *)

Definition hasStatus (st : Status) (p : MangaPage) : bool :=
  Status_eqb (status p) st.

(** What one run of the effect decides: [None] for each early [return]
    (and for [toStartCount > 0] false), otherwise
    [(pagesToStart, newTimestamps)]. *)
Definition schedule (hasKey : bool) (pages : list MangaPage)
    (requestHistory : list Z) (now : Z)
    : option (list MangaPage * list Z) :=
  if negb hasKey then None
  else
    let activeCount := Z.of_nat (length (filter (hasStatus processing) pages)) in
    let pendingPages := filter (hasStatus pending) pages in
    if Z.of_nat (length pendingPages) =? 0 then None
    else
      let concurrencySlots := CONCURRENCY_LIMIT - activeCount in
      if concurrencySlots <=? 0 then None
      else
        let validHistory := filter (inWindow now) requestHistory in
        let rpmSlots := RPM_LIMIT - Z.of_nat (length validHistory) in
        if rpmSlots <=? 0 then None
        else
          let toStartCount :=
            Z.min (Z.min (Z.of_nat (length pendingPages)) concurrencySlots)
                  rpmSlots in
          if toStartCount >? 0 then
            let pagesToStart := firstn (Z.to_nat toStartCount) pendingPages in
            let newTimestamps := repeat now (Z.to_nat toStartCount) in
            Some (pagesToStart, newTimestamps)
          else None.

(** ** The running application *)

(** A call of [processPage] that has not settled: the page object it was
    given, and (ghost) how many times that id had been regenerated when
    the call was dispatched. *)
Record Call : Type := mkCall {
  cpage : MangaPage;
  cepoch : nat
}.

(** The React state ([pages], [requestHistory], [hasKey]), the calls in
    flight, and ghost history: the latest [Date.now()] observed, the log
    of admissions (time and id of every page that went from pending to
    processing) and the log of regenerated ids. *)
Record State : Type := mkState {
  pages : list MangaPage;
  requestHistory : list Z;
  hasKey : bool;
  inflight : list Call;
  clock : Z;
  admissions : list (Z * string);
  regenLog : list string
}.

Definition epoch (log : list string) (i : string) : nat :=
  count_occ string_dec log i.

(** The pages that a run of the effect moves from pending to processing. *)
Definition admittedBy (pagesToStart prev : list MangaPage) : list MangaPage :=
  filter (fun p => hasStatus pending p && isStarted pagesToStart p) prev.

(** One run of the scheduler effect at time [now]. *)
Definition tick (now : Z) (s : State) : State :=
  match schedule (hasKey s) (pages s) (requestHistory s) now with
  | None =>
      mkState (pages s) (requestHistory s) (hasKey s) (inflight s) now
              (admissions s) (regenLog s)
  | Some (pagesToStart, newTimestamps) =>
      mkState (startPages pagesToStart (pages s))
              (requestHistory s ++ newTimestamps)
              (hasKey s)
              (inflight s ++
               map (fun page => mkCall page (epoch (regenLog s) (id page)))
                   pagesToStart)
              now
              (admissions s ++
               map (fun p => (now, id p)) (admittedBy pagesToStart (pages s)))
              (regenLog s)
  end.

(** One firing of the clean-up interval at time [now]. *)
Definition cleanup (now : Z) (s : State) : State :=
  mkState (pages s) (cleanupHistory now (requestHistory s)) (hasKey s)
          (inflight s) now (admissions s) (regenLog s).

(** The settling of the call [c], which leaves [rest] in flight. *)
Definition settleOk (c : Call) (url : string) (rest : list Call) (s : State)
    : State :=
  mkState (resolveSuccess (cpage c) url (pages s)) (requestHistory s)
          (hasKey s) rest (clock s) (admissions s) (regenLog s).

Definition settleErr (c : Call) (rest : list Call) (s : State) : State :=
  mkState (resolveFailure (cpage c) (pages s)) (requestHistory s)
          (hasKey s) rest (clock s) (admissions s) (regenLog s).

Definition regenerate (pageId : string) (s : State) : State :=
  mkState (handleRegenerate pageId (pages s)) (requestHistory s)
          (hasKey s) (inflight s) (clock s) (admissions s)
          (pageId :: regenLog s).

Definition selectKey (s : State) : State :=
  mkState (pages s) (requestHistory s) true (inflight s) (clock s)
          (admissions s) (regenLog s).

(** [MangaReader] renders the redo button for a page with
    [status === 'completed' && translatedUrl] and the retry button for a
    page with [status === 'error']; no other page has a control that
    calls [onRegenerate]. *)
Definition regenerateOffered (p : MangaPage) : bool :=
  match status p with
  | completed =>
      match translatedUrl p with
      | Some u => negb (String.eqb u EmptyString)
      | None => false
      end
  | error => true
  | _ => false
  end.

(** The events of a session.  [gated] says whether [handleRegenerate]
    is reached only through the buttons of [MangaReader] (the
    application as written) or may be called on any page.  Time does not
    run backwards between two readings of [Date.now()]. *)
Inductive step (gated : bool) : State -> State -> Prop :=
| step_key s :
    step gated s (selectKey s)
| step_tick s now :
    clock s <= now -> step gated s (tick now s)
| step_cleanup s now :
    clock s <= now -> step gated s (cleanup now s)
| step_ok s before c after url :
    inflight s = before ++ c :: after ->
    step gated s (settleOk c url (before ++ after) s)
| step_err s before c after :
    inflight s = before ++ c :: after ->
    step gated s (settleErr c (before ++ after) s)
| step_regenerate s p :
    In p (pages s) ->
    (gated = true -> regenerateOffered p = true) ->
    step gated s (regenerate (id p) s).

(** The state after [handleFilesSelected]: every page pending with no
    result, ids pairwise distinct, nothing dispatched yet. *)
Definition initial (s : State) : Prop :=
  NoDup (map id (pages s)) /\
  Forall (fun p => status p = pending /\ translatedUrl p = None) (pages s) /\
  requestHistory s = [] /\ inflight s = [] /\
  admissions s = [] /\ regenLog s = [].

Inductive reachable (gated : bool) : State -> Prop :=
| reach_init s : initial s -> reachable gated s
| reach_step s s' : reachable gated s -> step gated s s' -> reachable gated s'.

Definition processingCount (ps : list MangaPage) : Z :=
  Z.of_nat (length (filter (hasStatus processing) ps)).

(** The admissions whose time lies in the trailing window that ends at
    [T]: [T - 60000 < t <= T]. *)
Definition admittedInWindow (T : Z) (log : list (Z * string)) : list (Z * string) :=
  filter (fun a => (fst a <=? T) && inWindow T (fst a)) log.

Definition callId (c : Call) : string := id (cpage c).


(** ** Invariants *)

(** The invariant behind the rate limit: logged admissions are not in
    the future, every admission still inside a current or later window
    is matched by a timestamp of [requestHistory], and no trailing
    window holds more than [RPM_LIMIT] admissions. *)
Definition rateInv (s : State) : Prop :=
  (forall a, In a (admissions s) -> fst a <= clock s) /\
  (forall now, clock s <= now ->
     (length (filter (fun a => inWindow now (fst a)) (admissions s))
      <= length (filter (inWindow now) (requestHistory s)))%nat) /\
  (forall T, Z.of_nat (length (admittedInWindow T (admissions s))) <= RPM_LIMIT).

(** At most one call is in flight per id, and a page whose id has a call
    in flight is processing and has not been regenerated since that call
    was dispatched. *)
Definition freshInv (s : State) : Prop :=
  NoDup (map callId (inflight s)) /\
  forall c p, In c (inflight s) -> In p (pages s) -> id p = callId c ->
    status p = processing /\ cepoch c = epoch (regenLog s) (id p).

(** A small session to run the definitions on. *)
Definition demoFile : Slicer.File :=
  Slicer.mkFile "page.png" (Slicer.mkCanvas 1 1 [[0; 0; 0; 255]]).

Definition demoPage (i : string) : MangaPage :=
  mkPage i demoFile "blob:original" None pending 1.

Definition demoState (ids : list string) : State :=
  mkState (map demoPage ids) [] true [] 0 [] [].

Definition sevenIds : list string := ["a"; "b"; "c"; "d"; "e"; "f"; "g"]%string.





(** Fifty pending pages served by a worker that answers at once: a
    round is one tick at time [now] followed by the settling of every
    call in flight. *)
Definition fiftyIds : list string :=
  map (fun n => String (Ascii.ascii_of_nat (48 + n)) EmptyString) (seq 0 50).

Definition settleFirst (url : string) (s : State) : State :=
  match inflight s with
  | [] => s
  | c :: rest => settleOk c url rest s
  end.

Definition round (now : Z) (s : State) : State :=
  Nat.iter 5 (settleFirst "blob:translated") (tick now s).

Definition countStatus (st : Status) (s : State) : nat :=
  length (filter (hasStatus st) (pages s)).


End Scheduler.

(* ================================================================== *)
(** * The translation pipeline ([services/geminiService.ts]) *)

Module Translator.

Import JS.

(** ** isComplexImage *)

(** [for (let i = 0; i < data.length; i += 16)]: the indices visited by
    both loops, one pixel in four. *)
Definition sampledIndices (data : list Z) : list Z :=
  forRange 0 (Z.of_nat (length data)) 16.

(** [(data[i] + data[i+1] + data[i+2]) / 3] *)
Definition pixelValue (data : list Z) (i : Z) : Num :=
  div (add (add (rd data i) (rd data (i + 1))) (rd data (i + 2))) (ofZ 3).

(** The first loop; the accumulator is [(sum, count)]. *)
Definition sumStep (data : list Z) (acc : Num * Z) (i : Z) : Num * Z :=
  let '(sum, count) := acc in
  (add sum (pixelValue data i), count + 1).

(** The second loop; [Math.pow(val - avg, 2)] is the square. *)
Definition varianceStep (data : list Z) (avg : Num) (variance : Num) (i : Z)
    : Num :=
  let val := pixelValue data i in
  add variance (mul (sub val avg) (sub val avg)).

(** The variance computed from [data], the bytes of the 100 by 100
    thumbnail ([ctx.getImageData(0, 0, 100, 100).data]). *)
Definition varianceOf (data : list Z) : Num :=
  let '(sum, count) :=
    fold_left (sumStep data) (sampledIndices data) (ofZ 0, 0) in
  let avg := div sum (ofZ count) in
  let variance :=
    fold_left (varianceStep data avg) (sampledIndices data) (ofZ 0) in
  div variance (ofZ count).

(** [resolve(variance > 100)].  The drawing of the picture into the
    thumbnail and the branch without a 2D context are not modelled. *)
Definition isComplexImage (data : list Z) : bool :=
  gt (varianceOf data) (ofZ 100).

(** The number of samples, as a rational. *)
Definition countQ (xs : list Z) : Q := inject_Z (Z.of_nat (length xs)).

(** The grey level of the sample at index [i], over plain bytes. *)
Definition greyAt (data : list Z) (i : Z) : Q :=
  ((Slicer.byteAt data i + Slicer.byteAt data (i + 1)
    + Slicer.byteAt data (i + 2)) / inject_Z 3)%Q.

(** ** The aspect ratio sent to the image model *)

Record Ratio : Type := mkRatio {
  val : Q;
  label : string
}.

Definition supportedRatios : list Ratio :=
  [ mkRatio 1 "1:1";
    mkRatio (3 # 4) "3:4";
    mkRatio (133 # 100) "4:3";
    mkRatio (9 # 16) "9:16";
    mkRatio (177 # 100) "16:9" ].

(** The callback of [reduce]. *)
Definition closerRatio (ratio : Q) (prev curr : Ratio) : Ratio :=
  if Qltb (Qabs (val curr - ratio)) (Qabs (val prev - ratio))
  then curr else prev.

(** [supportedRatios.reduce(...)] without an initial value: the fold
    starts from the first element. *)
Definition bestRatio (ratio : Q) : Ratio :=
  match supportedRatios with
  | [] => mkRatio 0 ""
  | first :: rest => fold_left (closerRatio ratio) rest first
  end.

(** Four white pixels, and four pixels that agree with them on the
    red, green and blue bytes of the first pixel only. *)
Definition whiteThumb : list Z := Slicer.whiteRow4.

Definition spottedThumb : list Z :=
  [255; 255; 255; 0; 0; 0; 0; 0; 10; 20; 30; 40; 0; 0; 0; 255].

(** [width / height] for a picture of positive height. *)
Definition aspect (width height : Z) : Q :=
  (inject_Z width / inject_Z height)%Q.

End Translator.

(* ================================================================== *)
(** * The long-strip export ([stitchTranslatedPages]) *)

Module Stitcher.

(** A loaded [HTMLImageElement]. *)
Record Image : Type := mkImage {
  src : string;
  naturalWidth : Z;
  naturalHeight : Z
}.

(** [{ img, height }] *)
Record Item : Type := mkItem {
  img : Image;
  height : Z
}.

(** One [ctx.drawImage(item.img, 0, y, maxWidth, item.height)]. *)
Record Draw : Type := mkDraw {
  what : Image;
  dy : Z;
  dWidth : Z;
  dHeight : Z
}.

(** A canvas of the export, in place of its PNG: its size and the
    drawings made on it, in order. *)
Record Sheet : Type := mkSheet {
  swidth : Z;
  sheight : Z;
  draws : list Draw
}.

Definition MAX_CANVAS_HEIGHT : Z := 16384.

(** [Math.floor(img.naturalHeight * (maxWidth / img.naturalWidth))],
    for an image of positive natural width. *)
Definition scaledHeight (maxWidth : Z) (i : Image) : Z :=
  JS.floor (inject_Z (naturalHeight i)
            * (inject_Z maxWidth / inject_Z (naturalWidth i)))%Q.

Record Acc : Type := mkAcc {
  resultUrls : list Sheet;
  currentBatch : list Item;
  currentHeight : Z
}.

(** One iteration of the loop of [renderBatch]; the state is the
    drawings made so far and [y]. *)
Definition drawStep (maxWidth : Z) (st : list Draw * Z) (item : Item)
    : list Draw * Z :=
  let '(done, y) := st in
  (done ++ [mkDraw (img item) y maxWidth (height item)], y + height item).

(** [renderBatch()]: the new value of [resultUrls].  The branch without
    a 2D context is not modelled. *)
Definition renderBatch (maxWidth : Z) (a : Acc) : list Sheet :=
  match currentBatch a with
  | [] => resultUrls a
  | _ :: _ =>
      resultUrls a ++
      [mkSheet maxWidth (currentHeight a)
               (fst (fold_left (drawStep maxWidth) (currentBatch a) ([], 0)))]
  end.

(** One iteration of [for (const img of images)]. *)
Definition stitchStep (maxWidth : Z) (a : Acc) (im : Image) : Acc :=
  let h := scaledHeight maxWidth im in
  let a' :=
    if currentHeight a + h >? MAX_CANVAS_HEIGHT
    then mkAcc (renderBatch maxWidth a) [] 0
    else a in
  mkAcc (resultUrls a') (currentBatch a' ++ [mkItem im h])
        (currentHeight a' + h).

(** [Math.max(...images.map(img => img.naturalWidth))] of a list that
    is not empty. *)
Definition maxWidthOf (first : Image) (rest : list Image) : Z :=
  fold_left Z.max (map naturalWidth rest) (naturalWidth first).

(** [stitchTranslatedPages], from the loaded images on. *)
Definition stitchTranslatedPages (images : list Image) : list Sheet :=
  match images with
  | [] => []
  | first :: rest =>
      let maxWidth := maxWidthOf first rest in
      renderBatch maxWidth
                  (fold_left (stitchStep maxWidth) images (mkAcc [] [] 0))
  end.

(** The width of every sheet. *)
Definition sheetWidth (images : list Image) : Z :=
  match images with
  | [] => 0
  | first :: rest => maxWidthOf first rest
  end.

(** The drawings start at [y] and each begins where the one before it
    ends. *)
Fixpoint tiledFrom (y : Z) (ds : list Draw) : Prop :=
  match ds with
  | [] => True
  | d :: rest => dy d = y /\ tiledFrom (y + dHeight d) rest
  end.

Definition totalHeight (ds : list Draw) : Z :=
  fold_right (fun d acc => dHeight d + acc) 0 ds.

(** No sheet could have taken the first image of the next one. *)
Fixpoint packed (sheets : list Sheet) : Prop :=
  match sheets with
  | s1 :: ((s2 :: _) as rest) =>
      match draws s2 with
      | d :: _ => MAX_CANVAS_HEIGHT < sheight s1 + dHeight d
      | [] => False
      end /\ packed rest
  | _ => True
  end.

(** The images drawn on a list of sheets, sheet after sheet. *)
Definition drawnImages (sheets : list Sheet) : list Image :=
  flat_map (fun s => map what (draws s)) sheets.

End Stitcher.

(* ================================================================== *)
(** * Loading a chapter ([App]: [extractNumber], [handleFilesSelected]) *)

Module Loader.

Import Slicer Scheduler.

(** ** extractNumber *)

(** [\d]: an ASCII digit. *)
Definition isDigit (c : ascii) : bool :=
  let n := nat_of_ascii c in (48 <=? n)%nat && (n <=? 57)%nat.

(** The longest run of digits at the head of [s]. *)
Fixpoint digitRun (s : string) : string :=
  match s with
  | String c rest => if isDigit c then String c (digitRun rest) else EmptyString
  | EmptyString => EmptyString
  end.

(** [filename.match(/(\d+)/)]: the leftmost run of digits, taken to its
    end, or [None] when the name has no digit. *)
Fixpoint firstDigits (s : string) : option string :=
  match s with
  | EmptyString => None
  | String c rest =>
      if isDigit c then Some (String c (digitRun rest)) else firstDigits rest
  end.

Definition digitValue (c : ascii) : Z := Z.of_nat (nat_of_ascii c) - 48.

(** [parseInt(s, 10)] on a string that begins with a digit: the value
    of its leading digits.  The value is an exact integer, as
    [parseInt] returns it for numbers below [2^53]; the rounding of
    larger numbers is not modelled, and the statements about the
    numbers of file names are restricted to names below that bound. *)
Fixpoint parseDigits (acc : Z) (s : string) : Z :=
  match s with
  | String c rest =>
      if isDigit c then parseDigits (acc * 10 + digitValue c) rest else acc
  | EmptyString => acc
  end.

Definition extractNumber (filename : string) : Z :=
  match firstDigits filename with
  | Some m => parseDigits 0 m
  | None => 0
  end.

(** ** handleFilesSelected *)

Inductive AppMode : Type := manga | manhwa.
Inductive SortOrder : Type := asc | desc.

(** [handleModeChange]: the sort order that a mode selects. *)
Definition handleModeChange (mode : AppMode) : AppMode * SortOrder :=
  match mode with
  | manhwa => (manhwa, asc)
  | manga => (manga, desc)
  end.

(** The comparison function given to [rawFiles.sort]. *)
Definition compareFiles (sortOrder : SortOrder) (a b : File) : Z :=
  let numA := extractNumber (fname a) in
  let numB := extractNumber (fname b) in
  match sortOrder with
  | asc => numA - numB
  | desc => numB - numA
  end.

(** [Array.prototype.sort] is stable: an element goes before the first
    element that the comparison puts strictly after it. *)
Fixpoint insertBy {A : Type} (cmp : A -> A -> Z) (x : A) (l : list A) : list A :=
  match l with
  | [] => [x]
  | y :: rest =>
      if cmp x y <? 0 then x :: y :: rest else y :: insertBy cmp x rest
  end.

Definition sortBy {A : Type} (cmp : A -> A -> Z) (l : list A) : list A :=
  fold_left (fun sorted x => insertBy cmp x sorted) l [].

(** What the [try] block obtains for one file: its chunks, or [None]
    when the promise of [splitLongImage] settles neither way (an
    exception raised inside its [onload] handler is not passed to
    [reject]).  [loads] says whether the browser decodes the file
    ([onerror] rejects, and the [catch] block keeps the file whole);
    [zonesOf] is the answer of [getAiSafeZones]. *)
Definition chunksOf (appMode : AppMode) (loads : File -> bool)
    (zonesOf : File -> list Zone) (file : File) : option (list File) :=
  match appMode with
  | manga => Some [file]
  | manhwa =>
      if loads file then
        match splitLongImage file (zonesOf file) with
        | Done chunks => Some chunks
        | Threw => None
        | OutOfFuel => None
        end
      else Some [file]
  end.

(** The pages pushed for one file.  [fresh n] is the pair of
    [Math.random().toString(36).substr(2, 9)] and
    [URL.createObjectURL(...)] that the [n]-th page receives. *)
Definition pagesOf (fresh : nat -> string * string) (file : File)
    (chunks : list File) (newPages : list MangaPage) : list MangaPage :=
  fold_left
    (fun acc chunkFile =>
       acc ++ [mkPage (fst (fresh (length acc))) chunkFile
                      (snd (fresh (length acc))) None pending
                      (extractNumber (fname file))])
    chunks newPages.

(** The loop over the sorted files. *)
Fixpoint processFiles (appMode : AppMode) (loads : File -> bool)
    (zonesOf : File -> list Zone) (fresh : nat -> string * string)
    (rawFiles : list File) (newPages : list MangaPage)
    : option (list MangaPage) :=
  match rawFiles with
  | [] => Some newPages
  | file :: rest =>
      match chunksOf appMode loads zonesOf file with
      | None => None
      | Some chunks =>
          processFiles appMode loads zonesOf fresh rest
                       (pagesOf fresh file chunks newPages)
      end
  end.

(** [handleFilesSelected(fileList)]: the argument of [setPages], or
    [None] when the function never gets there. *)
Definition handleFilesSelected (appMode : AppMode) (sortOrder : SortOrder)
    (loads : File -> bool) (zonesOf : File -> list Zone)
    (fresh : nat -> string * string) (fileList : list File)
    : option (list MangaPage) :=
  let rawFiles := sortBy (compareFiles sortOrder) fileList in
  processFiles appMode loads zonesOf fresh rawFiles [].

(** The page numbers follow the sort order. *)
Definition inOrder (sortOrder : SortOrder) (a b : Z) : Prop :=
  match sortOrder with
  | asc => a <= b
  | desc => b <= a
  end.

Definition fileNumber (f : File) : Z := extractNumber (fname f).

Definition comesBefore (sortOrder : SortOrder) (a b : File) : Prop :=
  inOrder sortOrder (fileNumber a) (fileNumber b).

End Loader.

(* ================================================================== *)
(** * Notions used to state further properties

    Invariants, measures and sample inputs that the statements of the
    later sections use; none of them is part of the application. *)

(** ** Of the slicing engine *)

Module SlicerSpec.

Import JS Slicer.

(** What the scan has established after the rows [0 .. x - 1]. *)
Definition scanned (score : Z -> Num) (x : Z) (st : Z * Bound) : Prop :=
  (x = 0 /\ st = (-1, Infinity)) \/
  (0 <= fst st < x /\
   exists m, snd st = Below m /\
     score (fst st) = Fin m /\
     forall y, 0 <= y < x ->
       exists q, score y = Fin q /\
                 (m <= q)%Q /\ (y < fst st -> (m < q)%Q)).

(** Scores with a tie for the least: 5, 3, 1, 1, 3, 5 on the rows 0 to 5. *)
Definition tiedScore (y : Z) : Q := inject_Z (Z.abs (2 * y - 5)).

(** The distance of row [y] from the middle of a zone of [h] rows. *)
Definition centerDistance (h y : Z) : Q :=
  Qabs (inject_Z y - inject_Z h / inject_Z 2).

(** Every two consecutive points are between [lo] and [hi] apart. *)
Fixpoint gapsBetween (lo hi : Z) (points : list Z) : Prop :=
  match points with
  | y1 :: ((y2 :: _) as rest) => lo <= y2 - y1 <= hi /\ gapsBetween lo hi rest
  | _ => True
  end.

(** The distance of the middle of a zone from the desired cut. *)
Definition zoneDistance (h des : Z) (z : Zone) : Q :=
  Qabs (zoneMid h z - inject_Z des).

(** A fraction between 0 and 1 that is a multiple of 1/1024.  The sums,
    halves, products with a height below 2^31, differences and floors
    that the cut loop forms from such fractions are computed without
    rounding. *)
Definition exactFraction (q : Q) : Prop :=
  exists k : Z, 0 <= k <= 1024 /\ (q == k # 1024)%Q.

Definition exactZone (z : Zone) : Prop :=
  exactFraction (start_percent z) /\ exactFraction (end_percent z).

(** A value of a [Uint8ClampedArray]. *)
Definition isByte (b : Z) : Prop := 0 <= b <= 255.

(** A name without a dot. *)
Fixpoint dotFree (s : string) : bool :=
  match s with
  | EmptyString => true
  | String c rest => negb (Ascii.eqb c "."%char) && dotFree rest
  end.

(** A hint around the desired first cut of an image 4000 rows high. *)
Definition midZone : Zone := mkZone (1 # 2) (5 # 8) "gutter".

End SlicerSpec.

(** ** Of the scheduler *)

Module SchedulerSpec.
Import Scheduler.

(** The life cycle of a page: the changes of [status] that the four
    updaters make when each acts on the page it is meant for. *)
Definition nextStatus (a b : Status) : bool :=
  match a, b with
  | pending, processing
  | processing, completed
  | processing, error
  | completed, pending
  | error, pending => true
  | _, _ => false
  end.

(** The ids of the pages shown as processing. *)
Definition processingIds (s : State) : list string :=
  map id (filter (hasStatus processing) (pages s)).

(** Every call in flight is for a page of the list, and every processing
    page has a call in flight. *)
Definition servedInv (s : State) : Prop :=
  (forall c, In c (inflight s) -> In (callId c) (map id (pages s))) /\
  (forall p, In p (pages s) -> status p = processing ->
             In (id p) (map callId (inflight s))).

(** A page holds a result exactly when it is completed. *)
Definition resultInv (s : State) : Prop :=
  forall p, In p (pages s) ->
    (status p = completed <-> exists url, translatedUrl p = Some url).

(** Two pages, the first translated, the second still processing. *)
Definition firstDone : State :=
  settleFirst "blob:translated" (tick 0 (demoState ["a"; "b"]%string)).

End SchedulerSpec.

(** ** Of the export *)

Module StitcherSpec.
Import Stitcher.

(** The drawings of [renderBatch] in closed form. *)
Fixpoint place (maxWidth y : Z) (batch : list Item) : list Draw :=
  match batch with
  | [] => []
  | item :: rest =>
      mkDraw (img item) y maxWidth (height item)
      :: place maxWidth (y + height item) rest
  end.

Definition batchHeight (batch : list Item) : Z :=
  fold_right (fun item acc => height item + acc) 0 batch.

(** A sheet as the export lays it out: of the common width, its
    drawings one under the other from the top, each scaled to the
    common width, the canvas as high as the drawings together, and no
    higher than [MAX_CANVAS_HEIGHT] unless it holds a single image. *)
Definition wellLaid (maxWidth : Z) (s : Sheet) : Prop :=
  swidth s = maxWidth /\
  draws s <> [] /\
  tiledFrom 0 (draws s) /\
  sheight s = totalHeight (draws s) /\
  Forall (fun d => dWidth d = maxWidth /\
                   dHeight d = scaledHeight maxWidth (what d)) (draws s) /\
  (sheight s <= MAX_CANVAS_HEIGHT \/ length (draws s) = 1%nat).

(** The layout of a sheet, leaving open the heights at which its pages
    are drawn: the sheet has the common width, holds at least one
    drawing, the drawings lie one under the other from the top, each at
    the common width and inside the canvas, the canvas is as high as
    the drawings together, and no higher than [MAX_CANVAS_HEIGHT]
    unless it holds a single image. *)
Definition laidOut (maxWidth : Z) (s : Sheet) : Prop :=
  swidth s = maxWidth /\
  draws s <> [] /\
  tiledFrom 0 (draws s) /\
  sheight s = totalHeight (draws s) /\
  Forall (fun d => dWidth d = maxWidth /\
                   0 <= dy d /\ dy d + dHeight d <= sheight s) (draws s) /\
  (sheight s <= MAX_CANVAS_HEIGHT \/ length (draws s) = 1%nat).

(** What the loop maintains. *)
Definition stitchInv (maxWidth : Z) (seen : list Image) (a : Acc) : Prop :=
  (currentBatch a = [] -> resultUrls a = []) /\
  currentHeight a = batchHeight (currentBatch a) /\
  Forall (fun item => height item = scaledHeight maxWidth (img item))
         (currentBatch a) /\
  (currentHeight a <= MAX_CANVAS_HEIGHT \/ (length (currentBatch a) <= 1)%nat) /\
  drawnImages (renderBatch maxWidth a) = seen /\
  Forall (wellLaid maxWidth) (renderBatch maxWidth a) /\
  packed (renderBatch maxWidth a).

(** Three pages, the widest 800 wide. *)
Definition threePages : list Image :=
  [ mkImage "blob:1" 800 9000;
    mkImage "blob:2" 400 4000;
    mkImage "blob:3" 800 1000 ].

End StitcherSpec.

(** ** Of the loading of a chapter *)

Module LoaderSpec.
Import Slicer Scheduler Loader.

(** The numbers of the file names are below [2^53], where [parseInt]
    and the subtraction of the comparison function are exact. *)
Definition safeNumbers (files : list File) : Prop :=
  Forall (fun f => fileNumber f < 2 ^ 53) files.

(** A selection of four files, two of them with the number 2. *)
Definition chapter : list File :=
  [ mkFile "10.png" (pixels demoFile);
    mkFile "2.png" (pixels demoFile);
    mkFile "cover.png" (pixels demoFile);
    mkFile "02.png" (pixels demoFile) ].

(** The [n]-th page receives the id [n]. *)
Definition countingIds (n : nat) : string * string :=
  (NilEmpty.string_of_uint (Nat.to_uint n), "blob:page"%string).

End LoaderSpec.

(* ================================================================== *)
(** * Facts about counted loops *)

Lemma forRangeFuel_bounds (step : Z) (fuel : nat) (x stop v : Z) :
  0 <= step -> In v (forRangeFuel fuel x stop step) -> x <= v < stop.
Proof.
  intros Hstep. revert x. induction fuel as [|fuel IH]; simpl; intros x Hin.
  - contradiction.
  - destruct (x <? stop) eqn:E; [|contradiction].
    apply Z.ltb_lt in E. destruct Hin as [Hin|Hin]; [lia|].
    apply IH in Hin. lia.
Qed.

(** The fuel of [forRange] never cuts a loop short: every value
    [x + k * step] below [stop] is visited. *)
Lemma forRangeFuel_complete (step : Z) (fuel : nat) (x stop : Z) (k : nat) :
  1 <= step -> stop - x <= Z.of_nat fuel ->
  x + Z.of_nat k * step < stop ->
  In (x + Z.of_nat k * step) (forRangeFuel fuel x stop step).
Proof.
  intros Hstep. revert fuel x. induction k as [|k IH]; intros fuel x Hfuel Hlt.
  - destruct fuel as [|fuel]; [simpl in *; lia|]. cbn [forRangeFuel].
    assert (E : (x <? stop) = true) by (apply Z.ltb_lt; lia).
    rewrite E. left. lia.
  - destruct fuel as [|fuel]; [simpl in Hfuel; nia|]. cbn [forRangeFuel].
    assert (E : (x <? stop) = true) by (apply Z.ltb_lt; nia).
    rewrite E. right.
    replace (x + Z.of_nat (S k) * step) with ((x + step) + Z.of_nat k * step) by lia.
    apply IH; lia.
Qed.

Lemma forRange_complete (start stop step : Z) (k : nat) :
  1 <= step -> start + Z.of_nat k * step < stop ->
  In (start + Z.of_nat k * step) (forRange start stop step).
Proof.
  intros Hstep Hlt. unfold forRange. apply forRangeFuel_complete; lia.
Qed.

Lemma forRange_bounds (start stop step v : Z) :
  0 <= step -> In v (forRange start stop step) -> start <= v < stop.
Proof. unfold forRange. apply forRangeFuel_bounds. Qed.

Lemma forRangeFuel_unit_length (fuel : nat) (x stop : Z) :
  fuel = Z.to_nat (stop - x) ->
  length (forRangeFuel fuel x stop 1) = fuel.
Proof.
  revert x. induction fuel as [|fuel IH]; simpl; intros x Hf; [reflexivity|].
  assert (E : (x <? stop) = true) by (apply Z.ltb_lt; lia).
  rewrite E. simpl. f_equal. apply IH. lia.
Qed.

Lemma forRange_unit_length (n : Z) :
  length (forRange 0 n 1) = Z.to_nat n.
Proof.
  unfold forRange. rewrite forRangeFuel_unit_length; f_equal; lia.
Qed.

Lemma forRange_unit_head (n : Z) :
  0 < n -> exists rest, forRange 0 n 1 = 0 :: rest.
Proof.
  intros Hn. unfold forRange.
  destruct (Z.to_nat (n - 0)) as [|fuel] eqn:E; [lia|].
  simpl. assert (E' : (0 <? n) = true) by (apply Z.ltb_lt; lia).
  rewrite E'. eauto.
Qed.

(** The number of iterations of a loop of stride 2. *)
Lemma forRangeFuel_stride2_length (fuel : nat) (x stop : Z) :
  stop - x <= Z.of_nat fuel ->
  Z.of_nat (length (forRangeFuel fuel x stop 2)) = Z.max 0 ((stop - x + 1) / 2).
Proof.
  revert x. induction fuel as [|fuel IH]; intros x Hf.
  - cbn [forRangeFuel length]. Z.div_mod_to_equations. lia.
  - cbn [forRangeFuel]. destruct (x <? stop) eqn:E.
    + apply Z.ltb_lt in E. cbn [length]. rewrite Nat2Z.inj_succ, IH by lia.
      Z.div_mod_to_equations. lia.
    + apply Z.ltb_ge in E. cbn [length]. Z.div_mod_to_equations. lia.
Qed.

(* ================================================================== *)
(** * Facts about the slicing engine *)

Module SlicerFacts.

Import JS Slicer.

(** ** Finite numbers *)

Lemma div_Fin (a b : Q) : ~ (b == 0)%Q -> div (Fin a) (Fin b) = Fin (a / b).
Proof.
  intros Hb. unfold div. destruct (Qeq_bool b 0) eqn:E; [|reflexivity].
  apply Qeq_bool_iff in E. contradiction.
Qed.

Lemma inject_Z_nonzero (n : Z) : n <> 0 -> ~ (inject_Z n == 0)%Q.
Proof.
  intros Hn H. apply Hn. unfold Qeq in H. simpl in H. lia.
Qed.

(** ** The extracted region *)

Lemma canvasRow_length (c : Canvas) (sw y : Z) :
  length (canvasRow c sw y) = Z.to_nat (4 * sw).
Proof.
  unfold canvasRow. destruct (_ && _).
  - rewrite length_firstn, length_app, repeat_length. lia.
  - apply repeat_length.
Qed.

Lemma flat_map_length_const {A B : Type} (f : A -> list B) (n : nat) (l : list A) :
  (forall x, length (f x) = n) ->
  length (flat_map f l) = (length l * n)%nat.
Proof.
  intros Hf. induction l as [|x l IH]; simpl; [reflexivity|].
  rewrite length_app, Hf, IH. reflexivity.
Qed.

Lemma flat_map_ext_on {A B : Type} (f g : A -> list B) (l : list A) :
  (forall x, In x l -> f x = g x) -> flat_map f l = flat_map g l.
Proof.
  induction l as [|x l IH]; simpl; intros H; [reflexivity|].
  rewrite (H x (or_introl eq_refl)), IH; [reflexivity|].
  intros z Hz. apply H. now right.
Qed.

Lemma getImageData_length (c : Canvas) (sy sw sh : Z) (data : list Z) :
  0 <= sw -> 0 <= sh ->
  getImageData c sy sw sh = Some data ->
  Z.of_nat (length data) = 4 * sw * sh.
Proof.
  intros Hw Hh. unfold getImageData.
  destruct (_ || _); [discriminate|]. intros H. inversion H; subst data.
  rewrite (flat_map_length_const _ (Z.to_nat (4 * sw))).
  - rewrite forRange_unit_length. nia.
  - intros r. apply canvasRow_length.
Qed.

Lemma getImageData_some (c : Canvas) (sy sw sh : Z) :
  0 < sw -> 0 < sh -> exists data, getImageData c sy sw sh = Some data.
Proof.
  intros Hw Hh. unfold getImageData.
  assert (E1 : (sw =? 0) = false) by (apply Z.eqb_neq; lia).
  assert (E2 : (sh =? 0) = false) by (apply Z.eqb_neq; lia).
  rewrite E1, E2. simpl. eauto.
Qed.

(** The region depends on the rows [sy .. sy + sh - 1] of the canvas
    and on nothing else. *)
Lemma getImageData_ext (c c' : Canvas) (sy sw sh : Z) :
  (forall y, sy <= y < sy + sh -> canvasRow c' sw y = canvasRow c sw y) ->
  getImageData c' sy sw sh = getImageData c sy sw sh.
Proof.
  intros Hrows. unfold getImageData. destruct (_ || _); [reflexivity|].
  f_equal. apply flat_map_ext_on. intros r Hr.
  apply (forRange_bounds 0 sh 1) in Hr; [|lia]. apply Hrows. lia.
Qed.

(** ** Every read of calculateRowEnergy stays inside the region *)

Lemma rd_exact (data : list Z) (i : Z) :
  0 <= i < Z.of_nat (length data) -> rd data i = Fin (byteAt data i).
Proof.
  intros Hi. unfold rd, byteAt, ofZ.
  assert (E : (i <? 0) = false) by (apply Z.ltb_ge; lia). rewrite E.
  destruct (nth_error data (Z.to_nat i)) as [b|] eqn:En.
  - now rewrite (nth_error_nth _ _ 0 En).
  - apply nth_error_None in En. lia.
Qed.

Lemma rowStep_exact (data : list Z) (rowOffset x : Z) (d b : Q) :
  0 <= rowOffset + x * 4 ->
  rowOffset + (x + STRIDE) * 4 + 2 < Z.of_nat (length data) ->
  rowStep data rowOffset (Fin d, Fin b) x
  = (Fin (d + strideDelta data rowOffset x),
     Fin (b + channelMean data rowOffset x)).
Proof.
  intros Hlo Hhi. unfold rowStep, strideDelta, channelMean.
  unfold STRIDE in *.
  rewrite !rd_exact by lia. reflexivity.
Qed.

Lemma rowSums_exact (data : list Z) (width y : Z) :
  0 <= width -> 0 <= y ->
  (y + 1) * width * 4 <= Z.of_nat (length data) ->
  rowSums data width y
  = (Fin (sumOver (strideDelta data (y * width * 4)) (sampledColumns width)),
     Fin (sumOver (channelMean data (y * width * 4)) (sampledColumns width))).
Proof.
  intros Hw Hy Hlen. unfold rowSums, sumOver, ofZ.
  assert (Hxs : forall x, In x (sampledColumns width) ->
                          0 <= x < width - STRIDE)
    by (intros x; apply forRange_bounds; unfold STRIDE; lia).
  revert Hxs. generalize (sampledColumns width).
  generalize (inject_Z 0) at 1 3. generalize (inject_Z 0).
  intros b d l. revert d b. induction l as [|x l IH]; intros d b Hxs.
  - reflexivity.
  - cbn [fold_left]. rewrite rowStep_exact.
    + apply IH. intros x' Hx'. apply Hxs. now right.
    + specialize (Hxs x (or_introl eq_refl)). nia.
    + specialize (Hxs x (or_introl eq_refl)). unfold STRIDE in *. nia.
Qed.

Lemma sampleCount_div (width : Z) : sampleCount width = (width + 1) / 2.
Proof.
  unfold sampleCount, ceil, Qceiling, Qfloor, STRIDE. simpl.
  rewrite !Z.mul_1_r. Z.div_mod_to_equations. lia.
Qed.

(** What [calculateRowEnergy] returns on a row that lies inside the
    region: the two sums over the sampled columns, each divided by
    [Math.ceil(width / STRIDE)]. *)
Lemma calculateRowEnergy_exact (data : list Z) (width y : Z) :
  0 < width -> 0 <= y ->
  (y + 1) * width * 4 <= Z.of_nat (length data) ->
  calculateRowEnergy data width y
  = {| energy :=
         Fin (sumOver (strideDelta data (y * width * 4)) (sampledColumns width)
              / inject_Z (sampleCount width));
       brightness :=
         Fin (sumOver (channelMean data (y * width * 4)) (sampledColumns width)
              / inject_Z (sampleCount width)) |}.
Proof.
  intros Hw Hy Hlen. unfold calculateRowEnergy.
  rewrite rowSums_exact by lia. unfold ofZ.
  assert (Hc : ~ (inject_Z (sampleCount width) == 0)%Q).
  { apply inject_Z_nonzero. rewrite sampleCount_div.
    Z.div_mod_to_equations. lia. }
  now rewrite !div_Fin by assumption.
Qed.

Lemma sampledColumns_length (width : Z) :
  1 <= width ->
  Z.of_nat (length (sampledColumns width)) = sampleCount width - 1.
Proof.
  intros Hw. unfold sampledColumns, forRange, STRIDE.
  rewrite forRangeFuel_stride2_length by lia.
  rewrite sampleCount_div. Z.div_mod_to_equations. lia.
Qed.

Lemma calculateRowEnergy_finite (data : list Z) (width y : Z) :
  0 < width -> 0 <= y ->
  (y + 1) * width * 4 <= Z.of_nat (length data) ->
  exists e b, calculateRowEnergy data width y
              = {| energy := Fin e; brightness := Fin b |}.
Proof.
  intros Hw Hy Hlen. rewrite calculateRowEnergy_exact by assumption. eauto.
Qed.

Lemma rowScore_finite (data : list Z) (width height y : Z) :
  0 < width -> 0 < height -> 0 <= y ->
  (y + 1) * width * 4 <= Z.of_nat (length data) ->
  exists q, rowScore data width height y = Fin q.
Proof.
  intros Hw Hh Hy Hlen. unfold rowScore.
  destruct (calculateRowEnergy_finite data width y) as (e & b & E); try lia.
  rewrite E. cbn [energy brightness]. unfold ofZ.
  assert (H2 : ~ (inject_Z 2 == 0)%Q) by (apply inject_Z_nonzero; lia).
  rewrite (div_Fin _ _ H2).
  assert (Hhalf : ~ (inject_Z height / inject_Z 2 == 0)%Q).
  { unfold Qeq, Qdiv, Qmult, Qinv. simpl. lia. }
  set (half := (inject_Z height / inject_Z 2)%Q) in *.
  destruct (gt (Fin b) (Fin (inject_Z 240)) || lt (Fin b) (Fin (inject_Z 20)));
    cbn [sub abs]; rewrite (div_Fin _ _ Hhalf); cbn [mul add]; eauto.
Qed.

(** ** The scan of a zone *)

Lemma scanStep_keeps (data : list Z) (width height : Z) (st : Z * Bound) (y : Z) :
  0 <= y < height ->
  (0 <= fst st < height /\ exists m, snd st = Below m) ->
  0 <= fst (scanStep data width height st y) < height /\
  exists m, snd (scanStep data width height st y) = Below m.
Proof.
  intros Hy Hst. unfold scanStep.
  destruct (rowScore data width height y) as [q|]; [|assumption].
  destruct (match snd st with Infinity => true | Below m => Qltb q m end);
    [|assumption].
  simpl. split; [assumption|eauto].
Qed.

Lemma scan_keeps (data : list Z) (width height : Z) (l : list Z) (st : Z * Bound) :
  (forall y, In y l -> 0 <= y < height) ->
  (0 <= fst st < height /\ exists m, snd st = Below m) ->
  0 <= fst (fold_left (scanStep data width height) l st) < height.
Proof.
  revert st. induction l as [|y l IH]; intros st Hl Hst; cbn [fold_left].
  - apply Hst.
  - apply IH.
    + intros z Hz. apply Hl. now right.
    + apply scanStep_keeps; [apply Hl; now left|assumption].
Qed.

Lemma scan_from_start (data : list Z) (width height : Z) :
  0 < height ->
  (exists q, rowScore data width height 0 = Fin q) ->
  0 <= fst (fold_left (scanStep data width height)
                      (forRange 0 height 1) (-1, Infinity)) < height.
Proof.
  intros Hh [q Hq].
  pose proof (forRange_bounds 0 height 1) as Hb.
  destruct (forRange_unit_head height Hh) as [rest E]. rewrite E in *.
  cbn [fold_left]. apply scan_keeps.
  - intros y Hy. apply Hb; [lia|now right].
  - unfold scanStep. rewrite Hq. simpl. split; [lia|eauto].
Qed.

Lemma findExactCutInZone_degenerate (ctx : Canvas) (width startY endY : Z) :
  startY >= endY -> findExactCutInZone ctx width startY endY = Some startY.
Proof.
  intros H. unfold findExactCutInZone.
  assert (E : (startY >=? endY) = true) by (apply Z.geb_le; lia).
  now rewrite E.
Qed.

Lemma findExactCutInZone_range (ctx : Canvas) (width startY endY : Z) :
  startY < endY -> 0 < width ->
  exists cut data,
    findExactCutInZone ctx width startY endY = Some cut /\
    startY <= cut < endY /\
    getImageData ctx startY width (endY - startY) = Some data /\
    (forall y, 0 <= y < endY - startY ->
       exists q, rowScore data width (endY - startY) y = Fin q).
Proof.
  intros Hlt Hw. unfold findExactCutInZone.
  assert (E : (startY >=? endY) = false).
  { destruct (startY >=? endY) eqn:E'; [|reflexivity].
    apply Z.geb_le in E'. lia. }
  rewrite E.
  destruct (getImageData_some ctx startY width (endY - startY)) as [data Hd];
    [lia|lia|].
  rewrite Hd.
  pose proof (getImageData_length _ _ _ _ _ (Z.lt_le_incl _ _ Hw)
                (ltac:(lia) : 0 <= endY - startY) Hd) as Hlen.
  assert (Hrows : forall y, 0 <= y < endY - startY ->
            exists q, rowScore data width (endY - startY) y = Fin q).
  { intros y Hy. apply rowScore_finite; try lia. nia. }
  pose proof (scan_from_start data width (endY - startY)
                (ltac:(lia) : 0 < endY - startY)
                (Hrows 0 ltac:(lia))) as Hbest.
  destruct (fold_left _ _ _) as [bestY minEnergy]. simpl in Hbest.
  exists (startY + bestY), data. repeat split; try assumption; lia.
Qed.

Lemma findExactCutInZone_ext (ctx ctx' : Canvas) (width startY endY : Z) :
  (forall y, startY <= y < endY -> canvasRow ctx' width y = canvasRow ctx width y) ->
  findExactCutInZone ctx' width startY endY
  = findExactCutInZone ctx width startY endY.
Proof.
  intros Hrows. unfold findExactCutInZone.
  destruct (startY >=? endY); [reflexivity|].
  rewrite (getImageData_ext ctx ctx'); [reflexivity|].
  intros y Hy. apply Hrows. lia.
Qed.

(** C5: [findExactCutInZone] on a degenerate zone returns [startY]; on
    a zone with [startY < endY] (of an image at least one pixel wide) it
    returns a row of [[startY, endY)], every array read it makes falls
    inside the extracted region (no score is [NaN]), and its result is
    the same on every canvas that has the same rows [startY .. endY - 1]:
    it reads no pixel outside the zone. *)
Theorem find_exact_cut_in_zone :
  forall (ctx : Canvas) (width startY endY : Z),
    (startY >= endY ->
     findExactCutInZone ctx width startY endY = Some startY) /\
    (startY < endY -> 0 < width ->
     exists cut data,
       findExactCutInZone ctx width startY endY = Some cut /\
       startY <= cut < endY /\
       getImageData ctx startY width (endY - startY) = Some data /\
       (forall y, 0 <= y < endY - startY ->
          exists q, rowScore data width (endY - startY) y = Fin q)) /\
    (forall ctx',
       (forall y, startY <= y < endY ->
          canvasRow ctx' width y = canvasRow ctx width y) ->
       findExactCutInZone ctx' width startY endY
       = findExactCutInZone ctx width startY endY).
Proof.
  intros ctx width startY endY. split; [|split].
  - apply findExactCutInZone_degenerate.
  - apply findExactCutInZone_range.
  - intros ctx'. apply findExactCutInZone_ext.
Qed.

(** ** The cut loop makes progress and stops *)

Lemma findExactCutInZone_total (ctx : Canvas) (width startY endY : Z) :
  0 < width -> exists cut, findExactCutInZone ctx width startY endY = Some cut.
Proof.
  intros Hw. destruct (Z_lt_ge_dec startY endY) as [Hlt|Hge].
  - destruct (findExactCutInZone_range ctx width startY endY Hlt Hw)
      as (cut & data & H & _). eauto.
  - rewrite findExactCutInZone_degenerate by assumption. eauto.
Qed.

(** The monotonicity guard: whatever the scan answered, the cut that is
    pushed lies strictly below the current position in the picture. *)
Lemma nextCut_progress (ctx : Canvas) (zones : list Zone) (currentY desiredCutY cut : Z) :
  nextCut ctx zones currentY desiredCutY = Some cut -> currentY < cut.
Proof.
  unfold nextCut, TARGET_CHUNK_HEIGHT.
  destruct (match zoneRows _ _ _ _ with Some _ => _ | None => _ end)
    as [c0|]; [|discriminate].
  destruct (if c0 =? -1 then _ else _) as [c1|]; [|discriminate].
  intros H. inversion H; subst cut; clear H.
  destruct (c1 <=? currentY) eqn:E; [lia|]. apply Z.leb_gt in E. lia.
Qed.

Lemma nextCut_total (ctx : Canvas) (zones : list Zone) (currentY desiredCutY : Z) :
  0 < cwidth ctx -> exists cut, nextCut ctx zones currentY desiredCutY = Some cut.
Proof.
  intros Hw. unfold nextCut.
  assert (H0 : exists c0,
             match zoneRows (cheight ctx) currentY desiredCutY zones with
             | Some (zStartPx, zEndPx) =>
                 findExactCutInZone ctx (cwidth ctx) zStartPx zEndPx
             | None => Some (-1)
             end = Some c0).
  { destruct (zoneRows _ _ _ _) as [[a b]|]; [|eauto].
    now apply findExactCutInZone_total. }
  destruct H0 as [c0 E0]. rewrite E0.
  destruct (c0 =? -1).
  - destruct (fallbackRows _ _ _) as [a b].
    destruct (findExactCutInZone_total ctx (cwidth ctx) a b Hw) as [c1 E1].
    rewrite E1. eauto.
  - eauto.
Qed.

Lemma sorted_snoc_inv (l : list Z) (c : Z) :
  StronglySorted Z.lt (l ++ [c]) -> Forall (fun x => x < c) l.
Proof.
  induction l as [|a l IH]; simpl; intros H; [constructor|].
  inversion H as [|? ? Hs Hall]; subst. constructor.
  - rewrite Forall_forall in Hall. apply Hall. apply in_or_app. right. now left.
  - now apply IH.
Qed.

Lemma sorted_snoc (l : list Z) (c : Z) :
  StronglySorted Z.lt l -> Forall (fun x => x < c) l ->
  StronglySorted Z.lt (l ++ [c]).
Proof.
  induction l as [|a l IH]; simpl; intros Hs Hall.
  - repeat constructor.
  - inversion Hs as [|? ? Hs' Ha]; subst.
    inversion Hall as [|? ? Hac Hall']; subst.
    constructor; [now apply IH|].
    apply Forall_app. split; [assumption|]. now repeat constructor.
Qed.

(** When the loop returns, the points it returns extend the points it
    started from, are strictly increasing, and end with a position less
    than one target height away from the bottom of the image. *)
Lemma cutLoop_done (ctx : Canvas) (zones : list Zone) (fuel : nat) :
  forall (pts : list Z) (cur : Z) (out : list Z),
    StronglySorted Z.lt (pts ++ [cur]) ->
    cutLoop fuel ctx zones (pts ++ [cur]) cur = Done out ->
    exists mid last,
      out = (pts ++ mid) ++ [last] /\
      StronglySorted Z.lt out /\
      cheight ctx <= last + TARGET_CHUNK_HEIGHT /\
      exists more, out = (pts ++ [cur]) ++ more.
Proof.
  induction fuel as [|fuel IH]; intros pts cur out Hs; cbn [cutLoop];
    [discriminate|].
  destruct (cur <? cheight ctx) eqn:E1.
  - destruct (cur + TARGET_CHUNK_HEIGHT >=? cheight ctx) eqn:E2.
    + intros H. inversion H; subst out. exists [], cur.
      rewrite app_nil_r. split; [reflexivity|]. split; [assumption|].
      split; [apply Z.geb_le in E2; lia|].
      exists []. now rewrite app_nil_r.
    + destruct (nextCut ctx zones cur (cur + TARGET_CHUNK_HEIGHT)) as [cut|] eqn:E3;
        [|discriminate].
      apply nextCut_progress in E3. intros H.
      destruct (IH (pts ++ [cur]) cut out)
        as (mid & last & Hout & Hso & Hl & more & Hmore); [|assumption|].
      * apply sorted_snoc; [assumption|].
        apply Forall_app. split.
        -- apply sorted_snoc_inv in Hs. revert Hs. apply Forall_impl. intros; lia.
        -- now repeat constructor.
      * exists ([cur] ++ mid), last.
        split; [rewrite Hout, <- !app_assoc; reflexivity|].
        split; [assumption|]. split; [assumption|].
        exists ([cut] ++ more). rewrite Hmore, <- !app_assoc. reflexivity.
  - intros H. inversion H; subst out. exists [], cur.
    rewrite app_nil_r. split; [reflexivity|]. split; [assumption|].
    split; [apply Z.ltb_ge in E1; unfold TARGET_CHUNK_HEIGHT; lia|].
    exists []. now rewrite app_nil_r.
Qed.

Lemma cutLoop_fuel (ctx : Canvas) (zones : list Zone) (fuel : nat) :
  forall (pts : list Z) (cur : Z),
    (Z.to_nat (cheight ctx - cur) < fuel)%nat ->
    cutLoop fuel ctx zones pts cur <> OutOfFuel.
Proof.
  induction fuel as [|fuel IH]; intros pts cur Hf; [lia|]. cbn [cutLoop].
  destruct (cur <? cheight ctx) eqn:E1; [|discriminate].
  apply Z.ltb_lt in E1.
  destruct (_ >=? _); [discriminate|].
  destruct (nextCut _ _ _ _) as [cut|] eqn:E3; [|discriminate].
  apply nextCut_progress in E3. apply IH. lia.
Qed.

Lemma cutLoop_total (ctx : Canvas) (zones : list Zone) (fuel : nat) :
  0 < cwidth ctx ->
  forall (pts : list Z) (cur : Z),
    (Z.to_nat (cheight ctx - cur) < fuel)%nat ->
    exists out, cutLoop fuel ctx zones pts cur = Done out.
Proof.
  intros Hw. induction fuel as [|fuel IH]; intros pts cur Hf; [lia|].
  cbn [cutLoop].
  destruct (cur <? cheight ctx) eqn:E1; [|eauto].
  apply Z.ltb_lt in E1.
  destruct (_ >=? _); [eauto|].
  destruct (nextCut_total ctx zones cur (cur + TARGET_CHUNK_HEIGHT) Hw)
    as [cut E3].
  rewrite E3. apply nextCut_progress in E3. apply IH. lia.
Qed.

(** C7: on an image taller than [1.2 * TARGET_CHUNK_HEIGHT] (and at
    least one pixel wide), with any hint list, the cut loop returns with
    the fuel the model gives it and with any larger fuel; every cut it
    pushes is strictly greater than the position before it, so the
    positions are strictly increasing, and it stops at a position less
    than one target height away from the image height. *)
Theorem cut_loop_terminates :
  forall (ctx : Canvas) (zones : list Zone) (fuel : nat),
    3000 < cheight ctx ->
    0 < cwidth ctx ->
    (loopFuel ctx <= fuel)%nat ->
    (forall cur cut,
        nextCut ctx zones cur (cur + TARGET_CHUNK_HEIGHT) = Some cut ->
        cur < cut) /\
    exists mid last,
      cutLoop fuel ctx zones [0] 0 = Done (mid ++ [last]) /\
      StronglySorted Z.lt (mid ++ [last]) /\
      cheight ctx <= last + TARGET_CHUNK_HEIGHT.
Proof.
  intros ctx zones fuel _ Hw Hfuel. split.
  - intros cur cut. apply nextCut_progress.
  - destruct (cutLoop_total ctx zones fuel Hw [0] 0) as [out Hout].
    { unfold loopFuel in Hfuel. lia. }
    destruct (cutLoop_done ctx zones fuel [] 0 out) as (mid & last & E & Hs & Hl & _).
    + repeat constructor.
    + exact Hout.
    + exists mid, last. simpl in E. rewrite <- E. auto.
Qed.

(** The fuel is never what stops the loop, whatever the canvas. *)
Lemma cutLoop_never_out_of_fuel (ctx : Canvas) (zones : list Zone) (fuel : nat) :
  (loopFuel ctx <= fuel)%nat ->
  cutLoop fuel ctx zones [0] 0 <> OutOfFuel.
Proof.
  intros Hfuel. apply cutLoop_fuel. unfold loopFuel in Hfuel. lia.
Qed.

(** ** The chunk loop copies rows *)

Lemma canvasRow_inside (c : Canvas) (y : Z) :
  canvas_wf c -> 0 <= y < cheight c ->
  canvasRow c (cwidth c) y = nth (Z.to_nat y) (bitmap c) [].
Proof.
  intros (Hw & Hh & Hlen & Hrows) Hy. unfold canvasRow.
  assert (E : (0 <=? y) && (y <? cheight c) = true).
  { apply andb_true_iff. split; [apply Z.leb_le|apply Z.ltb_lt]; lia. }
  rewrite E.
  assert (Hrow : length (nth (Z.to_nat y) (bitmap c) []) = Z.to_nat (4 * cwidth c)).
  { rewrite Forall_forall in Hrows. apply Hrows. apply nth_In. lia. }
  rewrite firstn_app, <- Hrow, firstn_all, Nat.sub_diag. simpl.
  apply app_nil_r.
Qed.

Lemma skipn_cons_nth {A : Type} (d : A) (l : list A) (k : nat) :
  (k < length l)%nat -> skipn k l = nth k l d :: skipn (S k) l.
Proof.
  revert k. induction l as [|a l IH]; intros k Hk; [simpl in Hk; lia|].
  destruct k as [|k]; [reflexivity|].
  simpl in Hk. cbn [skipn nth]. apply IH. lia.
Qed.

Lemma rows_of_range {A : Type} (d : A) (l : list A) (y1 stop : Z) (fuel : nat) :
  forall x,
    0 <= y1 -> 0 <= x ->
    fuel = Z.to_nat (stop - x) ->
    y1 + stop <= Z.of_nat (length l) ->
    map (fun r => nth (Z.to_nat (y1 + r)) l d) (forRangeFuel fuel x stop 1)
    = firstn fuel (skipn (Z.to_nat (y1 + x)) l).
Proof.
  induction fuel as [|fuel IH]; intros x Hy Hx Hf Hlen; [reflexivity|].
  cbn [forRangeFuel].
  assert (E : (x <? stop) = true) by (apply Z.ltb_lt; lia). rewrite E.
  cbn [map]. rewrite (skipn_cons_nth d) by lia. cbn [firstn]. f_equal.
  rewrite IH by lia. f_equal. f_equal. lia.
Qed.

Lemma drawChunk_rows (c : Canvas) (y1 h : Z) :
  canvas_wf c -> 0 <= y1 -> 0 <= h -> y1 + h <= cheight c ->
  bitmap (drawChunk c y1 h)
  = firstn (Z.to_nat h) (skipn (Z.to_nat y1) (bitmap c)).
Proof.
  intros Hwf Hy Hh Hlen. unfold drawChunk. cbn [bitmap].
  rewrite (map_ext_in _ (fun r => nth (Z.to_nat (y1 + r)) (bitmap c) [])).
  - unfold forRange. rewrite (rows_of_range [] (bitmap c) y1 h); try lia.
    + f_equal; [lia|]. f_equal. lia.
    + destruct Hwf as (_ & _ & Hl & _). lia.
  - intros r Hr. apply (forRange_bounds 0 h 1) in Hr; [|lia].
    apply canvasRow_inside; [assumption|lia].
Qed.

Lemma firstn_plus {A : Type} (a b : nat) (l : list A) :
  firstn (a + b) l = firstn a l ++ firstn b (skipn a l).
Proof.
  revert l. induction a as [|a IH]; intros l; [reflexivity|].
  destruct l as [|x l]; [now rewrite !firstn_nil|].
  simpl. now rewrite IH.
Qed.

Lemma chunkLoop_step (c : Canvas) (file : File) (i y1 y2 : Z) (rest : list Z) :
  chunkLoop c file i (y1 :: y2 :: rest)
  = if y2 - y1 <? 100 then chunkLoop c file (i + 1) (y2 :: rest)
    else {| fname := partName (fname file) (i + 1);
            pixels := drawChunk c y1 (y2 - y1) |}
         :: chunkLoop c file (i + 1) (y2 :: rest).
Proof. reflexivity. Qed.

Lemma gapsAtLeast_last (m y1 : Z) (rest : list Z) :
  0 <= m -> gapsAtLeast m (y1 :: rest) -> y1 <= lastPoint (y1 :: rest).
Proof.
  intros Hm. revert y1. induction rest as [|y2 rest IH]; intros y1 Hg.
  - unfold lastPoint. simpl. lia.
  - destruct Hg as [Hgap Hg]. specialize (IH y2 Hg).
    unfold lastPoint in *. cbn [last] in *. lia.
Qed.

(** With no gap under 100 rows, the chunks stacked in order are the rows
    of the canvas from the first cut to the last. *)
Lemma chunkLoop_stack (c : Canvas) (file : File) :
  canvas_wf c ->
  forall (points : list Z) (i y1 : Z) (rest : list Z),
    points = y1 :: rest ->
    0 <= y1 ->
    gapsAtLeast 100 points ->
    lastPoint points <= cheight c ->
    stack (chunkLoop c file i points)
    = firstn (Z.to_nat (lastPoint points - y1)) (skipn (Z.to_nat y1) (bitmap c)).
Proof.
  intros Hwf points. induction points as [|y0 points IH];
    intros i y1 rest Hp Hy Hg Hl; [discriminate|].
  inversion Hp; subst y0 points; clear Hp.
  destruct rest as [|y2 rest].
  - unfold lastPoint. simpl. now rewrite Z.sub_diag.
  - destruct Hg as [Hgap Hg].
    pose proof (gapsAtLeast_last 100 y2 rest ltac:(lia) Hg) as Hlast.
    assert (Hl2 : lastPoint (y2 :: rest) <= cheight c) by exact Hl.
    rewrite chunkLoop_step.
    assert (E : (y2 - y1 <? 100) = false) by (apply Z.ltb_ge; lia).
    rewrite E. unfold stack in *. cbn [flat_map pixels].
    rewrite (IH (i + 1) y2 rest eq_refl) by (assumption || lia).
    rewrite drawChunk_rows by (assumption || lia).
    change (lastPoint (y1 :: y2 :: rest)) with (lastPoint (y2 :: rest)).
    replace (Z.to_nat (lastPoint (y2 :: rest) - y1))
      with (Z.to_nat (y2 - y1) + Z.to_nat (lastPoint (y2 :: rest) - y2))%nat
      by lia.
    rewrite firstn_plus, skipn_skipn. do 3 f_equal. lia.
Qed.

Lemma keptRows_step (rows : list (list Z)) (y1 y2 : Z) (rest : list Z) :
  keptRows rows (y1 :: y2 :: rest)
  = (if y2 - y1 <? 100 then []
     else firstn (Z.to_nat (y2 - y1)) (skipn (Z.to_nat y1) rows))
    ++ keptRows rows (y2 :: rest).
Proof. reflexivity. Qed.

(** Whatever the gaps, the chunks stacked in order are the rows of the
    intervals at least 100 rows high. *)
Lemma chunkLoop_keptRows (c : Canvas) (file : File) :
  canvas_wf c ->
  forall (points : list Z) (i y1 : Z) (rest : list Z),
    points = y1 :: rest ->
    0 <= y1 ->
    gapsAtLeast 0 points ->
    lastPoint points <= cheight c ->
    stack (chunkLoop c file i points) = keptRows (bitmap c) points.
Proof.
  intros Hwf points. induction points as [|y0 points IH];
    intros i y1 rest Hp Hy Hg Hl; [discriminate|].
  inversion Hp; subst y0 points; clear Hp.
  destruct rest as [|y2 rest]; [reflexivity|].
  destruct Hg as [Hgap Hg].
  pose proof (gapsAtLeast_last 0 y2 rest ltac:(lia) Hg) as Hlast.
  assert (Hl2 : lastPoint (y2 :: rest) <= cheight c) by exact Hl.
  rewrite chunkLoop_step, keptRows_step.
  rewrite <- (IH (i + 1) y2 rest eq_refl) by (assumption || lia).
  destruct (y2 - y1 <? 100); [reflexivity|].
  unfold stack. cbn [flat_map pixels].
  now rewrite drawChunk_rows by (assumption || lia).
Qed.

(** A short interval splits the loop in two: the chunks of the points
    up to it, then the chunks of the points after it. *)
Lemma chunkLoop_short_gap (c : Canvas) (file : File) (tl : list Z) :
  forall (i x y2 : Z) (after : list Z),
    y2 - lastPoint (x :: tl) < 100 ->
    chunkLoop c file i ((x :: tl) ++ y2 :: after)
    = chunkLoop c file i (x :: tl)
      ++ chunkLoop c file (i + Z.of_nat (length (x :: tl))) (y2 :: after).
Proof.
  induction tl as [|z tl IH]; intros i x y2 after Hshort.
  - unfold lastPoint in Hshort. cbn [last] in Hshort.
    cbn [app length]. rewrite chunkLoop_step.
    assert (E : (y2 - x <? 100) = true) by (apply Z.ltb_lt; lia).
    rewrite E. reflexivity.
  - change (lastPoint (x :: z :: tl)) with (lastPoint (z :: tl)) in Hshort.
    change ((x :: z :: tl) ++ y2 :: after)
      with (x :: z :: (tl ++ y2 :: after)).
    rewrite (chunkLoop_step c file i x z (tl ++ y2 :: after)).
    rewrite (chunkLoop_step c file i x z tl).
    change (z :: tl ++ y2 :: after) with ((z :: tl) ++ y2 :: after).
    rewrite (IH (i + 1) z y2 after Hshort).
    replace (i + 1 + Z.of_nat (length (z :: tl)))
      with (i + Z.of_nat (length (x :: z :: tl))) by (cbn [length]; lia).
    destruct (z - x <? 100); reflexivity.
Qed.

Lemma stack_app (a b : list File) : stack (a ++ b) = stack a ++ stack b.
Proof. unfold stack. apply flat_map_app. Qed.

(** C8 as the code has it.  When the cut list runs from 0 to the image
    height and no two consecutive cuts are less than 100 rows apart, the
    chunks stacked in order are exactly the rows of the source picture.
    An interval shorter than 100 rows is skipped: for every cut list
    from 0 that stays within the image, the chunks stacked in order are
    the rows of the intervals at least 100 rows high and no others; in
    particular, when one interval [y1 .. y2 - 1] is shorter than 100
    rows, the chunks stacked in order are the rows above [y1] followed
    by the rows from [y2] on. *)
Theorem chunks_restack_to_source :
  forall (file : File) (rest : list Z),
    canvas_wf (pixels file) ->
    (gapsAtLeast 100 (0 :: rest) ->
     lastPoint (0 :: rest) = cheight (pixels file) ->
     stack (chunkLoop (pixels file) file 0 (0 :: rest)) = bitmap (pixels file)) /\
    (gapsAtLeast 0 (0 :: rest) ->
     lastPoint (0 :: rest) <= cheight (pixels file) ->
     stack (chunkLoop (pixels file) file 0 (0 :: rest))
     = keptRows (bitmap (pixels file)) (0 :: rest)) /\
    (forall (y2 : Z) (after : list Z),
        gapsAtLeast 100 (0 :: rest) ->
        lastPoint (0 :: rest) <= y2 < lastPoint (0 :: rest) + 100 ->
        gapsAtLeast 100 (y2 :: after) ->
        lastPoint (y2 :: after) = cheight (pixels file) ->
        stack (chunkLoop (pixels file) file 0 ((0 :: rest) ++ y2 :: after))
        = firstn (Z.to_nat (lastPoint (0 :: rest))) (bitmap (pixels file))
          ++ skipn (Z.to_nat y2) (bitmap (pixels file))).
Proof.
  intros file rest Hwf. split; [|split].
  - intros Hg Hl.
    rewrite (chunkLoop_stack (pixels file) file Hwf (0 :: rest) 0 0 rest);
      try reflexivity; try assumption; try lia.
    rewrite Hl, Z.sub_0_r. simpl skipn.
    destruct Hwf as (_ & _ & Hlen & _). rewrite <- Hlen. apply firstn_all.
  - intros Hg Hl.
    apply (chunkLoop_keptRows (pixels file) file Hwf (0 :: rest) 0 0 rest);
      try reflexivity; try assumption; lia.
  - intros y2 after Hg Hshort Hg2 Hl.
    pose proof (gapsAtLeast_last 100 0 rest ltac:(lia) Hg) as H0.
    pose proof (gapsAtLeast_last 100 y2 after ltac:(lia) Hg2) as H2.
    rewrite chunkLoop_short_gap by lia. rewrite stack_app.
    rewrite (chunkLoop_stack (pixels file) file Hwf (0 :: rest) 0 0 rest);
      try reflexivity; try assumption; try lia.
    rewrite (chunkLoop_stack (pixels file) file Hwf (y2 :: after) _ y2 after);
      try reflexivity; try assumption; try lia.
    rewrite Z.sub_0_r. simpl skipn at 1. f_equal.
    apply firstn_all2. rewrite length_skipn.
    destruct Hwf as (_ & _ & Hlen & _). rewrite Hlen. lia.
Qed.

(** ** The finalized cut list *)

Lemma setAdd_In (acc : list Z) (x z : Z) :
  In z (setAdd acc x) <-> In z acc \/ z = x.
Proof.
  unfold setAdd. destruct (existsb (Z.eqb x) acc) eqn:E.
  - apply existsb_exists in E. destruct E as [y [Hy Hxy]].
    apply Z.eqb_eq in Hxy. subst y. split; [tauto|].
    intros [H|H]; [assumption|now subst z].
  - rewrite in_app_iff. simpl. intuition.
Qed.

Lemma setAdd_NoDup (acc : list Z) (x : Z) : NoDup acc -> NoDup (setAdd acc x).
Proof.
  intros Hnd. unfold setAdd. destruct (existsb (Z.eqb x) acc) eqn:E; [assumption|].
  apply NoDup_app; [assumption|repeat constructor; simpl; tauto|].
  intros a Ha [Hx|[]]. subst a.
  assert (Ht : existsb (Z.eqb x) acc = true)
    by (apply existsb_exists; exists x; split; [assumption|apply Z.eqb_refl]).
  congruence.
Qed.

Lemma dedupe_spec (l : list Z) :
  NoDup (dedupe l) /\ forall z, In z (dedupe l) <-> In z l.
Proof.
  unfold dedupe.
  assert (H : forall acc, NoDup acc ->
            NoDup (fold_left setAdd l acc) /\
            forall z, In z (fold_left setAdd l acc) <-> In z acc \/ In z l).
  { induction l as [|x l IH]; intros acc Hnd; simpl.
    - split; [assumption|]. intros z. tauto.
    - destruct (IH (setAdd acc x) (setAdd_NoDup acc x Hnd)) as [H1 H2].
      split; [assumption|]. intros z. rewrite H2, setAdd_In.
      split; intros; intuition. }
  destruct (H [] (NoDup_nil Z)) as [H1 H2]. split; [assumption|].
  intros z. rewrite H2. simpl. tauto.
Qed.

Lemma insertAsc_In (x : Z) (l : list Z) (z : Z) :
  In z (insertAsc x l) <-> z = x \/ In z l.
Proof.
  induction l as [|y l IH]; simpl.
  - intuition.
  - destruct (x <=? y); simpl; [intuition|]. rewrite IH. intuition.
Qed.

Lemma insertAsc_sorted (x : Z) (l : list Z) :
  StronglySorted Z.lt l -> ~ In x l -> StronglySorted Z.lt (insertAsc x l).
Proof.
  induction l as [|y l IH]; simpl; intros Hs Hx.
  - repeat constructor.
  - apply StronglySorted_inv in Hs. destruct Hs as [Hs Hy].
    destruct (x <=? y) eqn:E.
    + apply Z.leb_le in E.
      assert (Hxy : x < y) by (assert (y <> x) by tauto; lia).
      constructor; [now constructor|].
      constructor; [assumption|].
      revert Hy. apply Forall_impl. intros; lia.
    + apply Z.leb_gt in E. constructor; [apply IH; tauto|].
      apply Forall_forall. intros z Hz. apply insertAsc_In in Hz.
      destruct Hz as [Hz|Hz]; [lia|].
      rewrite Forall_forall in Hy. now apply Hy.
Qed.

Lemma sortAsc_spec (l : list Z) :
  NoDup l ->
  StronglySorted Z.lt (sortAsc l) /\ forall z, In z (sortAsc l) <-> In z l.
Proof.
  induction l as [|x l IH]; simpl; intros Hnd.
  - split; [constructor|tauto].
  - inversion Hnd as [|? ? Hx Hnd']; subst.
    destruct (IH Hnd') as [Hs Hin]. split.
    + apply insertAsc_sorted; [assumption|]. now rewrite Hin.
    + intros z. rewrite insertAsc_In, Hin. intuition.
Qed.

Lemma sorted_last (l : list Z) (m : Z) :
  StronglySorted Z.lt l -> In m l -> (forall z, In z l -> z <= m) ->
  lastPoint l = m.
Proof.
  unfold lastPoint. induction l as [|a l IH]; intros Hs Hm Hmax; [contradiction|].
  apply StronglySorted_inv in Hs. destruct Hs as [Hs Ha].
  destruct l as [|b l]; [simpl in *; intuition|].
  change (last (a :: b :: l) 0) with (last (b :: l) 0). apply IH.
  - assumption.
  - destruct Hm as [Hm|Hm]; [|assumption]. subst m.
    rewrite Forall_forall in Ha.
    assert (a < b) by (apply Ha; now left).
    assert (b <= a) by (apply Hmax; right; now left). lia.
  - intros z Hz. apply Hmax. now right.
Qed.

Lemma sorted_first (a : Z) (l : list Z) (m : Z) :
  StronglySorted Z.lt (a :: l) -> In m (a :: l) ->
  (forall z, In z (a :: l) -> m <= z) -> a = m.
Proof.
  intros Hs Hm Hmin. apply StronglySorted_inv in Hs. destruct Hs as [_ Ha].
  destruct Hm as [Hm|Hm]; [assumption|].
  rewrite Forall_forall in Ha. specialize (Ha m Hm).
  assert (m <= a) by (apply Hmin; now left). lia.
Qed.

(** The finalized list holds the cuts of the loop and the image height,
    each once, in strictly increasing order. *)
Lemma uniquePoints_spec (ctx : Canvas) (zones : list Zone) (points : list Z) :
  uniquePoints ctx zones = Done points ->
  exists cuts,
    cutLoop (loopFuel ctx) ctx zones [0] 0 = Done cuts /\
    StronglySorted Z.lt points /\
    forall z, In z points <-> In z cuts \/ z = cheight ctx.
Proof.
  unfold uniquePoints.
  destruct (cutLoop _ _ _ _ _) as [cuts| |]; try discriminate.
  intros H. inversion H; subst points; clear H. exists cuts.
  destruct (dedupe_spec (cuts ++ [cheight ctx])) as [Hnd Hin].
  destruct (sortAsc_spec _ Hnd) as [Hs Hin'].
  split; [reflexivity|]. split; [assumption|].
  intros z. rewrite Hin', Hin, in_app_iff. simpl. intuition.
Qed.

(** Whatever the hints, the finalized cut list is strictly increasing
    and begins at 0. *)
Lemma cut_list_increasing_from_zero (ctx : Canvas) (zones : list Zone) (points : list Z) :
  0 <= cheight ctx ->
  uniquePoints ctx zones = Done points ->
  StronglySorted Z.lt points /\ exists rest, points = 0 :: rest.
Proof.
  intros Hh Hu. destruct (uniquePoints_spec _ _ _ Hu) as (cuts & Hc & Hs & Hin).
  split; [assumption|].
  destruct (cutLoop_done ctx zones (loopFuel ctx) [] 0 cuts)
    as (_ & _ & _ & Hsc & _ & more & E);
    [repeat constructor|exact Hc|].
  simpl in E.
  assert (H0 : In 0 cuts) by (rewrite E; simpl; now left).
  assert (Hpos : forall z, In z cuts -> 0 <= z).
  { intros z Hz. rewrite E in Hz, Hsc. simpl in Hz, Hsc.
    apply StronglySorted_inv in Hsc. destruct Hsc as [_ Hall].
    destruct Hz as [Hz|Hz]; [lia|].
    rewrite Forall_forall in Hall. specialize (Hall z Hz). lia. }
  destruct points as [|a rest].
  - exfalso. apply (Hin 0). now left.
  - exists rest. f_equal. apply sorted_first with rest; [assumption| |].
    + apply Hin. now left.
    + intros z Hz. apply Hin in Hz. destruct Hz as [Hz|Hz]; [now apply Hpos|lia].
Qed.

(** ** Hints inside [0, 1] *)

Lemma closerZone_choice (h d : Z) (prev curr : Zone) :
  closerZone h d prev curr = prev \/ closerZone h d prev curr = curr.
Proof. unfold closerZone. destruct (Qltb _ _); tauto. Qed.

Lemma closerZone_In (h d : Z) (rest : list Zone) (z0 : Zone) :
  In (fold_left (closerZone h d) rest z0) (z0 :: rest).
Proof.
  revert z0. induction rest as [|z rest IH]; intros z0; cbn [fold_left].
  - now left.
  - destruct (IH (closerZone h d z0 z)) as [E|Hin].
    + rewrite <- E. destruct (closerZone_choice h d z0 z) as [E'|E'];
        rewrite E'; simpl; tauto.
    + right. now right.
Qed.

Lemma floor_fraction (f : Q) (h : Z) :
  (0 <= f)%Q -> (f <= 1)%Q -> 0 <= h -> 0 <= floor (f * inject_Z h) <= h.
Proof.
  intros H0 H1 Hh. unfold floor.
  assert (Hq : (0 <= inject_Z h)%Q).
  { change (inject_Z 0 <= inject_Z h)%Q. now rewrite <- Zle_Qle. }
  split.
  - rewrite <- (Qfloor_Z 0). apply Qfloor_resp_le.
    now apply Qmult_le_0_compat.
  - rewrite <- (Qfloor_Z h) at 2. apply Qfloor_resp_le.
    rewrite <- (Qmult_1_l (inject_Z h)) at 2.
    now apply Qmult_le_compat_r.
Qed.

(** With fractions in [0, 1] the rows handed to the scan lie within the
    image. *)
Lemma zoneRows_in_range (h cur des : Z) (zones : list Zone) (a b : Z) :
  Forall zoneInRange zones -> 0 <= h ->
  zoneRows h cur des zones = Some (a, b) ->
  0 <= a <= h /\ 0 <= b <= h.
Proof.
  intros Hz Hh. unfold zoneRows.
  destruct (validZones h cur zones) as [|z0 rest] eqn:E; [discriminate|].
  pose proof (closerZone_In h des rest z0) as Hin.
  set (best := fold_left (closerZone h des) rest z0) in *.
  destruct (Qltb _ _); [|discriminate].
  intros H. inversion H; subst a b; clear H.
  assert (Hbest : zoneInRange best).
  { rewrite Forall_forall in Hz. apply Hz.
    rewrite <- E in Hin. unfold validZones in Hin.
    now apply filter_In in Hin. }
  destruct Hbest as [[? ?] [? ?]]. split; now apply floor_fraction.
Qed.

Lemma findExactCutInZone_result (ctx : Canvas) (width a b c : Z) :
  0 < width -> findExactCutInZone ctx width a b = Some c ->
  (b <= a /\ c = a) \/ a <= c < b.
Proof.
  intros Hw H. destruct (Z_lt_ge_dec a b) as [Hlt|Hge].
  - destruct (findExactCutInZone_range ctx width a b Hlt Hw)
      as (cut & data & E & Hr & _).
    right. congruence.
  - rewrite findExactCutInZone_degenerate in H by assumption.
    left. split; [lia|congruence].
Qed.

Lemma nextCut_within_image (ctx : Canvas) (zones : list Zone) (cur cut : Z) :
  Forall zoneInRange zones -> 0 < cwidth ctx -> 0 <= cheight ctx ->
  cur + TARGET_CHUNK_HEIGHT < cheight ctx ->
  nextCut ctx zones cur (cur + TARGET_CHUNK_HEIGHT) = Some cut ->
  cut <= cheight ctx.
Proof.
  intros Hz Hw Hh Hdes. unfold nextCut, TARGET_CHUNK_HEIGHT in *.
  assert (H0 : forall c0,
             match zoneRows (cheight ctx) cur (cur + 2500) zones with
             | Some (zStartPx, zEndPx) =>
                 findExactCutInZone ctx (cwidth ctx) zStartPx zEndPx
             | None => Some (-1)
             end = Some c0 -> c0 <= cheight ctx).
  { intros c0. destruct (zoneRows _ _ _ _) as [[a b]|] eqn:E.
    - apply (zoneRows_in_range _ _ _ _ _ _ Hz Hh) in E.
      intros H. apply findExactCutInZone_result in H; [lia|assumption].
    - intros H. inversion H. lia. }
  destruct (match zoneRows _ _ _ _ with Some _ => _ | None => _ end)
    as [c0|]; [|discriminate].
  specialize (H0 c0 eq_refl).
  destruct (c0 =? -1).
  - unfold fallbackRows.
    destruct (findExactCutInZone _ _ _ _) as [c1|] eqn:E1; [|discriminate].
    apply findExactCutInZone_result in E1; [|assumption].
    intros H. inversion H; subst cut; clear H.
    destruct (c1 <=? cur); lia.
  - intros H. inversion H; subst cut; clear H.
    destruct (c0 <=? cur); lia.
Qed.

Lemma cutLoop_within_image (ctx : Canvas) (zones : list Zone) (fuel : nat) :
  Forall zoneInRange zones -> 0 < cwidth ctx -> 0 <= cheight ctx ->
  forall (pts : list Z) (cur : Z) (out : list Z),
    Forall (fun z => z <= cheight ctx) pts ->
    cutLoop fuel ctx zones pts cur = Done out ->
    Forall (fun z => z <= cheight ctx) out.
Proof.
  intros Hz Hw Hh. induction fuel as [|fuel IH]; intros pts cur out Hp;
    cbn [cutLoop]; [discriminate|].
  destruct (cur <? cheight ctx); [|intros H; now inversion H; subst].
  destruct (_ >=? _) eqn:E2; [intros H; now inversion H; subst|].
  destruct (nextCut _ _ _ _) as [cut|] eqn:E3; [|discriminate].
  apply IH. apply Forall_app. split; [assumption|].
  constructor; [|constructor].
  apply (nextCut_within_image ctx zones cur cut); try assumption.
  destruct (cur + TARGET_CHUNK_HEIGHT >=? cheight ctx) eqn:E; [discriminate|].
  rewrite Z.geb_leb in E. apply Z.leb_gt in E. lia.
Qed.

(** With every hint inside [0, 1], on an image at least one pixel wide,
    the finalized cut list is strictly increasing, begins at 0 and ends
    at the image height. *)
Lemma cut_list_with_hints_in_range (ctx : Canvas) (zones : list Zone) :
  Forall zoneInRange zones -> 0 < cwidth ctx -> 0 <= cheight ctx ->
  exists rest,
    uniquePoints ctx zones = Done (0 :: rest) /\
    StronglySorted Z.lt (0 :: rest) /\
    lastPoint (0 :: rest) = cheight ctx.
Proof.
  intros Hz Hw Hh.
  destruct (cutLoop_total ctx zones (loopFuel ctx) Hw [0] 0) as [cuts Hc];
    [unfold loopFuel; lia|].
  assert (Hu : exists points, uniquePoints ctx zones = Done points)
    by (unfold uniquePoints; rewrite Hc; eauto).
  destruct Hu as [points Hu].
  destruct (cut_list_increasing_from_zero ctx zones points Hh Hu) as [Hs [rest E]].
  subst points. exists rest. split; [assumption|]. split; [assumption|].
  destruct (uniquePoints_spec _ _ _ Hu) as (cuts' & Hc' & _ & Hin).
  rewrite Hc in Hc'. inversion Hc'; subst cuts'; clear Hc'.
  apply sorted_last; [assumption| |].
  - apply Hin. now right.
  - intros z Hzin. apply Hin in Hzin. destruct Hzin as [Hzin|Hzin]; [|lia].
    pose proof (cutLoop_within_image ctx zones (loopFuel ctx) Hz Hw Hh
                  [0] 0 cuts ltac:(repeat constructor; lia) Hc) as Hall.
    rewrite Forall_forall in Hall. now apply Hall.
Qed.

(** ** The engine on sample inputs *)

Lemma plainStrip_wf (w h v : Z) : 0 <= w -> 0 <= h -> canvas_wf (plainStrip w h v).
Proof.
  intros Hw Hh. unfold canvas_wf, plainStrip. cbn [cwidth cheight bitmap].
  repeat split; try assumption.
  - apply repeat_length.
  - apply Forall_forall. intros row Hrow. apply repeat_spec in Hrow. subst row.
    rewrite (length_concat), map_repeat. cbn [length].
    replace (Z.to_nat (4 * w)) with (4 * Z.to_nat w)%nat by lia.
    generalize (Z.to_nat w). intros n. induction n as [|n IH]; simpl in *; lia.
Qed.

(** C9 on the code: on every row inside the region both sums run over
    the sampled columns [x = 0, 2, 4, ... < width - 2] and both are
    divided by [Math.ceil(width / STRIDE)], which is one more than the
    number of sampled columns.  On a row of four white pixels the loop
    samples one pixel, of channel mean 255, and [calculateRowEnergy]
    answers a brightness of 255/2. *)
Theorem row_average_divisor_is_one_too_many :
  (forall data width y,
     0 < width -> 0 <= y ->
     (y + 1) * width * 4 <= Z.of_nat (length data) ->
     calculateRowEnergy data width y
     = {| energy :=
            Fin (sumOver (strideDelta data (y * width * 4)) (sampledColumns width)
                 / inject_Z (sampleCount width));
          brightness :=
            Fin (sumOver (channelMean data (y * width * 4)) (sampledColumns width)
                 / inject_Z (sampleCount width)) |} /\
     Z.of_nat (length (sampledColumns width)) = sampleCount width - 1) /\
  sampledColumns 4 = [0] /\
  calculateRowEnergy whiteRow4 4 0
  = {| energy := Fin (0 # 2); brightness := Fin (765 # 6) |} /\
  averageOverSamples whiteRow4 4 0
  = {| energy := Fin (0 # 1); brightness := Fin (765 # 3) |} /\
  (765 # 6 == 255 # 2)%Q /\ (765 # 3 == 255 # 1)%Q.
Proof.
  split; [|split; [reflexivity|split; [reflexivity|split; [reflexivity|split; reflexivity]]]].
  intros data width y Hw Hy Hlen. split.
  - now apply calculateRowEnergy_exact.
  - apply sampledColumns_length. lia.
Qed.

Lemma row_average_divisor_is_one_too_many_witness :
  0 < 4 /\ 0 <= 0 /\
  (0 + 1) * 4 * 4 <= Z.of_nat (length whiteRow4) /\
  Z.of_nat (length (sampledColumns 4)) = sampleCount 4 - 1.
Proof.
  assert (H1 : 0 < 4) by lia.
  assert (H2 : 0 <= 0) by lia.
  assert (H3 : (0 + 1) * 4 * 4 <= Z.of_nat (length whiteRow4)) by (simpl; lia).
  split; [exact H1|]. split; [exact H2|]. split; [exact H3|].
  exact (proj2 (proj1 row_average_divisor_is_one_too_many whiteRow4 4 0 H1 H2 H3)).
Defined.

(** C4 on the code: with the hint [{start_percent: 1.5, end_percent:
    0.5}] on any image 4000 rows high, the finalized cut list is
    [0, 4000, 6000]: it does not end at the image height. *)
Theorem cut_list_can_end_below_the_image :
  forall ctx : Canvas,
    cheight ctx = 4000 ->
    uniquePoints ctx [invertedZone] = Done [0; 4000; 6000].
Proof.
  intros [w h bm] H. simpl in H. subst h. vm_compute. reflexivity.
Qed.

Lemma cut_list_can_end_below_the_image_witness :
  cheight (plainStrip 800 4000 255) = 4000 /\
  uniquePoints (plainStrip 800 4000 255) [invertedZone] = Done [0; 4000; 6000].
Proof.
  split; [reflexivity|].
  apply (cut_list_can_end_below_the_image (plainStrip 800 4000 255)).
  reflexivity.
Defined.

(** C6 on the code: the rows of the chosen zone are the floors of the
    fractions times the height, unclamped.  On a white image of 4 by
    3200 pixels the hint [{start_percent: 0.9375, end_percent: 1.125}]
    makes the scan run over rows 3000 to 3599, the best row is 3300, and
    the finalized cut list is [0, 3200, 3300]. *)
Theorem zone_rows_are_not_clamped :
  zoneRows 3200 0 2500 [overhangingZone] = Some (3000, 3600) /\
  findExactCutInZone (plainStrip 4 3200 255) 4 3000 3600 = Some 3300 /\
  uniquePoints (plainStrip 4 3200 255) [overhangingZone]
  = Done [0; 3200; 3300].
Proof.
  split; [vm_compute; reflexivity|].
  split; vm_compute; reflexivity.
Qed.

(** C8 fails as stated: with the hint [{start_percent: 0.96875,
    end_percent: 0.984375}] on an image of 1 by 4096 pixels the
    finalized cut list is [0, 4000, 4096], the last interval is 96 rows
    high and is skipped, and the chunks stacked in order have 4000 rows,
    not 4096. *)
Lemma short_last_chunk_is_dropped :
  uniquePoints (plainStrip 1 4096 0) [bottomZone] = Done [0; 4000; 4096] /\
  exists chunks,
    splitLongImage (plainFile 1 4096 0) [bottomZone] = Done chunks /\
    length (stack chunks) = 4000%nat /\
    length (bitmap (pixels (plainFile 1 4096 0))) = 4096%nat /\
    stack chunks <> bitmap (pixels (plainFile 1 4096 0)).
Proof.
  split; [vm_compute; reflexivity|].
  eexists. split; [vm_compute; reflexivity|].
  split; [vm_compute; reflexivity|].
  split; [vm_compute; reflexivity|].
  intros H. apply (f_equal (@length (list Z))) in H. vm_compute in H.
  discriminate.
Qed.

Lemma chunks_restack_to_source_witness :
  canvas_wf (pixels (plainFile 2 250 7)) /\
  (gapsAtLeast 100 [0; 100; 250] /\
   lastPoint [0; 100; 250] = cheight (pixels (plainFile 2 250 7)) /\
   stack (chunkLoop (pixels (plainFile 2 250 7)) (plainFile 2 250 7) 0
                    [0; 100; 250])
   = bitmap (pixels (plainFile 2 250 7))) /\
  (gapsAtLeast 100 [0; 100] /\ lastPoint [0; 100] <= 140 < lastPoint [0; 100] + 100 /\
   gapsAtLeast 100 [140; 250] /\
   lastPoint [140; 250] = cheight (pixels (plainFile 2 250 7)) /\
   stack (chunkLoop (pixels (plainFile 2 250 7)) (plainFile 2 250 7) 0
                    ([0; 100] ++ [140; 250]))
   = firstn (Z.to_nat (lastPoint [0; 100])) (bitmap (pixels (plainFile 2 250 7)))
     ++ skipn (Z.to_nat 140) (bitmap (pixels (plainFile 2 250 7))) /\
   length (stack (chunkLoop (pixels (plainFile 2 250 7)) (plainFile 2 250 7) 0
                            ([0; 100] ++ [140; 250]))) = 210%nat).
Proof.
  assert (Hwf : canvas_wf (pixels (plainFile 2 250 7)))
    by (apply plainStrip_wf; lia).
  assert (Hg : gapsAtLeast 100 [0; 100; 250]) by (simpl; lia).
  assert (Hg1 : gapsAtLeast 100 [0; 100]) by (simpl; lia).
  assert (Hg2 : gapsAtLeast 100 [140; 250]) by (simpl; lia).
  assert (Hs : lastPoint [0; 100] <= 140 < lastPoint [0; 100] + 100)
    by (vm_compute; split; [discriminate|reflexivity]).
  split; [exact Hwf|]. split.
  - split; [exact Hg|]. split; [reflexivity|].
    exact (proj1 (chunks_restack_to_source (plainFile 2 250 7) [100; 250] Hwf)
                 Hg eq_refl).
  - split; [exact Hg1|]. split; [exact Hs|]. split; [exact Hg2|].
    split; [reflexivity|]. split; [|vm_compute; reflexivity].
    exact (proj2 (proj2 (chunks_restack_to_source (plainFile 2 250 7) [100] Hwf))
                 140 [250] Hg1 Hs Hg2 eq_refl).
Defined.

Lemma find_exact_cut_in_zone_witness :
  1 < 5 /\ 0 < 4 /\
  exists cut data,
    findExactCutInZone (plainStrip 4 6 255) 4 1 5 = Some cut /\
    1 <= cut < 5 /\
    getImageData (plainStrip 4 6 255) 1 4 (5 - 1) = Some data /\
    (forall y, 0 <= y < 5 - 1 -> exists q, rowScore data 4 (5 - 1) y = Fin q).
Proof.
  split; [lia|]. split; [lia|].
  apply (proj1 (proj2 (find_exact_cut_in_zone (plainStrip 4 6 255) 4 1 5))); lia.
Defined.

(** The scan of rows 1 to 4 of a white strip settles on the middle. *)
Example scan_of_white_strip_picks_middle :
  findExactCutInZone (plainStrip 4 6 255) 4 1 5 = Some 3.
Proof. vm_compute. reflexivity. Qed.

Lemma cut_loop_terminates_witness :
  3000 < cheight (plainStrip 1 3100 0) /\
  0 < cwidth (plainStrip 1 3100 0) /\
  (loopFuel (plainStrip 1 3100 0) <= loopFuel (plainStrip 1 3100 0))%nat /\
  exists mid last,
    cutLoop (loopFuel (plainStrip 1 3100 0)) (plainStrip 1 3100 0) [] [0] 0
    = Done (mid ++ [last]) /\
    StronglySorted Z.lt (mid ++ [last]) /\
    cheight (plainStrip 1 3100 0) <= last + TARGET_CHUNK_HEIGHT.
Proof.
  assert (H1 : 3000 < cheight (plainStrip 1 3100 0)) by (simpl; lia).
  assert (H2 : 0 < cwidth (plainStrip 1 3100 0)) by (simpl; lia).
  split; [exact H1|]. split; [exact H2|]. split; [apply le_n|].
  apply (proj2 (cut_loop_terminates (plainStrip 1 3100 0) []
                  (loopFuel (plainStrip 1 3100 0)) H1 H2 (le_n _))).
Defined.

(** Without hints, images of height 3000, 5000, 8000 and 12000. *)
Example fallback_cut_lists :
  splitLongImage (plainFile 1 3000 0) [] = Done [plainFile 1 3000 0] /\
  uniquePoints (plainStrip 1 5000 0) [] = Done [0; 2500; 5000] /\
  uniquePoints (plainStrip 1 8000 0) [] = Done [0; 2500; 5000; 7500; 8000] /\
  uniquePoints (plainStrip 1 12000 0) []
  = Done [0; 2500; 5000; 7500; 10000; 12000].
Proof.
  split; [vm_compute; reflexivity|].
  split; [vm_compute; reflexivity|].
  split; vm_compute; reflexivity.
Qed.

End SlicerFacts.

(* ================================================================== *)
(** * Facts about the scheduler *)

Module SchedulerFacts.

Import Scheduler.

(** ** Frame: an updater touches only the ids it names *)

Section Frame.

Variable f : MangaPage -> MangaPage.
Variable touched : MangaPage -> bool.
Hypothesis f_frame : forall p, touched p = false -> f p = p.

Lemma map_frame_nth (prev : list MangaPage) (n : nat) (p : MangaPage) :
  nth_error prev n = Some p -> touched p = false ->
  nth_error (map f prev) n = Some p.
Proof.
  intros Hn Ht. rewrite nth_error_map, Hn. simpl. now rewrite f_frame.
Qed.

End Frame.

Lemma isStarted_false (pagesToStart : list MangaPage) (p : MangaPage) :
  ~ In (id p) (map id pagesToStart) -> isStarted pagesToStart p = false.
Proof.
  intros Hnot. unfold isStarted.
  destruct (existsb _ pagesToStart) eqn:E; [|reflexivity].
  apply existsb_exists in E. destruct E as [q [Hq Heq]].
  apply String.eqb_eq in Heq. exfalso. apply Hnot.
  rewrite <- Heq. now apply in_map.
Qed.

Lemma isStarted_true (pagesToStart : list MangaPage) (p : MangaPage) :
  isStarted pagesToStart p = true <-> In (id p) (map id pagesToStart).
Proof.
  unfold isStarted. rewrite existsb_exists, in_map_iff. split.
  - intros [q [Hq Heq]]. apply String.eqb_eq in Heq. eauto.
  - intros [q [Heq Hq]]. exists q. split; [assumption|].
    now apply String.eqb_eq.
Qed.

(** C10: admission on a tick, worker success, worker failure and
    regenerate leave every page whose id they do not name unchanged, at
    its position, with all its fields (status and result included), and
    add or drop no page. *)
Theorem updaters_touch_only_named_ids :
  forall (prev : list MangaPage) (n : nat) (p : MangaPage),
    nth_error prev n = Some p ->
    (forall pagesToStart,
        ~ In (id p) (map id pagesToStart) ->
        nth_error (startPages pagesToStart prev) n = Some p /\
        length (startPages pagesToStart prev) = length prev) /\
    (forall page url,
        id p <> id page ->
        nth_error (resolveSuccess page url prev) n = Some p /\
        length (resolveSuccess page url prev) = length prev) /\
    (forall page,
        id p <> id page ->
        nth_error (resolveFailure page prev) n = Some p /\
        length (resolveFailure page prev) = length prev) /\
    (forall pageId,
        id p <> pageId ->
        nth_error (handleRegenerate pageId prev) n = Some p /\
        length (handleRegenerate pageId prev) = length prev).
Proof.
  intros prev n p Hn. repeat split;
    try (unfold startPages, resolveSuccess, resolveFailure, handleRegenerate;
         apply length_map).
  - apply map_frame_nth with (touched := isStarted pagesToStart); auto.
    + intros q Hq. now rewrite Hq.
    + now apply isStarted_false.
  - apply map_frame_nth with (touched := fun q => String.eqb (id q) (id page)); auto.
    + intros q Hq. now rewrite Hq.
    + now apply String.eqb_neq.
  - apply map_frame_nth with (touched := fun q => String.eqb (id q) (id page)); auto.
    + intros q Hq. now rewrite Hq.
    + now apply String.eqb_neq.
  - apply map_frame_nth with (touched := fun q => String.eqb (id q) pageId); auto.
    + intros q Hq. now rewrite Hq.
    + now apply String.eqb_neq.
Qed.


(** ** Ids and statuses under the updaters *)

(** An updater is a [map] whose function keeps the id. *)
Ltac map_keeps_id :=
  rewrite map_map; apply map_ext; intros ?p;
  match goal with |- context [if ?b then _ else _] => now destruct b end.

Lemma startPages_ids (sel prev : list MangaPage) :
  map id (startPages sel prev) = map id prev.
Proof. unfold startPages. map_keeps_id. Qed.

Lemma resolveSuccess_ids (page : MangaPage) (url : string) (prev : list MangaPage) :
  map id (resolveSuccess page url prev) = map id prev.
Proof. unfold resolveSuccess. map_keeps_id. Qed.

Lemma resolveFailure_ids (page : MangaPage) (prev : list MangaPage) :
  map id (resolveFailure page prev) = map id prev.
Proof. unfold resolveFailure. map_keeps_id. Qed.

Lemma handleRegenerate_ids (pageId : string) (prev : list MangaPage) :
  map id (handleRegenerate pageId prev) = map id prev.
Proof. unfold handleRegenerate. map_keeps_id. Qed.

Lemma hasStatus_true (st : Status) (p : MangaPage) :
  hasStatus st p = true <-> status p = st.
Proof.
  unfold hasStatus. destruct (status p), st; simpl; split; congruence.
Qed.

(** An updater that never turns a page into a processing one does not
    raise the number of processing pages. *)
Lemma processing_map_le (f : MangaPage -> MangaPage) (l : list MangaPage) :
  (forall p, hasStatus processing (f p) = true -> hasStatus processing p = true) ->
  (length (filter (hasStatus processing) (map f l))
   <= length (filter (hasStatus processing) l))%nat.
Proof.
  intros Hf. induction l as [|p l IH]; simpl; [lia|].
  destruct (hasStatus processing (f p)) eqn:E.
  - rewrite (Hf p E). simpl. lia.
  - destruct (hasStatus processing p); simpl; lia.
Qed.

(** The updaters of a settled call and of regenerate never produce a
    processing page. *)
Ltac no_new_processing :=
  unfold processingCount; apply inj_le, processing_map_le; intros ?p;
  match goal with |- context [if ?b then _ else _] =>
    destruct b; [discriminate|auto] end.

Lemma resolveSuccess_processing (page : MangaPage) (url : string) (l : list MangaPage) :
  processingCount (resolveSuccess page url l) <= processingCount l.
Proof. unfold resolveSuccess. no_new_processing. Qed.

Lemma resolveFailure_processing (page : MangaPage) (l : list MangaPage) :
  processingCount (resolveFailure page l) <= processingCount l.
Proof. unfold resolveFailure. no_new_processing. Qed.

Lemma handleRegenerate_processing (pageId : string) (l : list MangaPage) :
  processingCount (handleRegenerate pageId l) <= processingCount l.
Proof. unfold handleRegenerate. no_new_processing. Qed.

(** ** Counting the pages a tick starts *)

Lemma filter_or_length {A : Type} (f g : A -> bool) (l : list A) :
  (length (filter (fun x => f x || g x) l)
   <= length (filter f l) + length (filter g l))%nat.
Proof.
  induction l as [|x l IH]; simpl; [lia|].
  destruct (f x), (g x); simpl; lia.
Qed.

Lemma one_page_per_id (i : string) (l : list MangaPage) :
  NoDup (map id l) ->
  (length (filter (fun p => String.eqb i (id p)) l) <= 1)%nat.
Proof.
  induction l as [|p l IH]; simpl; intros Hnd; [lia|].
  inversion Hnd as [|? ? Hnotin Hnd']; subst.
  destruct (String.eqb i (id p)) eqn:E; [|auto].
  apply String.eqb_eq in E. subst i. simpl.
  assert (Hz : filter (fun q => String.eqb (id p) (id q)) l = []).
  { clear - Hnotin. induction l as [|q l IH]; simpl; [reflexivity|].
    destruct (String.eqb (id p) (id q)) eqn:E.
    - apply String.eqb_eq in E. exfalso. apply Hnotin. simpl. auto.
    - apply IH. intros H. apply Hnotin. simpl. auto. }
  rewrite Hz. simpl. lia.
Qed.

Lemma started_le (sel l : list MangaPage) :
  NoDup (map id l) ->
  (length (filter (isStarted sel) l) <= length sel)%nat.
Proof.
  intros Hnd. induction sel as [|a sel IH]; simpl.
  - unfold isStarted. simpl. clear Hnd. induction l; simpl; auto.
  - pose proof (filter_or_length (fun p => String.eqb (id a) (id p)) (isStarted sel) l) as H.
    pose proof (one_page_per_id (id a) l Hnd) as H1.
    unfold isStarted in *. simpl in *. lia.
Qed.

Lemma startPages_processing (sel l : list MangaPage) :
  (length (filter (hasStatus processing) (startPages sel l))
   <= length (filter (hasStatus processing) l) + length (filter (isStarted sel) l))%nat.
Proof.
  unfold startPages. induction l as [|p l IH]; simpl; [lia|].
  destruct (isStarted sel p) eqn:E; simpl.
  - destruct (hasStatus processing p); simpl; lia.
  - destruct (hasStatus processing p); simpl; lia.
Qed.

(** What [schedule] returns when it starts pages. *)
Lemma schedule_some (k : bool) (ps : list MangaPage) (hist : list Z) (now : Z)
    (sel : list MangaPage) (ts : list Z) :
  schedule k ps hist now = Some (sel, ts) ->
  exists n : nat,
    sel = firstn n (filter (hasStatus pending) ps) /\
    ts = repeat now n /\
    length sel = n /\
    (0 < n)%nat /\
    Z.of_nat n <= CONCURRENCY_LIMIT - processingCount ps /\
    Z.of_nat n <= RPM_LIMIT - Z.of_nat (length (filter (inWindow now) hist)).
Proof.
  unfold schedule, processingCount.
  destruct (negb k); [discriminate|].
  destruct (Z.of_nat (length (filter (hasStatus pending) ps)) =? 0); [discriminate|].
  destruct (_ <=? 0) eqn:E1; [discriminate|].
  destruct (RPM_LIMIT - _ <=? 0) eqn:E2; [discriminate|].
  match goal with |- context [Z.min (Z.min ?a ?b) ?c >? 0] =>
    set (n := Z.min (Z.min a b) c) end.
  destruct (n >? 0) eqn:E3; [|discriminate].
  intros H. inversion H; subst sel ts; clear H.
  exists (Z.to_nat n).
  assert (Hn : 0 < n) by lia.
  split; [reflexivity|]. split; [reflexivity|].
  split; [rewrite length_firstn; subst n; lia|].
  split; [lia|]. subst n. split; lia.
Qed.

(** ** Ids never change *)

Lemma tick_ids (now : Z) (s : State) :
  map id (pages (tick now s)) = map id (pages s).
Proof.
  unfold tick. destruct (schedule _ _ _ _) as [[sel ts]|]; simpl;
    [apply startPages_ids|reflexivity].
Qed.

Lemma step_ids (g : bool) (s s' : State) :
  step g s s' -> map id (pages s') = map id (pages s).
Proof.
  intros H. destruct H; simpl;
    auto using tick_ids, resolveSuccess_ids, resolveFailure_ids,
               handleRegenerate_ids.
Qed.

Lemma reachable_nodup (g : bool) (s : State) :
  reachable g s -> NoDup (map id (pages s)).
Proof.
  induction 1 as [s Hi|s s' _ IH Hs].
  - apply Hi.
  - now rewrite (step_ids _ _ _ Hs).
Qed.

(** ** The concurrency ceiling *)

Lemma initial_processing (s : State) :
  initial s -> processingCount (pages s) = 0.
Proof.
  intros (_ & Hall & _). unfold processingCount.
  induction Hall as [|p l [Hp _] _ IH]; simpl; [reflexivity|].
  unfold hasStatus at 1. rewrite Hp. simpl. exact IH.
Qed.

Lemma tick_processing (now : Z) (s : State) :
  NoDup (map id (pages s)) ->
  processingCount (pages s) <= CONCURRENCY_LIMIT ->
  processingCount (pages (tick now s)) <= CONCURRENCY_LIMIT.
Proof.
  intros Hnd Hle. unfold tick.
  destruct (schedule _ _ _ _) as [[sel ts]|] eqn:E; simpl; [|assumption].
  apply schedule_some in E. destruct E as (n & _ & _ & Hlen & _ & Hn & _).
  pose proof (startPages_processing sel (pages s)) as H1.
  pose proof (started_le sel (pages s) Hnd) as H2.
  unfold processingCount in *. lia.
Qed.

Lemma step_processing (g : bool) (s s' : State) :
  step g s s' ->
  processingCount (pages s) < processingCount (pages s') ->
  exists now, clock s <= now /\ s' = tick now s.
Proof.
  intros H Hlt. destruct H; simpl in Hlt.
  - lia.
  - eauto.
  - lia.
  - pose proof (resolveSuccess_processing (cpage c) url (pages s)). lia.
  - pose proof (resolveFailure_processing (cpage c) (pages s)). lia.
  - pose proof (handleRegenerate_processing (id p) (pages s)). lia.
Qed.

(** C2: from a pool of pending pages with distinct ids, whatever the
    events (ticks, settled calls, clean-ups, regenerations), at most
    [CONCURRENCY_LIMIT] (5) pages are processing.  A tick that starts
    pages starts at most [CONCURRENCY_LIMIT] minus the number of
    processing pages and raises that number by at most as many; an
    event that raises the number of processing pages is a tick. *)
Theorem processing_never_exceeds_ceiling :
  forall (g : bool) (s : State),
    reachable g s ->
    processingCount (pages s) <= CONCURRENCY_LIMIT /\
    (forall now sel ts,
        schedule (hasKey s) (pages s) (requestHistory s) now = Some (sel, ts) ->
        Z.of_nat (length sel) <= CONCURRENCY_LIMIT - processingCount (pages s) /\
        processingCount (startPages sel (pages s))
        <= processingCount (pages s) + Z.of_nat (length sel)) /\
    forall s', step g s s' ->
      processingCount (pages s') <= CONCURRENCY_LIMIT /\
      (processingCount (pages s) < processingCount (pages s') ->
       exists now, clock s <= now /\ s' = tick now s).
Proof.
  intros g s Hr.
  assert (Hinv : forall t, reachable g t ->
                 processingCount (pages t) <= CONCURRENCY_LIMIT).
  { clear s Hr. induction 1 as [t Hi|t t' Hr IH Hs].
    - rewrite (initial_processing _ Hi). unfold CONCURRENCY_LIMIT. lia.
    - pose proof (reachable_nodup _ _ Hr) as Hnd.
      destruct Hs; simpl; try assumption.
      + now apply tick_processing.
      + pose proof (resolveSuccess_processing (cpage c) url (pages s)). lia.
      + pose proof (resolveFailure_processing (cpage c) (pages s)). lia.
      + pose proof (handleRegenerate_processing (id p) (pages s)). lia. }
  split; [now apply Hinv|]. split.
  - intros now sel ts E. apply schedule_some in E.
    destruct E as (n & _ & _ & Hlen & _ & Hn & _). split; [lia|].
    pose proof (startPages_processing sel (pages s)) as H1.
    pose proof (started_le sel (pages s) (reachable_nodup _ _ Hr)) as H2.
    unfold processingCount. lia.
  - intros s' Hs. split.
    + apply Hinv. now apply reach_step with s.
    + now apply step_processing with g.
Qed.

(** ** The pages a tick admits are the pages it dispatches *)

Lemma filter_and {A : Type} (f g : A -> bool) (l : list A) :
  filter (fun x => f x && g x) l = filter g (filter f l).
Proof.
  induction l as [|x l IH]; simpl; [reflexivity|].
  destruct (f x); simpl; [|assumption].
  destruct (g x); now rewrite IH.
Qed.

Lemma NoDup_ids_filter (f : MangaPage -> bool) (l : list MangaPage) :
  NoDup (map id l) -> NoDup (map id (filter f l)).
Proof.
  induction l as [|p l IH]; simpl; intros Hnd; [constructor|].
  inversion Hnd as [|? ? Hnotin Hnd']; subst.
  destruct (f p); simpl; [|auto].
  constructor; [|auto].
  intros Hin. apply Hnotin. apply in_map_iff in Hin.
  destruct Hin as [q [Hq Hin]]. apply filter_In in Hin.
  apply in_map_iff. exists q. tauto.
Qed.

Lemma In_firstn {A : Type} (n : nat) (l : list A) (x : A) :
  In x (firstn n l) -> In x l.
Proof.
  intros H. rewrite <- (firstn_skipn n l). apply in_or_app. now left.
Qed.

Lemma NoDup_ids_firstn (n : nat) (l : list MangaPage) :
  NoDup (map id l) -> NoDup (map id (firstn n l)).
Proof.
  revert n. induction l as [|p l IH]; intros [|n] Hnd; simpl; try constructor.
  - inversion Hnd as [|? ? Hnotin _]; subst. intros Hin. apply Hnotin.
    apply in_map_iff in Hin. destruct Hin as [q [Hq Hin]].
    apply in_map_iff. exists q. split; [assumption|].
    now apply In_firstn in Hin.
  - inversion Hnd; subst. now apply IH.
Qed.

Lemma firstn_started (n : nat) (l : list MangaPage) :
  NoDup (map id l) -> filter (isStarted (firstn n l)) l = firstn n l.
Proof.
  revert n. induction l as [|a l IH]; intros n Hnd.
  - now destruct n.
  - destruct n as [|n].
    + simpl firstn. unfold isStarted. simpl.
      clear. induction l; simpl; auto.
    + inversion Hnd as [|? ? Hnotin Hnd']; subst.
      assert (Ha : isStarted (a :: firstn n l) a = true).
      { unfold isStarted. simpl. now rewrite String.eqb_refl. }
      cbn [firstn filter]. rewrite Ha. f_equal. rewrite <- (IH n Hnd') at 2.
      apply filter_ext_in. intros q Hq. unfold isStarted. simpl.
      destruct (String.eqb (id a) (id q)) eqn:E; [|reflexivity].
      apply String.eqb_eq in E. exfalso. apply Hnotin. rewrite E.
      now apply in_map.
Qed.

Lemma admittedBy_exact (n : nat) (ps : list MangaPage) :
  NoDup (map id ps) ->
  admittedBy (firstn n (filter (hasStatus pending) ps)) ps
  = firstn n (filter (hasStatus pending) ps).
Proof.
  intros Hnd. unfold admittedBy. rewrite filter_and.
  apply firstn_started. now apply NoDup_ids_filter.
Qed.

(** ** The sliding window *)

Lemma filter_length_le {A : Type} (f g : A -> bool) (l : list A) :
  (forall x, In x l -> f x = true -> g x = true) ->
  (length (filter f l) <= length (filter g l))%nat.
Proof.
  induction l as [|x l IH]; simpl; intros H; [lia|].
  assert (IH' : (length (filter f l) <= length (filter g l))%nat)
    by (apply IH; intros; apply H; auto).
  destruct (f x) eqn:E.
  - rewrite (H x (or_introl eq_refl) E). simpl. lia.
  - destruct (g x); simpl; lia.
Qed.

Lemma filter_length_all {A : Type} (f : A -> bool) (l : list A) :
  (length (filter f l) <= length l)%nat.
Proof.
  induction l as [|x l IH]; simpl; [lia|]. destruct (f x); simpl; lia.
Qed.

Lemma filter_repeat (f : Z -> bool) (x : Z) (n : nat) :
  filter f (repeat x n) = if f x then repeat x n else [].
Proof.
  induction n as [|n IH]; simpl; [now destruct (f x)|].
  rewrite IH. now destruct (f x).
Qed.

Lemma inWindow_later (now now' t : Z) :
  now <= now' -> inWindow now' t = true -> inWindow now t = true.
Proof. unfold inWindow. intros H H1. apply Z.ltb_lt in H1. apply Z.ltb_lt. lia. Qed.

(** The clean-up drops only expired timestamps, so it changes no later
    window. *)
Lemma cleanupHistory_window (now now' : Z) (hist : list Z) :
  now <= now' ->
  filter (inWindow now') (cleanupHistory now hist) = filter (inWindow now') hist.
Proof.
  intros Hle. unfold cleanupHistory.
  destruct (negb _); [|reflexivity].
  induction hist as [|t hist IH]; simpl; [reflexivity|].
  destruct (inWindow now t) eqn:E; simpl.
  - now rewrite IH.
  - destruct (inWindow now' t) eqn:E'; [|assumption].
    apply (inWindow_later now) in E'; congruence.
Qed.

Lemma cleanupHistory_drops_expired (now t : Z) (hist : list Z) :
  In t hist -> ~ In t (cleanupHistory now hist) -> 60000 <= now - t.
Proof.
  intros Hin Hnot. unfold cleanupHistory in Hnot.
  destruct (negb _); [|contradiction].
  destruct (inWindow now t) eqn:E.
  - exfalso. apply Hnot. apply filter_In. auto.
  - unfold inWindow in E. apply Z.ltb_ge in E. lia.
Qed.

Lemma rateInv_initial (s : State) : initial s -> rateInv s.
Proof.
  intros (_ & _ & Hh & _ & Ha & _). unfold rateInv, admittedInWindow.
  rewrite Ha, Hh. simpl. unfold RPM_LIMIT.
  split; [intros a []|]. split; intros; lia.
Qed.

Lemma rateInv_clock (s s' : State) :
  admissions s' = admissions s ->
  clock s <= clock s' ->
  (forall now, clock s' <= now ->
     filter (inWindow now) (requestHistory s')
     = filter (inWindow now) (requestHistory s)) ->
  rateInv s -> rateInv s'.
Proof.
  intros Ha Hc Hh (I1 & I2 & I3). unfold rateInv. rewrite Ha.
  repeat split.
  - intros a Hin. specialize (I1 a Hin). lia.
  - intros now Hnow. rewrite (Hh now Hnow). apply I2. lia.
  - exact I3.
Qed.

Lemma rateInv_tick (now : Z) (s : State) :
  NoDup (map id (pages s)) -> clock s <= now ->
  rateInv s -> rateInv (tick now s).
Proof.
  intros Hnd Hnow Hinv. unfold tick.
  destruct (schedule _ _ _ _) as [[sel ts]|] eqn:E.
  - destruct Hinv as (I1 & I2 & I3).
    apply schedule_some in E.
    destruct E as (n & Hsel & Hts & Hlen & _ & _ & Hrate).
    assert (Hadm : admittedBy sel (pages s) = sel)
      by (rewrite Hsel; now apply admittedBy_exact).
    unfold rateInv. simpl. rewrite Hadm. repeat split.
    + intros a Hin. apply in_app_or in Hin. destruct Hin as [Hin|Hin].
      * specialize (I1 a Hin). lia.
      * apply in_map_iff in Hin. destruct Hin as [p [Hp _]]. subst a. simpl. lia.
    + intros now' Hnow'. rewrite !filter_app, !length_app.
      assert (Hold : (length (filter (fun a => inWindow now' (fst a)) (admissions s))
                      <= length (filter (inWindow now') (requestHistory s)))%nat)
        by (apply I2; lia).
      assert (Hnew : length (filter (fun a => inWindow now' (fst a))
                                    (map (fun p => (now, id p)) sel))
                     = length (filter (inWindow now') ts)).
      { rewrite Hts, filter_repeat. rewrite <- Hlen. clear.
        induction sel as [|p sel IH]; simpl.
        - now destruct (inWindow now' now).
        - destruct (inWindow now' now); simpl in *; [now rewrite IH|assumption]. }
      lia.
    + intros T. unfold admittedInWindow in *. rewrite filter_app, length_app.
      destruct (now <=? T) eqn:ET.
      * apply Z.leb_le in ET.
        assert (Hold : (length (filter (fun a : Z * string =>
                                          (fst a <=? T)%Z && inWindow T (fst a))
                                       (admissions s))
                        <= length (filter (inWindow now) (requestHistory s)))%nat).
        { etransitivity; [|apply (I2 now Hnow)].
          apply filter_length_le. intros a Hin Ha.
          apply andb_true_iff in Ha. destruct Ha as [_ Ha].
          now apply inWindow_later with T. }
        pose proof (filter_length_all
                      (fun a => (fst a <=? T) && inWindow T (fst a))
                      (map (fun p => (now, id p)) sel)) as Hnew.
        rewrite length_map in Hnew. lia.
      * assert (Hnew : filter (fun a => (fst a <=? T) && inWindow T (fst a))
                              (map (fun p => (now, id p)) sel) = []).
        { clear - ET. induction sel as [|p sel IH]; simpl; [reflexivity|].
          now rewrite ET. }
        rewrite Hnew. simpl. specialize (I3 T). lia.
  - apply rateInv_clock with s; simpl; auto.
Qed.

Lemma rateInv_step (g : bool) (s s' : State) :
  NoDup (map id (pages s)) -> step g s s' -> rateInv s -> rateInv s'.
Proof.
  intros Hnd Hs Hinv. destruct Hs.
  - apply rateInv_clock with s; simpl; auto; lia.
  - now apply rateInv_tick.
  - apply rateInv_clock with s; simpl; auto.
    intros now' Hnow'. now apply cleanupHistory_window.
  - apply rateInv_clock with s; simpl; auto; lia.
  - apply rateInv_clock with s; simpl; auto; lia.
  - apply rateInv_clock with s; simpl; auto; lia.
Qed.

Lemma reachable_rateInv (g : bool) (s : State) : reachable g s -> rateInv s.
Proof.
  induction 1 as [s Hi|s s' Hr IH Hs].
  - now apply rateInv_initial.
  - apply rateInv_step with g s; auto. now apply reachable_nodup with g.
Qed.

(** C3: in every reachable state, no trailing window of 60000 time
    units holds more than [RPM_LIMIT] (20) admissions.  A tick that
    starts pages admits exactly the pages it selected, records one
    timestamp [now] for each, and selects at most [RPM_LIMIT] minus the
    number of recorded timestamps [t] with [now - t < 60000]; the
    clean-up removes only timestamps with [now - t >= 60000]. *)
Theorem admissions_within_rate_limit :
  forall (g : bool) (s : State),
    reachable g s ->
    (forall T, Z.of_nat (length (admittedInWindow T (admissions s))) <= RPM_LIMIT) /\
    (forall now sel ts,
        schedule (hasKey s) (pages s) (requestHistory s) now = Some (sel, ts) ->
        admittedBy sel (pages s) = sel /\
        ts = repeat now (length sel) /\
        Z.of_nat (length sel)
        <= RPM_LIMIT - Z.of_nat (length (filter (inWindow now) (requestHistory s)))) /\
    (forall now t,
        In t (requestHistory s) ->
        ~ In t (cleanupHistory now (requestHistory s)) ->
        60000 <= now - t).
Proof.
  intros g s Hr. split; [|split].
  - apply (reachable_rateInv g s Hr).
  - intros now sel ts E. apply schedule_some in E.
    destruct E as (n & Hsel & Hts & Hlen & _ & _ & Hrate).
    split; [|split].
    + rewrite Hsel. apply admittedBy_exact. now apply reachable_nodup with g.
    + now rewrite Hlen.
    + now rewrite Hlen.
  - intros now t. apply cleanupHistory_drops_expired.
Qed.

(** ** Calls in flight are never stale *)

Lemma freshInv_initial (s : State) : initial s -> freshInv s.
Proof.
  intros (_ & _ & _ & Hf & _). unfold freshInv. rewrite Hf. simpl.
  split; [constructor|]. intros c p [].
Qed.

Lemma freshInv_tick (now : Z) (s : State) :
  NoDup (map id (pages s)) -> freshInv s -> freshInv (tick now s).
Proof.
  intros Hnd [Hcalls Hinv]. unfold tick.
  destruct (schedule _ _ _ _) as [[sel ts]|] eqn:E; [|split; assumption].
  apply schedule_some in E. destruct E as (n & Hsel & _).
  assert (Hpend : forall q, In q sel -> In q (pages s) /\ status q = pending).
  { intros q Hq. rewrite Hsel in Hq. apply In_firstn in Hq.
    apply filter_In in Hq. now rewrite hasStatus_true in Hq. }
  unfold freshInv. simpl. split.
  - rewrite map_app, map_map. simpl. apply NoDup_app.
    + assumption.
    + change (NoDup (map id sel)). rewrite Hsel.
      now apply NoDup_ids_firstn, NoDup_ids_filter.
    + intros a Ha Hb. apply in_map_iff in Ha. destruct Ha as [c [Hc Hin]].
      apply in_map_iff in Hb. destruct Hb as [q [Hq Hqin]].
      destruct (Hpend q Hqin) as [Hqp Hqs].
      destruct (Hinv c q Hin Hqp) as [Hproc _];
        [unfold callId in *; simpl in *; congruence|].
      congruence.
  - intros c p' Hc Hp' Hid. unfold startPages in Hp'.
    apply in_map_iff in Hp'. destruct Hp' as [p [Hp' Hp]].
    assert (Hidp : id p' = id p)
      by (subst p'; now destruct (isStarted sel p)).
    apply in_app_or in Hc. destruct Hc as [Hc|Hc].
    + destruct (Hinv c p Hc Hp) as [Hproc Hep]; [congruence|].
      rewrite Hidp. split; [|assumption].
      subst p'. now destruct (isStarted sel p).
    + apply in_map_iff in Hc. destruct Hc as [q [Hc Hq]]. subst c.
      unfold callId in Hid. simpl in *.
      assert (Hst : isStarted sel p = true).
      { apply isStarted_true. rewrite <- Hidp, Hid. now apply in_map. }
      rewrite Hst in Hp'. subst p'. simpl. split; [reflexivity|congruence].
Qed.

Lemma freshInv_settle (s : State) (c : Call) (before after : list Call)
    (f : MangaPage -> MangaPage) :
  inflight s = before ++ c :: after ->
  (forall p, id (f p) = id p) ->
  (forall p, id p <> callId c -> f p = p) ->
  freshInv s ->
  forall s',
    pages s' = map f (pages s) -> inflight s' = before ++ after ->
    regenLog s' = regenLog s ->
    freshInv s'.
Proof.
  intros Hfl Hfid Hframe [Hcalls Hinv] s' Hp Hi Hl.
  rewrite Hfl, map_app in Hcalls. simpl in Hcalls.
  apply NoDup_remove in Hcalls. destruct Hcalls as [Hnd Hnotin].
  unfold freshInv. rewrite Hp, Hi, Hl. split.
  - now rewrite map_app.
  - intros c' p' Hc' Hp' Hid.
    apply in_map_iff in Hp'. destruct Hp' as [p [Hp' Hin]].
    assert (Hne : id p <> callId c).
    { intros Heq. apply Hnotin. rewrite <- map_app. rewrite <- Heq.
      rewrite <- (Hfid p), Hp', Hid. now apply in_map. }
    rewrite (Hframe p Hne) in Hp'. subst p'.
    apply Hinv; [|assumption|assumption].
    rewrite Hfl. apply in_app_or in Hc'. apply in_or_app.
    destruct Hc'; [now left|right; now right].
Qed.

Lemma regenerateOffered_not_processing (p : MangaPage) :
  regenerateOffered p = true -> status p <> processing.
Proof. unfold regenerateOffered. destruct (status p); congruence. Qed.

Lemma freshInv_regenerate (s : State) (p0 : MangaPage) :
  In p0 (pages s) -> regenerateOffered p0 = true ->
  freshInv s -> freshInv (regenerate (id p0) s).
Proof.
  intros Hin Hoff [Hcalls Hinv]. unfold freshInv. simpl. split; [assumption|].
  intros c p' Hc Hp' Hid. unfold handleRegenerate in Hp'.
  apply in_map_iff in Hp'. destruct Hp' as [p [Hp' Hp]].
  destruct (String.eqb (id p) (id p0)) eqn:E.
  - apply String.eqb_eq in E. subst p'. simpl in Hid.
    destruct (Hinv c p0 Hc Hin) as [Hproc _]; [congruence|].
    now apply regenerateOffered_not_processing in Hoff.
  - apply String.eqb_neq in E. subst p'.
    destruct (Hinv c p Hc Hp Hid) as [Hproc Hep]. split; [assumption|].
    rewrite Hep. unfold epoch. simpl.
    destruct (string_dec (id p0) (id p)); [congruence|reflexivity].
Qed.

Lemma reachable_freshInv (s : State) : reachable true s -> freshInv s.
Proof.
  induction 1 as [s Hi|s s' Hr IH Hs].
  - now apply freshInv_initial.
  - pose proof (reachable_nodup _ _ Hr) as Hnd. destruct Hs.
    + exact IH.
    + now apply freshInv_tick.
    + exact IH.
    + apply freshInv_settle
        with (s := s) (c := c) (before := before) (after := after)
             (f := fun p => if String.eqb (id p) (id (cpage c))
                            then withResult p completed (Some url) else p);
        auto.
      * intros p. now destruct (String.eqb _ _).
      * intros p Hne. apply String.eqb_neq in Hne. unfold callId in Hne.
        now rewrite Hne.
    + apply freshInv_settle
        with (s := s) (c := c) (before := before) (after := after)
             (f := fun p => if String.eqb (id p) (id (cpage c))
                            then withStatus p error else p);
        auto.
      * intros p. now destruct (String.eqb _ _).
      * intros p Hne. apply String.eqb_neq in Hne. unfold callId in Hne.
        now rewrite Hne.
    + apply freshInv_regenerate; auto.
Qed.



(** ** The theorems on a concrete session *)

Lemma demoState_initial (ids : list string) :
  NoDup ids -> initial (demoState ids).
Proof.
  intros Hnd. unfold initial, demoState. simpl.
  rewrite map_map. simpl. rewrite map_id.
  repeat split; try assumption.
  apply Forall_forall. intros p Hp. apply in_map_iff in Hp.
  destruct Hp as [i [Hp _]]. subst p. simpl. auto.
Defined.

Lemma sevenIds_NoDup : NoDup sevenIds.
Proof.
  unfold sevenIds.
  repeat (constructor; [simpl; intuition discriminate|]). constructor.
Defined.

Lemma demo_reachable (g : bool) : reachable g (tick 0 (demoState sevenIds)).
Proof.
  apply reach_step with (demoState sevenIds).
  - apply reach_init, demoState_initial, sevenIds_NoDup.
  - apply step_tick. simpl. lia.
Defined.

(** Seven pending pages and one tick: five are started. *)
Example demo_tick_starts_five :
  map status (pages (tick 0 (demoState sevenIds)))
  = [processing; processing; processing; processing; processing;
     pending; pending]
  /\ requestHistory (tick 0 (demoState sevenIds)) = [0; 0; 0; 0; 0].
Proof. split; reflexivity. Qed.

(** Fifty pending pages under rapid-fire ticks: five pages are started
    per tick, twenty within the first minute whatever the number of
    ticks, and the next five once the first timestamps have left the
    window. *)
Example fifty_pages_rapid_fire :
  let s1 := tick 0 (demoState fiftyIds) in
  let s4 := round 0 (round 0 (round 0 (round 0 (demoState fiftyIds)))) in
  (countStatus processing s1, countStatus processing (tick 0 s1)) = (5, 5)%nat /\
  (countStatus completed s4, length (admissions s4)) = (20, 20)%nat /\
  length (admissions (round 59999 (round 1 s4))) = 20%nat /\
  length (admissions (round 60000 (round 59999 s4))) = 25%nat.
Proof. cbv zeta. repeat split; vm_compute; reflexivity. Qed.

Lemma processing_never_exceeds_ceiling_witness :
  reachable true (tick 0 (demoState sevenIds)) /\
  processingCount (pages (tick 0 (demoState sevenIds))) <= CONCURRENCY_LIMIT.
Proof.
  split; [apply demo_reachable|].
  exact (proj1 (processing_never_exceeds_ceiling true _ (demo_reachable true))).
Defined.

Lemma admissions_within_rate_limit_witness :
  reachable true (tick 0 (demoState sevenIds)) /\
  Z.of_nat (length (admittedInWindow 59999
                      (admissions (tick 0 (demoState sevenIds)))))
  <= RPM_LIMIT.
Proof.
  split; [apply demo_reachable|].
  exact (proj1 (admissions_within_rate_limit true _ (demo_reachable true)) 59999).
Defined.




Lemma updaters_touch_only_named_ids_witness :
  nth_error (map demoPage ["a"; "b"]%string) 1 = Some (demoPage "b") /\
  nth_error (resolveSuccess (demoPage "a") "blob:translated"
                            (map demoPage ["a"; "b"]%string)) 1
  = Some (demoPage "b").
Proof.
  split; [reflexivity|].
  apply (updaters_touch_only_named_ids
           (map demoPage ["a"; "b"]%string) 1 (demoPage "b") eq_refl).
  simpl. discriminate.
Defined.


End SchedulerFacts.

(* ================================================================== *)
(** * Further facts about the slicing engine *)

Module SlicerMoreFacts.

Import JS Slicer SlicerFacts SlicerSpec.

Lemma Qltb_lt (x y : Q) : Qltb x y = true <-> (x < y)%Q.
Proof.
  unfold Qltb. rewrite negb_true_iff. split.
  - intros H. apply Qnot_le_lt. intros Hle.
    apply Qle_bool_iff in Hle. congruence.
  - intros H. destruct (Qle_bool y x) eqn:E; [|reflexivity].
    apply Qle_bool_iff in E. exfalso. now apply (Qlt_not_le x y).
Qed.

Lemma Qltb_ge (x y : Q) : Qltb x y = false <-> (y <= x)%Q.
Proof.
  unfold Qltb. rewrite negb_false_iff. apply Qle_bool_iff.
Qed.

(** ** The scan returns the first row of least score *)


Lemma scanUpdate_scanned (score : Z -> Num) (x : Z) (st : Z * Bound) :
  0 <= x ->
  (exists q, score x = Fin q) ->
  scanned score x st ->
  scanned score (x + 1) (scanUpdate score st x).
Proof.
  intros Hx [s Hs] Hst. unfold scanUpdate. rewrite Hs.
  destruct Hst as [[Hx0 Hst]|(Hb & m & Hm & Hbm & Hall)].
  - subst st. simpl. right. simpl. split; [lia|].
    exists s. split; [reflexivity|]. split; [assumption|].
    intros y Hy. assert (y = x) by lia. subst y.
    exists s. split; [assumption|]. split; [apply Qle_refl|lia].
  - rewrite Hm. destruct (Qltb s m) eqn:E.
    + apply Qltb_lt in E. right. simpl. split; [lia|].
      exists s. split; [reflexivity|]. split; [assumption|].
      intros y Hy. destruct (Z.eq_dec y x) as [->|Hne].
      * exists s. split; [assumption|]. split; [apply Qle_refl|lia].
      * destruct (Hall y ltac:(lia)) as (q & Hq & Hle & _).
        exists q. split; [assumption|].
        assert (s < q)%Q by (eapply Qlt_le_trans; eassumption).
        split; [now apply Qlt_le_weak|auto].
    + apply Qltb_ge in E. right. split; [lia|].
      exists m. split; [assumption|]. split; [assumption|].
      intros y Hy. destruct (Z.eq_dec y x) as [->|Hne].
      * exists s. split; [assumption|]. split; [assumption|lia].
      * apply Hall. lia.
Qed.

Lemma scan_scanned (score : Z -> Num) (height : Z) (fuel : nat) :
  (forall y, 0 <= y < height -> exists q, score y = Fin q) ->
  forall x st,
    0 <= x <= height -> fuel = Z.to_nat (height - x) ->
    scanned score x st ->
    scanned score height
            (fold_left (scanUpdate score) (forRangeFuel fuel x height 1) st).
Proof.
  intros Hfin. induction fuel as [|fuel IH]; intros x st Hx Hf Hst.
  - simpl. assert (x = height) by lia. now subst x.
  - cbn [forRangeFuel].
    assert (E : (x <? height) = true) by (apply Z.ltb_lt; lia). rewrite E.
    cbn [fold_left]. apply IH; [lia|lia|].
    apply scanUpdate_scanned; [lia|apply Hfin; lia|assumption].
Qed.

Lemma scanWith_scanned (score : Z -> Num) (height : Z) :
  0 <= height ->
  (forall y, 0 <= y < height -> exists q, score y = Fin q) ->
  scanned score height (scanWith score height).
Proof.
  intros Hh Hfin. unfold scanWith, forRange.
  apply scan_scanned;
    [assumption|lia|reflexivity|left; split; reflexivity].
Qed.

(** The scan of [findExactCutInZone] is [scanWith] at the scores of the
    rows of the zone. *)
Lemma findExactCutInZone_scanWith (ctx : Canvas) (width startY endY : Z)
    (data : list Z) :
  startY < endY ->
  getImageData ctx startY width (endY - startY) = Some data ->
  findExactCutInZone ctx width startY endY
  = Some (startY
          + fst (scanWith (rowScore data width (endY - startY))
                          (endY - startY))).
Proof.
  intros Hlt Hdata. unfold findExactCutInZone.
  assert (E : (startY >=? endY) = false).
  { destruct (startY >=? endY) eqn:E'; [|reflexivity].
    apply Z.geb_le in E'. lia. }
  rewrite E, Hdata.
  change (fold_left (scanStep data width (endY - startY))
                    (forRange 0 (endY - startY) 1) (-1, Infinity))
    with (scanWith (rowScore data width (endY - startY)) (endY - startY)).
  now destruct (scanWith _ _).
Qed.

(** With the scores of the model, the row returned for a zone has the
    least score of the zone, and every row above it a strictly larger
    one. *)
Lemma findExactCutInZone_first_minimum
    (ctx : Canvas) (width startY endY cut : Z) (data : list Z) :
  startY < endY -> 0 < width ->
  findExactCutInZone ctx width startY endY = Some cut ->
  getImageData ctx startY width (endY - startY) = Some data ->
  exists m,
    rowScore data width (endY - startY) (cut - startY) = Fin m /\
    forall y, 0 <= y < endY - startY ->
      exists q, rowScore data width (endY - startY) y = Fin q /\
                (m <= q)%Q /\ (y < cut - startY -> (m < q)%Q).
Proof.
  intros Hlt Hw Hcut Hdata.
  destruct (findExactCutInZone_range ctx width startY endY Hlt Hw)
    as (cut' & data' & Hc' & _ & Hd' & Hfin).
  rewrite Hdata in Hd'. inversion Hd'; subst data'; clear Hd'.
  rewrite (findExactCutInZone_scanWith ctx width startY endY data Hlt Hdata)
    in Hcut.
  inversion Hcut; subst cut; clear Hcut.
  destruct (scanWith_scanned (rowScore data width (endY - startY))
              (endY - startY) ltac:(lia) Hfin)
    as [[H0 _]|(Hb & m & _ & Hbm & Hall)]; [lia|].
  replace (startY + fst (scanWith (rowScore data width (endY - startY))
                                  (endY - startY)) - startY)
    with (fst (scanWith (rowScore data width (endY - startY))
                        (endY - startY))) by lia.
  exists m. split; assumption.
Qed.

(** X1: the scan of [findExactCutInZone] over a zone of at least one
    row, whatever finite scores its rows have, ends on a row of the
    zone with that row's score as the least seen; no row of the zone
    has a smaller score, and every row above the one returned has a
    strictly larger score. *)
Theorem scan_returns_first_minimum :
  forall (score : Z -> Q) (height : Z),
    0 < height ->
    exists best : Z,
      scanWith (fun y => Fin (score y)) height = (best, Below (score best)) /\
      0 <= best < height /\
      forall y, 0 <= y < height ->
        (score best <= score y)%Q /\ (y < best -> (score best < score y)%Q).
Proof.
  intros score height Hh.
  destruct (scanWith_scanned (fun y => Fin (score y)) height ltac:(lia))
    as [[H0 _]|(Hb & m & Hm & Hbm & Hall)]; [eauto|lia|].
  destruct (scanWith (fun y => Fin (score y)) height) as [best bound].
  simpl in *. subst bound. inversion Hbm; subst m; clear Hbm.
  exists best. split; [reflexivity|]. split; [assumption|].
  intros y Hy. destruct (Hall y Hy) as (q & Hq & Hle & Hlt).
  inversion Hq; subst q. split; assumption.
Qed.

(** ** Row statistics depend on the bytes of that row only *)

Lemma forRangeFuel_unit_nth (fuel : nat) (x stop : Z) (k : nat) :
  fuel = Z.to_nat (stop - x) -> (k < fuel)%nat ->
  nth_error (forRangeFuel fuel x stop 1) k = Some (x + Z.of_nat k).
Proof.
  revert x k. induction fuel as [|fuel IH]; intros x k Hf Hk; [lia|].
  cbn [forRangeFuel].
  assert (E : (x <? stop) = true) by (apply Z.ltb_lt; lia). rewrite E.
  destruct k as [|k]; [simpl; f_equal; lia|].
  cbn [nth_error]. rewrite IH by lia. f_equal. lia.
Qed.

Lemma nth_flat_map_block {A B : Type} (f : A -> list B) (n : nat) (d : B) :
  (forall a, length (f a) = n) ->
  forall (l : list A) (i j : nat) (a : A),
    nth_error l i = Some a -> (j < n)%nat ->
    nth (i * n + j) (flat_map f l) d = nth j (f a) d.
Proof.
  intros Hlen l. induction l as [|b l IH]; intros i j a Hi Hj.
  - destruct i; discriminate.
  - destruct i as [|i]; simpl in Hi.
    + inversion Hi; subst b. simpl. rewrite app_nth1; [reflexivity|].
      rewrite Hlen. exact Hj.
    + cbn [flat_map]. rewrite app_nth2 by (rewrite Hlen; lia).
      rewrite Hlen. replace (S i * n + j - n)%nat with (i * n + j)%nat by lia.
      now apply IH.
Qed.

(** A byte of local row [y] of an extracted region is the byte of row
    [sy + y] of the canvas. *)
Lemma region_byte (c : Canvas) (sy sw sh y j : Z) (data : list Z) :
  getImageData c sy sw sh = Some data ->
  0 <= sw -> 0 <= y < sh -> 0 <= j < 4 * sw ->
  byteAt data (y * sw * 4 + j) = byteAt (canvasRow c sw (sy + y)) j.
Proof.
  intros Hd Hw Hy Hj. unfold getImageData in Hd.
  destruct (_ || _); [discriminate|]. inversion Hd; subst data; clear Hd.
  unfold byteAt. f_equal.
  replace (Z.to_nat (y * sw * 4 + j))
    with (Z.to_nat y * Z.to_nat (4 * sw) + Z.to_nat j)%nat by nia.
  rewrite (nth_flat_map_block _ (Z.to_nat (4 * sw)) 0
             (fun r => canvasRow_length c sw (sy + r))
             (forRange 0 sh 1) (Z.to_nat y) (Z.to_nat j) y).
  - reflexivity.
  - unfold forRange. rewrite forRangeFuel_unit_nth; [f_equal; lia|reflexivity|lia].
  - lia.
Qed.

Lemma sumOver_ext (f g : Z -> Q) (l : list Z) :
  (forall x, In x l -> f x = g x) -> sumOver f l = sumOver g l.
Proof.
  unfold sumOver. generalize (inject_Z 0). induction l as [|x l IH]; intros a H.
  - reflexivity.
  - cbn [fold_left]. rewrite (H x (or_introl eq_refl)). apply IH.
    intros z Hz. apply H. now right.
Qed.

(** The statistics of a row of an extracted region are those of the row of
    the canvas it was copied from. *)
Lemma calculateRowEnergy_row_local :
  forall (c : Canvas) (width sy sh y : Z) (data : list Z),
    0 < width -> 0 <= y < sh ->
    getImageData c sy width sh = Some data ->
    calculateRowEnergy data width y
    = calculateRowEnergy (canvasRow c width (sy + y)) width 0.
Proof.
  intros c width sy sh y data Hw Hy Hd.
  pose proof (getImageData_length c sy width sh data ltac:(lia) ltac:(lia) Hd) as Hlen.
  rewrite (calculateRowEnergy_exact data width y) by (try lia; nia).
  rewrite (calculateRowEnergy_exact (canvasRow c width (sy + y)) width 0)
    by (try lia; rewrite canvasRow_length; lia).
  assert (Hx : forall x, In x (sampledColumns width) -> 0 <= x < width - 2)
    by (intros x; apply forRange_bounds; unfold STRIDE; lia).
  f_equal; f_equal; f_equal.
  - apply sumOver_ext. intros x Hin. specialize (Hx x Hin).
    unfold strideDelta, STRIDE.
    replace (y * width * 4 + (x + 2) * 4 + 1)
      with (y * width * 4 + ((x + 2) * 4 + 1)) by lia.
    replace (y * width * 4 + (x + 2) * 4 + 2)
      with (y * width * 4 + ((x + 2) * 4 + 2)) by lia.
    replace (y * width * 4 + x * 4 + 1) with (y * width * 4 + (x * 4 + 1)) by lia.
    replace (y * width * 4 + x * 4 + 2) with (y * width * 4 + (x * 4 + 2)) by lia.
    rewrite !(region_byte c sy width sh y _ data Hd) by lia.
    replace (0 * width * 4 + (x + 2) * 4 + 1) with ((x + 2) * 4 + 1) by lia.
    replace (0 * width * 4 + (x + 2) * 4 + 2) with ((x + 2) * 4 + 2) by lia.
    replace (0 * width * 4 + (x + 2) * 4) with ((x + 2) * 4) by lia.
    replace (0 * width * 4 + x * 4 + 1) with (x * 4 + 1) by lia.
    replace (0 * width * 4 + x * 4 + 2) with (x * 4 + 2) by lia.
    replace (0 * width * 4 + x * 4) with (x * 4) by lia.
    reflexivity.
  - apply sumOver_ext. intros x Hin. specialize (Hx x Hin).
    unfold channelMean.
    replace (y * width * 4 + x * 4 + 1) with (y * width * 4 + (x * 4 + 1)) by lia.
    replace (y * width * 4 + x * 4 + 2) with (y * width * 4 + (x * 4 + 2)) by lia.
    rewrite !(region_byte c sy width sh y _ data Hd) by lia.
    replace (0 * width * 4 + x * 4 + 1) with (x * 4 + 1) by lia.
    replace (0 * width * 4 + x * 4 + 2) with (x * 4 + 2) by lia.
    replace (0 * width * 4 + x * 4) with (x * 4) by lia.
    reflexivity.
Qed.

(** X2: the statistics of local row [y] of the region extracted at
    [startY] are the statistics of row [startY + y] of the canvas taken
    alone. *)
Theorem row_statistics_are_row_local :
  forall (c : Canvas) (width sy sh y : Z) (data : list Z),
    0 < width -> 0 <= y < sh ->
    getImageData c sy width sh = Some data ->
    calculateRowEnergy data width y
    = calculateRowEnergy (canvasRow c width (sy + y)) width 0.
Proof.
  exact calculateRowEnergy_row_local.
Qed.

(** ** A featureless zone is cut in its middle *)


Lemma centerDistance_twice (h y : Z) :
  (centerDistance h y == Z.abs (2 * y - h) # 2)%Q.
Proof.
  remember (2 * y - h) as z eqn:Hz.
  unfold centerDistance, Qeq, Qabs, Qminus, Qplus, Qopp, Qdiv, Qmult, Qinv, inject_Z.
  simpl. lia.
Qed.

Lemma centerDistance_middle (h y : Z) :
  0 < h -> 0 <= y ->
  (centerDistance h (h / 2) <= centerDistance h y)%Q /\
  (y < h / 2 -> (centerDistance h (h / 2) < centerDistance h y)%Q).
Proof.
  intros Hh Hy. rewrite !centerDistance_twice.
  pose proof (Z.div_mod h 2 ltac:(lia)) as Hd.
  pose proof (Z.mod_pos_bound h 2 ltac:(lia)) as Hm.
  remember (h / 2) as k eqn:Hk. remember (h mod 2) as r eqn:Hr.
  remember (2 * k - h) as a eqn:Ha. remember (2 * y - h) as b eqn:Hb.
  unfold Qle, Qlt. simpl.
  split; [|intros Hlt]; lia.
Qed.

(** The score of a row whose statistics are [st], as a function of its
    distance from the middle. *)
Lemma rowScore_of_stats (data : list Z) (width height y : Z) (e b : Q) :
  0 < height ->
  calculateRowEnergy data width y = {| energy := Fin e; brightness := Fin b |} ->
  rowScore data width height y
  = Fin ((if gt (Fin b) (ofZ 240) || lt (Fin b) (ofZ 20)
          then e - inject_Z 30 else e)
         + centerDistance height y / (inject_Z height / inject_Z 2) * (1 # 2)).
Proof.
  intros Hh E. unfold rowScore. rewrite E. cbn [energy brightness]. unfold ofZ.
  assert (H2 : ~ (inject_Z 2 == 0)%Q) by (apply inject_Z_nonzero; lia).
  rewrite (div_Fin _ _ H2).
  assert (Hhalf : ~ (inject_Z height / inject_Z 2 == 0)%Q).
  { unfold Qeq, Qdiv, Qmult, Qinv. simpl. lia. }
  destruct (gt (Fin b) (Fin (inject_Z 240)) || lt (Fin b) (Fin (inject_Z 20)));
    cbn [sub abs]; rewrite (div_Fin _ _ Hhalf); reflexivity.
Qed.

Lemma half_positive (h : Z) : 0 < h -> (0 < inject_Z h / inject_Z 2)%Q.
Proof. intros Hh. unfold Qlt, Qdiv, Qmult, Qinv. simpl. lia. Qed.

Lemma score_monotone (base c a b : Q) :
  (0 < c)%Q ->
  ((a <= b)%Q -> (base + a / c * (1 # 2) <= base + b / c * (1 # 2))%Q) /\
  ((a < b)%Q -> (base + a / c * (1 # 2) < base + b / c * (1 # 2))%Q).
Proof.
  intros Hc. assert (Hi : (0 < / c)%Q) by now apply Qinv_lt_0_compat.
  split; intros H.
  - apply Qplus_le_r. apply Qmult_le_compat_r; [|discriminate].
    unfold Qdiv. apply Qmult_le_compat_r; [assumption|now apply Qlt_le_weak].
  - apply Qplus_lt_r. apply Qmult_lt_compat_r; [reflexivity|].
    unfold Qdiv. now apply Qmult_lt_compat_r.
Qed.

(** X3: when all the rows of a zone hold the same bytes, the cut is the
    middle row of the zone, [startY + (endY - startY) / 2] (integer
    division). *)
Theorem featureless_zone_is_cut_in_the_middle :
  forall (ctx : Canvas) (width startY endY : Z),
    startY < endY -> 0 < width ->
    (forall y, startY <= y < endY ->
       canvasRow ctx width y = canvasRow ctx width startY) ->
    findExactCutInZone ctx width startY endY
    = Some (startY + (endY - startY) / 2).
Proof.
  intros ctx width startY endY Hlt Hw Hsame.
  destruct (findExactCutInZone_range ctx width startY endY Hlt Hw)
    as (cut & data & Hcut & Hr & Hd & _).
  destruct (findExactCutInZone_first_minimum ctx width startY endY cut data
              Hlt Hw Hcut Hd) as (m & Hm & Hall).
  set (h := endY - startY) in *.
  assert (Hh : 0 < h) by (unfold h; lia).
  pose proof (getImageData_length ctx startY width h data ltac:(lia) ltac:(lia) Hd)
    as Hlen.
  destruct (calculateRowEnergy_finite data width 0 Hw ltac:(lia) ltac:(nia))
    as (e & b & E0).
  assert (Hstats : forall y, 0 <= y < h ->
            calculateRowEnergy data width y
            = {| energy := Fin e; brightness := Fin b |}).
  { intros y Hy. rewrite <- E0.
    rewrite (calculateRowEnergy_row_local ctx width startY h y data Hw Hy Hd).
    rewrite (calculateRowEnergy_row_local ctx width startY h 0 data Hw ltac:(lia) Hd).
    rewrite (Hsame (startY + y)) by lia.
    now rewrite (Hsame (startY + 0)) by lia. }
  set (base := if gt (Fin b) (ofZ 240) || lt (Fin b) (ofZ 20)
               then (e - inject_Z 30)%Q else e) in *.
  assert (Hscore : forall y, 0 <= y < h ->
            rowScore data width h y
            = Fin (base + centerDistance h y / (inject_Z h / inject_Z 2) * (1 # 2)))
    by (intros y Hy; apply rowScore_of_stats; auto).
  pose proof (half_positive h Hh) as Hc.
  assert (Hmid : 0 <= h / 2 < h)
    by (split; [apply Z.div_pos; lia|apply Z.div_lt_upper_bound; lia]).
  rewrite Hcut. f_equal. set (best := cut - startY) in *.
  assert (Hb : 0 <= best < h) by (unfold best, h; lia).
  rewrite (Hscore best Hb) in Hm. inversion Hm as [Hm']; clear Hm.
  destruct (Z.lt_trichotomy best (h / 2)) as [Hlo|[Heq|Hhi]].
  - (* the middle would have a strictly smaller score *)
    exfalso. destruct (Hall (h / 2) Hmid) as (q & Hq & Hle & _).
    rewrite (Hscore (h / 2) Hmid) in Hq. inversion Hq as [Hq']; clear Hq.
    rewrite <- Hm', <- Hq' in Hle.
    destruct (centerDistance_middle h best Hh ltac:(lia)) as [_ Hstrict].
    apply (proj2 (score_monotone base _ _ _ Hc)) in Hstrict; [|assumption].
    now apply (Qlt_not_le _ _ Hstrict).
  - unfold best, h in *. lia.
  - (* the middle comes first and scores no more *)
    exfalso. destruct (Hall (h / 2) Hmid) as (q & Hq & _ & Hstrict).
    rewrite (Hscore (h / 2) Hmid) in Hq. inversion Hq as [Hq']; clear Hq.
    specialize (Hstrict Hhi). rewrite <- Hm', <- Hq' in Hstrict.
    destruct (centerDistance_middle h best Hh ltac:(lia)) as [Hle _].
    apply (proj1 (score_monotone base _ _ _ Hc)) in Hle.
    now apply (Qlt_not_le _ _ Hstrict).
Qed.


(** ** Cuts without hints *)

Lemma nextCut_fallback (ctx : Canvas) (cur cut : Z) :
  0 < cwidth ctx ->
  cur + TARGET_CHUNK_HEIGHT < cheight ctx ->
  nextCut ctx [] cur (cur + TARGET_CHUNK_HEIGHT) = Some cut ->
  cur + 2200 <= cut <= cur + 2799 /\ cut <= cheight ctx - 11.
Proof.
  intros Hw Hdes. unfold nextCut, TARGET_CHUNK_HEIGHT in *. simpl zoneRows.
  cbv iota. simpl (-1 =? -1). cbv iota. unfold fallbackRows.
  destruct (findExactCutInZone _ _ _ _) as [c|] eqn:E; [|discriminate].
  apply findExactCutInZone_result in E; [|assumption].
  intros H. inversion H; subst cut; clear H.
  destruct (c <=? cur) eqn:Ec; [apply Z.leb_le in Ec|apply Z.leb_gt in Ec]; lia.
Qed.

Lemma gapsBetween_snoc (lo hi : Z) (l : list Z) (a b : Z) :
  gapsBetween lo hi (l ++ [a]) -> lo <= b - a <= hi ->
  gapsBetween lo hi ((l ++ [a]) ++ [b]).
Proof.
  induction l as [|x l IH]; intros Hg Hab.
  - simpl. tauto.
  - destruct l as [|y l].
    + simpl in *. tauto.
    + change (gapsBetween lo hi (x :: (y :: l ++ [a]) ++ [b])).
      change (gapsBetween lo hi (x :: y :: l ++ [a])) in Hg.
      destruct Hg as [Hxy Hg]. split; [assumption|].
      now apply (IH Hg).
Qed.

Lemma cutLoop_fallback (ctx : Canvas) (fuel : nat) :
  0 < cwidth ctx ->
  forall (pts : list Z) (cur : Z) (out : list Z),
    gapsBetween 2200 2799 (pts ++ [cur]) ->
    cur + TARGET_CHUNK_HEIGHT < cheight ctx \/ cur <= cheight ctx - 11 ->
    cutLoop fuel ctx [] (pts ++ [cur]) cur = Done out ->
    exists cuts last,
      out = cuts ++ [last] /\
      gapsBetween 2200 2799 out /\
      11 <= cheight ctx - last <= TARGET_CHUNK_HEIGHT.
Proof.
  intros Hw. induction fuel as [|fuel IH]; intros pts cur out Hg Hcur;
    cbn [cutLoop]; [discriminate|].
  destruct (cur <? cheight ctx) eqn:E1.
  - apply Z.ltb_lt in E1.
    destruct (cur + TARGET_CHUNK_HEIGHT >=? cheight ctx) eqn:E2.
    + rewrite Z.geb_leb in E2. apply Z.leb_le in E2.
      intros H. inversion H; subst out. exists pts, cur.
      split; [reflexivity|]. split; [assumption|]. lia.
    + rewrite Z.geb_leb in E2. apply Z.leb_gt in E2.
      destruct (nextCut ctx [] cur (cur + TARGET_CHUNK_HEIGHT)) as [cut|] eqn:E3;
        [|discriminate].
      apply nextCut_fallback in E3; [|assumption|assumption].
      apply IH; [|lia].
      apply gapsBetween_snoc; [assumption|lia].
  - apply Z.ltb_ge in E1. unfold TARGET_CHUNK_HEIGHT in *. lia.
Qed.

Lemma dedupe_NoDup_id (l : list Z) : NoDup l -> dedupe l = l.
Proof.
  unfold dedupe.
  assert (H : forall acc, NoDup (acc ++ l) -> fold_left setAdd l acc = acc ++ l).
  { induction l as [|x l IH]; intros acc Hnd; simpl.
    - now rewrite app_nil_r.
    - assert (Hx : existsb (Z.eqb x) acc = false).
      { destruct (existsb (Z.eqb x) acc) eqn:E; [|reflexivity].
        apply existsb_exists in E. destruct E as [y [Hy Hxy]].
        apply Z.eqb_eq in Hxy. subst y.
        apply NoDup_remove_2 in Hnd. exfalso. apply Hnd.
        apply in_or_app. now left. }
      unfold setAdd at 2. rewrite Hx.
      rewrite IH; rewrite <- app_assoc; [reflexivity|assumption]. }
  intros Hnd. now rewrite (H [] Hnd).
Qed.

Lemma sortAsc_sorted_id (l : list Z) : StronglySorted Z.lt l -> sortAsc l = l.
Proof.
  induction 1 as [|x l Hs IH Hx]; [reflexivity|].
  simpl. rewrite IH. destruct l as [|y l]; [reflexivity|].
  simpl. inversion Hx; subst.
  assert (E : (x <=? y) = true) by (apply Z.leb_le; lia).
  now rewrite E.
Qed.

Lemma sorted_NoDup (l : list Z) : StronglySorted Z.lt l -> NoDup l.
Proof.
  induction 1 as [|x l Hs IH Hx]; constructor; [|assumption].
  intros Hin. rewrite Forall_forall in Hx. specialize (Hx x Hin). lia.
Qed.

(** The cut list of an image more than 3000 rows high when no hint is
    given. *)
Lemma uniquePoints_without_hints :
  forall ctx : Canvas,
    0 < cwidth ctx -> 3000 < cheight ctx ->
    exists cuts last,
      uniquePoints ctx [] = Done ((0 :: cuts ++ [last]) ++ [cheight ctx]) /\
      gapsBetween 2200 2799 (0 :: cuts ++ [last]) /\
      11 <= cheight ctx - last <= TARGET_CHUNK_HEIGHT.
Proof.
  intros ctx Hw Hh.
  destruct (cutLoop_total ctx [] (loopFuel ctx) Hw [0] 0) as [out Hout];
    [unfold loopFuel; lia|].
  destruct (cutLoop_done ctx [] (loopFuel ctx) [] 0 out)
    as (_ & _ & _ & Hs & _ & more & Hmore); [repeat constructor|exact Hout|].
  destruct (cutLoop_fallback ctx (loopFuel ctx) Hw [] 0 out)
    as (cuts & last & E & Hg & Hl); [exact I|unfold TARGET_CHUNK_HEIGHT; lia|exact Hout|].
  simpl in Hmore.
  (* the loop ran at least once, so the list has at least two points *)
  assert (Hmore' : exists cuts', cuts = 0 :: cuts').
  { destruct cuts as [|c cuts'].
    - simpl in E. rewrite E in Hmore. inversion Hmore; subst.
      unfold TARGET_CHUNK_HEIGHT in Hl. lia.
    - rewrite E in Hmore. inversion Hmore. eauto. }
  destruct Hmore' as [cuts' ->].
  exists cuts', last. change (0 :: cuts' ++ [last]) with ((0 :: cuts') ++ [last]).
  rewrite <- E. split; [|split; [assumption|assumption]].
  unfold uniquePoints. rewrite Hout. f_equal.
  assert (Hsorted : StronglySorted Z.lt (out ++ [cheight ctx])).
  { apply sorted_snoc; [assumption|].
    rewrite E in Hs |- *. apply Forall_app. split.
    - apply sorted_snoc_inv in Hs. revert Hs. apply Forall_impl. intros; lia.
    - repeat constructor. lia. }
  rewrite dedupe_NoDup_id by now apply sorted_NoDup.
  now apply sortAsc_sorted_id.
Qed.

(** X7: without hints, on an image more than 3000 rows high and at
    least one pixel wide, the finalized cut list is 0, then cuts that
    are each 2200 to 2799 rows after the one before, then the image
    height, which is 11 to 2500 rows after the last cut. *)
Theorem cuts_without_hints :
  forall ctx : Canvas,
    0 < cwidth ctx -> 3000 < cheight ctx ->
    exists cuts last,
      uniquePoints ctx [] = Done ((0 :: cuts ++ [last]) ++ [cheight ctx]) /\
      gapsBetween 2200 2799 (0 :: cuts ++ [last]) /\
      11 <= cheight ctx - last <= TARGET_CHUNK_HEIGHT.
Proof.
  exact uniquePoints_without_hints.
Qed.

(** ** The chunks that are emitted *)

Lemma drawChunk_wf (ctx : Canvas) (y1 h : Z) :
  0 <= cwidth ctx -> 0 <= h -> canvas_wf (drawChunk ctx y1 h).
Proof.
  intros Hw Hh. unfold canvas_wf, drawChunk. cbn [cwidth cheight bitmap].
  split; [assumption|]. split; [assumption|]. split.
  - rewrite length_map. apply forRange_unit_length.
  - apply Forall_forall. intros row Hrow. apply in_map_iff in Hrow.
    destruct Hrow as [r [<- _]]. apply canvasRow_length.
Qed.

(** *** The names of the chunks *)

Lemma allWordChars_dot (a b : string) :
  allWordChars (a ++ String "."%char b) = false.
Proof.
  induction a as [|c a IH]; simpl.
  - reflexivity.
  - rewrite IH. apply andb_false_r.
Qed.

Lemma insert_with_extension (insert base ext : string) :
  ext <> EmptyString -> allWordChars ext = true ->
  insertBeforeExtension insert (base ++ String "."%char ext)
  = (base ++ insert ++ String "."%char ext)%string.
Proof.
  intros Hne Hw. induction base as [|c base IH]; simpl.
  - rewrite Hw. destruct ext; [congruence|]. reflexivity.
  - rewrite allWordChars_dot, andb_false_r. now rewrite IH.
Qed.

Lemma insert_without_dot (insert name : string) :
  dotFree name = true -> insertBeforeExtension insert name = name.
Proof.
  induction name as [|c name IH]; simpl; [reflexivity|].
  intros H. apply andb_prop in H. destruct H as [Hc Hn].
  apply negb_true_iff in Hc. rewrite Hc. simpl. now rewrite IH.
Qed.

Lemma append_length (a b : string) :
  String.length (a ++ b) = (String.length a + String.length b)%nat.
Proof. induction a as [|c a IH]; simpl; [reflexivity|now rewrite IH]. Qed.

Lemma append_cancel_l (a s1 s2 : string) :
  (a ++ s1)%string = (a ++ s2)%string -> s1 = s2.
Proof.
  induction a as [|c a IH]; simpl; [auto|].
  intros H. injection H as H. now apply IH.
Qed.

Lemma append_cancel_r (t s1 s2 : string) :
  (s1 ++ t)%string = (s2 ++ t)%string -> s1 = s2.
Proof.
  revert s2. induction s1 as [|c s1 IH]; intros [|d s2] H; simpl in H.
  - reflexivity.
  - apply (f_equal String.length) in H. simpl in H.
    rewrite append_length in H. lia.
  - apply (f_equal String.length) in H. simpl in H.
    rewrite append_length in H. lia.
  - injection H as -> H. f_equal. now apply IH.
Qed.

Lemma numberToString_inj (m n : Z) :
  numberToString m = numberToString n -> m = n.
Proof.
  unfold numberToString. intros H.
  apply DecimalZ.to_int_inj.
  pose proof (NilEmpty.isi (Z.to_int m)) as Hm.
  pose proof (NilEmpty.isi (Z.to_int n)) as Hn.
  rewrite H in Hm. congruence.
Qed.

Lemma partName_with_extension (base ext : string) (k : Z) :
  ext <> EmptyString -> allWordChars ext = true ->
  partName (base ++ String "."%char ext) k
  = (base ++ "_part_" ++ numberToString k ++ String "."%char ext)%string.
Proof.
  intros Hne Hw. unfold partName.
  rewrite (insert_with_extension _ base ext Hne Hw).
  f_equal.
Qed.

Lemma partName_inj (base ext : string) (m n : Z) :
  ext <> EmptyString -> allWordChars ext = true ->
  partName (base ++ String "."%char ext) m
  = partName (base ++ String "."%char ext) n ->
  m = n.
Proof.
  intros Hne Hw H. rewrite !partName_with_extension in H by assumption.
  apply append_cancel_l in H. simpl in H.
  injection H as H. apply append_cancel_r in H.
  now apply numberToString_inj.
Qed.

(** The chunks and the loop indices that they come from. *)
Lemma chunkLoop_names (ctx : Canvas) (file : File) (points : list Z) :
  forall i : Z,
    exists ks,
      map fname (chunkLoop ctx file i points) = map (partName (fname file)) ks /\
      StronglySorted Z.lt ks /\
      Forall (fun k => i < k <= i + Z.of_nat (length points) - 1) ks.
Proof.
  induction points as [|y1 points IH]; intros i.
  - exists []. repeat constructor.
  - destruct points as [|y2 rest].
    + exists []. repeat constructor.
    + rewrite chunkLoop_step. destruct (IH (i + 1)) as (ks & Hks & Hs & Hr).
      assert (Hr' : Forall (fun k => i + 1 < k
                                     <= i + Z.of_nat (length (y1 :: y2 :: rest)) - 1)
                           ks).
      { revert Hr. apply Forall_impl. intros k Hk.
        change (length (y1 :: y2 :: rest)) with (S (length (y2 :: rest))). lia. }
      destruct (y2 - y1 <? 100).
      * exists ks. split; [assumption|]. split; [assumption|].
        revert Hr'. apply Forall_impl. intros; lia.
      * exists ((i + 1) :: ks). cbn [map fname]. rewrite Hks.
        split; [reflexivity|]. split.
        -- constructor; [assumption|].
           revert Hr'. apply Forall_impl. intros; lia.
        -- constructor.
           ++ change (length (y1 :: y2 :: rest)) with (S (S (length rest))). lia.
           ++ revert Hr'. apply Forall_impl. intros; lia.
Qed.

Lemma chunkLoop_pictures (ctx : Canvas) (file : File) (points : list Z) :
  0 <= cwidth ctx ->
  forall i : Z,
    Forall (fun f => canvas_wf (pixels f) /\
                     cwidth (pixels f) = cwidth ctx /\
                     100 <= cheight (pixels f))
           (chunkLoop ctx file i points).
Proof.
  intros Hw. induction points as [|y1 points IH]; intros i.
  - constructor.
  - destruct points as [|y2 rest]; [constructor|].
    rewrite chunkLoop_step. destruct (y2 - y1 <? 100) eqn:E; [apply IH|].
    apply Z.ltb_ge in E. constructor; [|apply IH]. cbn [pixels].
    split; [apply drawChunk_wf; lia|]. split; [reflexivity|exact E].
Qed.

Lemma sorted_lt_NoDup (l : list Z) : StronglySorted Z.lt l -> NoDup l.
Proof.
  induction 1 as [|x l Hs IH Hall]; constructor; [|exact IH].
  intros Hin. rewrite Forall_forall in Hall. specialize (Hall x Hin). lia.
Qed.

Lemma NoDup_map_injective {A B : Type} (f : A -> B) (l : list A) :
  (forall x y, f x = f y -> x = y) -> NoDup l -> NoDup (map f l).
Proof.
  intros Hinj. induction 1 as [|x l Hx Hl IH]; simpl; constructor; [|exact IH].
  intros Hin. apply in_map_iff in Hin. destruct Hin as [y [Hy Hyin]].
  apply Hinj in Hy. now subst y.
Qed.

(** X8: every chunk that is emitted is a well-formed picture of the
    width of the source and at least 100 rows high.  Its name is the
    source's name with [_part_N] put before the extension, [N] being
    one more than the index of its interval: for a source name
    [base.ext] (an extension of letters, digits, [_] and [-]) the
    chunks are named [base_part_N.ext] and no two chunks share a name;
    for a source name without a dot every chunk carries the source's
    name unchanged. *)
Theorem emitted_chunks_are_well_formed :
  forall (ctx : Canvas) (file : File) (points : list Z) (i : Z),
    0 <= cwidth ctx ->
    Forall (fun f => canvas_wf (pixels f) /\
                     cwidth (pixels f) = cwidth ctx /\
                     100 <= cheight (pixels f))
           (chunkLoop ctx file i points) /\
    (exists ks,
        StronglySorted Z.lt ks /\
        Forall (fun k => i < k <= i + Z.of_nat (length points) - 1) ks /\
        forall base ext,
          fname file = (base ++ String "."%char ext)%string ->
          ext <> EmptyString -> allWordChars ext = true ->
          map fname (chunkLoop ctx file i points)
          = map (fun k => (base ++ "_part_" ++ numberToString k
                                ++ String "."%char ext)%string) ks /\
          NoDup (map fname (chunkLoop ctx file i points))) /\
    (dotFree (fname file) = true ->
     Forall (fun f => fname f = fname file) (chunkLoop ctx file i points)).
Proof.
  intros ctx file points i Hw.
  destruct (chunkLoop_names ctx file points i) as (ks & Hks & Hs & Hr).
  split; [now apply chunkLoop_pictures|]. split.
  - exists ks. split; [exact Hs|]. split; [exact Hr|].
    intros base ext Hname Hne Hword. rewrite Hks, Hname. split.
    + apply map_ext. intros k. now apply partName_with_extension.
    + apply NoDup_map_injective; [|now apply sorted_lt_NoDup].
      intros m n. now apply partName_inj.
  - intros Hdot.
    assert (H : Forall (fun n => n = fname file)
                       (map fname (chunkLoop ctx file i points))).
    { rewrite Hks. apply Forall_forall. intros n Hn.
      apply in_map_iff in Hn. destruct Hn as [k [<- _]].
      unfold partName. now apply insert_without_dot. }
    rewrite Forall_map in H. exact H.
Qed.

(** ** The zone that is chosen *)


Lemma closerZone_le (h des : Z) (prev curr : Zone) :
  (zoneDistance h des (closerZone h des prev curr) <= zoneDistance h des prev)%Q /\
  (zoneDistance h des (closerZone h des prev curr) <= zoneDistance h des curr)%Q.
Proof.
  unfold closerZone, zoneDistance.
  destruct (Qltb _ _) eqn:E.
  - apply Qltb_lt in E. split; [now apply Qlt_le_weak|apply Qle_refl].
  - apply Qltb_ge in E. split; [apply Qle_refl|assumption].
Qed.

Lemma closest_fold (h des : Z) (rest : list Zone) (prev : Zone) :
  (zoneDistance h des (fold_left (closerZone h des) rest prev)
   <= zoneDistance h des prev)%Q /\
  forall z, In z rest ->
    (zoneDistance h des (fold_left (closerZone h des) rest prev)
     <= zoneDistance h des z)%Q.
Proof.
  revert prev. induction rest as [|c rest IH]; intros prev; cbn [fold_left].
  - split; [apply Qle_refl|intros z []].
  - destruct (IH (closerZone h des prev c)) as [H1 H2].
    destruct (closerZone_le h des prev c) as [Hp Hc]. split.
    + eapply Qle_trans; eassumption.
    + intros z [<-|Hz]; [eapply Qle_trans; eassumption|now apply H2].
Qed.

(** The zone chosen by the model of the cut loop, whatever the hints. *)
Lemma zoneRows_nearest :
  forall (h cur des : Z) (zones : list Zone),
    (forall a b,
        zoneRows h cur des zones = Some (a, b) ->
        exists z,
          In z zones /\
          (inject_Z (cur + 100) < zoneMid h z)%Q /\
          (zoneDistance h des z < inject_Z 1800)%Q /\
          a = floor (start_percent z * inject_Z h) /\
          b = floor (end_percent z * inject_Z h) /\
          forall z', In z' zones -> (inject_Z (cur + 100) < zoneMid h z')%Q ->
                     (zoneDistance h des z <= zoneDistance h des z')%Q) /\
    (zoneRows h cur des zones = None ->
     forall z', In z' zones -> (inject_Z (cur + 100) < zoneMid h z')%Q ->
                (inject_Z 1800 <= zoneDistance h des z')%Q).
Proof.
  intros h cur des zones.
  assert (Hvalid : forall z, In z (validZones h cur zones) <->
                    In z zones /\ (inject_Z (cur + 100) < zoneMid h z)%Q).
  { intros z. unfold validZones. rewrite filter_In, Qltb_lt. tauto. }
  unfold zoneRows.
  destruct (validZones h cur zones) as [|z0 rest] eqn:E.
  - split; [discriminate|]. intros _ z' Hz' Hm.
    exfalso. apply (proj2 (Hvalid z')). tauto.
  - pose proof (closerZone_In h des rest z0) as Hin.
    destruct (closest_fold h des rest z0) as [H0 Hrest].
    set (best := fold_left (closerZone h des) rest z0) in *.
    assert (Hmin : forall z', In z' zones -> (inject_Z (cur + 100) < zoneMid h z')%Q ->
                     (zoneDistance h des best <= zoneDistance h des z')%Q).
    { intros z' Hz' Hm. assert (Hv : In z' (z0 :: rest)) by (apply Hvalid; tauto).
      destruct Hv as [<-|Hv]; [assumption|now apply Hrest]. }
    change (Qabs (zoneMid h best - inject_Z des)) with (zoneDistance h des best).
    destruct (Qltb (zoneDistance h des best) (inject_Z 1800)) eqn:Ed.
    + split; [|discriminate]. intros a b H. inversion H; subst a b; clear H.
      apply Qltb_lt in Ed. apply Hvalid in Hin. exists best. tauto.
    + split; [discriminate|]. intros _ z' Hz' Hm. apply Qltb_ge in Ed.
      eapply Qle_trans; [exact Ed|now apply Hmin].
Qed.

Lemma floor_fraction_range (q : Q) (h : Z) :
  exactFraction q -> 0 <= h -> 0 <= floor (q * inject_Z h) <= h.
Proof.
  intros [k [Hk Hq]] Hh. unfold floor.
  assert (Hq01 : (0 <= q /\ q <= 1)%Q)
    by (rewrite Hq; unfold Qle; simpl; lia).
  assert (Hhq : (0 <= inject_Z h)%Q)
    by (change 0%Q with (inject_Z 0); rewrite <- Zle_Qle; lia).
  assert (Hp : (inject_Z 0 <= q * inject_Z h /\ q * inject_Z h <= inject_Z h)%Q)
    by (change (inject_Z 0) with 0%Q; nra).
  destruct Hp as [Hp0 Hp1]. split.
  - rewrite <- (Qfloor_Z 0). now apply Qfloor_resp_le.
  - rewrite <- (Qfloor_Z h) at 2. now apply Qfloor_resp_le.
Qed.

(** X5: for an image less than 2^31 rows high and hints whose two
    fractions are multiples of 1/1024 between 0 and 1 (on which the
    arithmetic of the loop is exact), at a position [cur] of the loop
    with desired cut [cur + 2500]: when a zone is used, it is a hint
    whose middle lies more than 100 rows below the current position
    and less than 1800 rows from the desired cut, no such hint is
    nearer to the desired cut, and the rows scanned are the floors of
    its two fractions times the height, both between 0 and the height;
    when no zone is used, every hint whose middle lies more than 100
    rows below the current position is 1800 rows or more away. *)
Theorem chosen_zone_is_the_nearest :
  forall (h cur des : Z) (zones : list Zone),
    0 <= h < 2 ^ 31 -> 0 <= cur < h -> des = cur + TARGET_CHUNK_HEIGHT ->
    Forall exactZone zones ->
    (forall a b,
        zoneRows h cur des zones = Some (a, b) ->
        exists z,
          In z zones /\
          (inject_Z (cur + 100) < zoneMid h z)%Q /\
          (zoneDistance h des z < inject_Z 1800)%Q /\
          a = floor (start_percent z * inject_Z h) /\
          b = floor (end_percent z * inject_Z h) /\
          0 <= a <= h /\ 0 <= b <= h /\
          forall z', In z' zones -> (inject_Z (cur + 100) < zoneMid h z')%Q ->
                     (zoneDistance h des z <= zoneDistance h des z')%Q) /\
    (zoneRows h cur des zones = None ->
     forall z', In z' zones -> (inject_Z (cur + 100) < zoneMid h z')%Q ->
                (inject_Z 1800 <= zoneDistance h des z')%Q).
Proof.
  intros h cur des zones Hh Hcur Hdes Hexact.
  destruct (zoneRows_nearest h cur des zones) as [Hsome Hnone].
  split; [|exact Hnone].
  intros a b Hab.
  destruct (Hsome a b Hab) as (z & Hz & Hmid & Hd & Ha & Hb & Hmin).
  rewrite Forall_forall in Hexact. destruct (Hexact z Hz) as [Hs He].
  exists z. split; [exact Hz|]. split; [exact Hmid|]. split; [exact Hd|].
  split; [exact Ha|]. split; [exact Hb|].
  split; [subst a; apply floor_fraction_range; [exact Hs|lia]|].
  split; [subst b; apply floor_fraction_range; [exact He|lia]|].
  exact Hmin.
Qed.

(** ** Bounds on the row statistics *)


Lemma byteAt_range (data : list Z) (i : Z) :
  Forall isByte data -> (0 <= byteAt data i /\ byteAt data i <= 255)%Q.
Proof.
  intros Hd. unfold byteAt.
  assert (Hb : isByte (nth (Z.to_nat i) data 0)).
  { destruct (nth_in_or_default (Z.to_nat i) data 0) as [Hin | Heq].
    - rewrite Forall_forall in Hd. now apply Hd.
    - rewrite Heq. unfold isByte. lia. }
  destruct Hb as [H0 H1]. split.
  - change 0%Q with (inject_Z 0). now rewrite <- Zle_Qle.
  - change 255%Q with (inject_Z 255). now rewrite <- Zle_Qle.
Qed.

Lemma channelMean_range (data : list Z) (off x : Z) :
  Forall isByte data ->
  (0 <= channelMean data off x /\ channelMean data off x <= 255)%Q.
Proof.
  intros Hd. unfold channelMean.
  pose proof (byteAt_range data (off + x * 4) Hd).
  pose proof (byteAt_range data (off + x * 4 + 1) Hd).
  pose proof (byteAt_range data (off + x * 4 + 2) Hd).
  change (inject_Z 3) with 3%Q.
  split.
  - apply Qle_shift_div_l; [reflexivity|]. lra.
  - apply Qle_shift_div_r; [reflexivity|]. lra.
Qed.

Lemma Qabs_diff_range (a b : Q) :
  (0 <= a /\ a <= 255)%Q -> (0 <= b /\ b <= 255)%Q ->
  (0 <= Qabs (a - b) /\ Qabs (a - b) <= 255)%Q.
Proof.
  intros Ha Hb. split; [apply Qabs_nonneg|].
  apply Qabs_Qle_condition. split; lra.
Qed.

Lemma strideDelta_range (data : list Z) (off x : Z) :
  Forall isByte data ->
  (0 <= strideDelta data off x /\ strideDelta data off x <= 765)%Q.
Proof.
  intros Hd. unfold strideDelta.
  pose proof (Qabs_diff_range _ _ (byteAt_range data (off + x * 4) Hd)
                (byteAt_range data (off + (x + STRIDE) * 4) Hd)).
  pose proof (Qabs_diff_range _ _ (byteAt_range data (off + x * 4 + 1) Hd)
                (byteAt_range data (off + (x + STRIDE) * 4 + 1) Hd)).
  pose proof (Qabs_diff_range _ _ (byteAt_range data (off + x * 4 + 2) Hd)
                (byteAt_range data (off + (x + STRIDE) * 4 + 2) Hd)).
  lra.
Qed.

Lemma sumOver_range (f : Z -> Q) (M : Q) (l : list Z) :
  (forall x, (0 <= f x /\ f x <= M)%Q) ->
  (0 <= sumOver f l /\ sumOver f l <= inject_Z (Z.of_nat (length l)) * M)%Q.
Proof.
  intros Hf. unfold sumOver.
  assert (H : forall a n, (0 <= a /\ a <= inject_Z n * M)%Q ->
            (0 <= fold_left (fun acc x => (acc + f x)%Q) l a /\
             fold_left (fun acc x => (acc + f x)%Q) l a
             <= inject_Z (n + Z.of_nat (length l)) * M)%Q).
  { induction l as [|x l IH]; intros a n Ha.
    - simpl. now rewrite Z.add_0_r.
    - cbn [fold_left length]. rewrite Nat2Z.inj_succ.
      replace (n + Z.succ (Z.of_nat (length l)))
        with ((n + 1) + Z.of_nat (length l)) by lia.
      apply IH. specialize (Hf x). rewrite inject_Z_plus. change (inject_Z 1) with 1%Q.
      split; [lra|]. destruct Ha as [_ Ha]. destruct Hf as [_ Hf].
      setoid_replace ((inject_Z n + 1) * M)%Q with (inject_Z n * M + M)%Q by ring.
      lra. }
  specialize (H (inject_Z 0) 0). simpl in H. apply H.
  change (inject_Z 0) with 0%Q. lra.
Qed.

(** X4: on a region of bytes, for a row inside it, the energy and the
    brightness are numbers (never NaN), the energy between 0 and 765
    and the brightness between 0 and 255. *)
Theorem row_statistics_are_bounded :
  forall (data : list Z) (width y : Z),
    Forall isByte data ->
    0 < width -> 0 <= y ->
    (y + 1) * width * 4 <= Z.of_nat (length data) ->
    exists e b,
      calculateRowEnergy data width y = {| energy := Fin e; brightness := Fin b |} /\
      (0 <= e /\ e <= 765)%Q /\ (0 <= b /\ b <= 255)%Q.
Proof.
  intros data width y Hd Hw Hy Hlen.
  rewrite (calculateRowEnergy_exact data width y Hw Hy Hlen).
  pose proof (sampledColumns_length width ltac:(lia)) as Hn.
  pose proof (sumOver_range (strideDelta data (y * width * 4)) 765
                (sampledColumns width) (fun x => strideDelta_range data _ x Hd)) as He.
  pose proof (sumOver_range (channelMean data (y * width * 4)) 255
                (sampledColumns width) (fun x => channelMean_range data _ x Hd)) as Hb.
  rewrite Hn in He, Hb.
  set (E := sumOver (strideDelta data (y * width * 4)) (sampledColumns width)) in *.
  set (B := sumOver (channelMean data (y * width * 4)) (sampledColumns width)) in *.
  assert (Hc : 1 <= sampleCount width)
    by (rewrite sampleCount_div; Z.div_mod_to_equations; lia).
  set (c := sampleCount width) in *.
  assert (Hcq : (0 < inject_Z c)%Q).
  { change 0%Q with (inject_Z 0). rewrite <- Zlt_Qlt. lia. }
  assert (Hc1 : (inject_Z (c - 1) <= inject_Z c)%Q) by (rewrite <- Zle_Qle; lia).
  assert (Hc0 : (0 <= inject_Z (c - 1))%Q).
  { change 0%Q with (inject_Z 0). rewrite <- Zle_Qle. lia. }
  assert (Hmul : forall S, (S / inject_Z c * inject_Z c == S)%Q).
  { intros S. field. intros H0. rewrite H0 in Hcq. now apply (Qlt_irrefl 0). }
  exists (E / inject_Z c)%Q, (B / inject_Z c)%Q.
  split; [reflexivity|].
  destruct He as [He0 He1]. destruct Hb as [Hb0 Hb1].
  assert (HeM : (inject_Z (c - 1) * 765 <= 765 * inject_Z c)%Q) by nra.
  assert (HbM : (inject_Z (c - 1) * 255 <= 255 * inject_Z c)%Q) by nra.
  repeat split.
  - apply Qle_shift_div_l; [assumption|]. lra.
  - apply Qle_shift_div_r; [assumption|]. lra.
  - apply Qle_shift_div_l; [assumption|]. lra.
  - apply Qle_shift_div_r; [assumption|]. lra.
Qed.

(** ** Splitting without hints loses at most a short tail *)

Lemma chunkLoop_snoc (c : Canvas) (file : File) (l : list Z) (a b : Z) :
  forall i,
    chunkLoop c file i ((l ++ [a]) ++ [b])
    = chunkLoop c file i (l ++ [a])
      ++ (if b - a <? 100 then []
          else [{| fname := partName (fname file)
                                      (i + Z.of_nat (length l) + 1);
                   pixels := drawChunk c a (b - a) |}]).
Proof.
  induction l as [|x l IH]; intros i.
  - simpl. rewrite Z.add_0_r. now destruct (b - a <? 100).
  - destruct l as [|y l].
    + cbn [app].
      rewrite (chunkLoop_step c file i x a [b]), (chunkLoop_step c file i x a []).
      specialize (IH (i + 1)). cbn [app] in IH. rewrite IH.
      cbn [length].
      replace (i + 1 + Z.of_nat 0 + 1) with (i + Z.of_nat 1 + 1) by lia.
      destruct (a - x <? 100); reflexivity.
    + cbn [app].
      rewrite (chunkLoop_step c file i x y ((l ++ [a]) ++ [b])),
              (chunkLoop_step c file i x y (l ++ [a])).
      specialize (IH (i + 1)). cbn [app] in IH. rewrite IH.
      replace (i + 1 + Z.of_nat (length (y :: l)) + 1)
        with (i + Z.of_nat (length (x :: y :: l)) + 1)
        by (cbn [length]; lia).
      destruct (y - x <? 100); reflexivity.
Qed.

Lemma gapsBetween_atLeast (lo hi m : Z) (l : list Z) :
  m <= lo -> gapsBetween lo hi l -> gapsAtLeast m l.
Proof.
  intros Hm. induction l as [|x l IH]; [auto|].
  destruct l as [|y l]; [simpl; auto|].
  intros [Hxy Hg]. split; [lia|now apply IH].
Qed.


(** X9: without hints, on a well-formed picture more than 3000 rows
    high, the chunks stacked in order are the first [kept] rows of the
    source, where [kept] is the image height or, when the last interval
    is under 100 rows, the last cut: at most 99 rows, at the bottom,
    are lost. *)
Theorem split_without_hints_keeps_all_but_a_short_tail :
  forall file : File,
    canvas_wf (pixels file) ->
    0 < cwidth (pixels file) -> 3000 < cheight (pixels file) ->
    exists chunks kept,
      splitLongImage file [] = Done chunks /\
      stack chunks = firstn (Z.to_nat kept) (bitmap (pixels file)) /\
      cheight (pixels file) - 99 <= kept <= cheight (pixels file).
Proof.
  intros file Hwf Hw Hh. set (ctx := pixels file) in *.
  destruct (uniquePoints_without_hints ctx Hw Hh) as (cuts & last & Hu & Hg & Hl).
  unfold splitLongImage. fold ctx.
  assert (E : (cheight ctx <=? 3000) = false) by (apply Z.leb_gt; lia).
  rewrite E, Hu.
  change (0 :: cuts ++ [last]) with ((0 :: cuts) ++ [last]) in *.
  rewrite chunkLoop_snoc.
  assert (Hfirst : stack (chunkLoop ctx file 0 ((0 :: cuts) ++ [last]))
                   = firstn (Z.to_nat last) (bitmap ctx)).
  { rewrite (chunkLoop_stack ctx file Hwf ((0 :: cuts) ++ [last]) 0 0 (cuts ++ [last]));
      try reflexivity; try lia.
    - unfold lastPoint. rewrite last_last. now rewrite Z.sub_0_r.
    - now apply (gapsBetween_atLeast 2200 2799).
    - unfold lastPoint. rewrite last_last. lia. }
  assert (H0 : 0 <= last).
  { assert (Hs : gapsAtLeast 0 ((0 :: cuts) ++ [last]))
      by now apply (gapsBetween_atLeast 2200 2799).
    pose proof (gapsAtLeast_last 0 0 (cuts ++ [last]) ltac:(lia) Hs) as H.
    unfold lastPoint in H. change (0 :: cuts ++ [last]) with ((0 :: cuts) ++ [last]) in H.
    now rewrite last_last in H. }
  destruct (cheight ctx - last <? 100) eqn:Et.
  - apply Z.ltb_lt in Et. eexists _, last. split; [reflexivity|].
    rewrite app_nil_r. split; [exact Hfirst|lia].
  - apply Z.ltb_ge in Et. eexists _, (cheight ctx). split; [reflexivity|].
    split; [|lia].
    rewrite stack_app, Hfirst. unfold stack. cbn [flat_map pixels].
    rewrite app_nil_r, drawChunk_rows by (assumption || lia).
    replace (Z.to_nat (cheight ctx))
      with (Z.to_nat last + Z.to_nat (cheight ctx - last))%nat by lia.
    now rewrite firstn_plus.
Qed.

(** X6: on an image at least one pixel wide, whatever the hints, the cut
    loop ends and the finalized cut list begins at 0, is strictly
    increasing and holds the image height; when every hint fraction
    lies in [[0, 1]] the list ends at the image height. *)
Theorem cut_list_shape :
  forall (ctx : Canvas) (zones : list Zone),
    0 < cwidth ctx -> 0 <= cheight ctx ->
    exists rest,
      uniquePoints ctx zones = Done (0 :: rest) /\
      StronglySorted Z.lt (0 :: rest) /\
      In (cheight ctx) (0 :: rest) /\
      (Forall zoneInRange zones -> lastPoint (0 :: rest) = cheight ctx).
Proof.
  intros ctx zones Hw Hh.
  destruct (cutLoop_total ctx zones (loopFuel ctx) Hw [0] 0) as [cuts Hc];
    [unfold loopFuel; lia|].
  assert (Hu : exists points, uniquePoints ctx zones = Done points)
    by (unfold uniquePoints; rewrite Hc; eauto).
  destruct Hu as [points Hu].
  destruct (cut_list_increasing_from_zero ctx zones points Hh Hu) as [Hs [rest E]].
  subst points. exists rest. split; [exact Hu|]. split; [exact Hs|]. split.
  - destruct (uniquePoints_spec _ _ _ Hu) as (cuts' & _ & _ & Hin).
    apply Hin. now right.
  - intros Hz.
    destruct (cut_list_with_hints_in_range ctx zones Hz Hw Hh)
      as (rest' & Hu' & _ & Hlast).
    rewrite Hu in Hu'. injection Hu' as <-. exact Hlast.
Qed.

Lemma cut_list_shape_witness :
  0 < cwidth (plainStrip 4 3200 255) /\
  0 <= cheight (plainStrip 4 3200 255) /\
  exists rest,
    uniquePoints (plainStrip 4 3200 255) [midZone] = Done (0 :: rest) /\
    StronglySorted Z.lt (0 :: rest) /\
    In (cheight (plainStrip 4 3200 255)) (0 :: rest) /\
    (Forall zoneInRange [midZone] ->
     lastPoint (0 :: rest) = cheight (plainStrip 4 3200 255)).
Proof.
  split; [simpl; lia|]. split; [simpl; lia|].
  apply (cut_list_shape (plainStrip 4 3200 255) [midZone]); simpl; lia.
Defined.

Lemma scan_returns_first_minimum_witness :
  scanWith (fun y => Fin (tiedScore y)) 6 = (2, Below (tiedScore 2)) /\
  exists best : Z,
    scanWith (fun y => Fin (tiedScore y)) 6 = (best, Below (tiedScore best)) /\
    0 <= best < 6 /\
    forall y, 0 <= y < 6 ->
      (tiedScore best <= tiedScore y)%Q /\
      (y < best -> (tiedScore best < tiedScore y)%Q).
Proof.
  split; [vm_compute; reflexivity|].
  apply (scan_returns_first_minimum tiedScore 6). lia.
Defined.

Lemma row_statistics_are_row_local_witness :
  getImageData (plainStrip 4 6 255) 1 4 3
  = Some (whiteRow4 ++ whiteRow4 ++ whiteRow4) /\
  calculateRowEnergy (whiteRow4 ++ whiteRow4 ++ whiteRow4) 4 1
  = calculateRowEnergy (canvasRow (plainStrip 4 6 255) 4 (1 + 1)) 4 0.
Proof.
  split; [vm_compute; reflexivity|].
  apply (row_statistics_are_row_local (plainStrip 4 6 255) 4 1 3 1);
    [lia|lia|vm_compute; reflexivity].
Defined.

Lemma featureless_zone_is_cut_in_the_middle_witness :
  (forall y, 0 <= y < 4 ->
     canvasRow (plainStrip 4 6 255) 4 y = canvasRow (plainStrip 4 6 255) 4 0) /\
  findExactCutInZone (plainStrip 4 6 255) 4 0 4 = Some (0 + (4 - 0) / 2).
Proof.
  assert (H : forall y, 0 <= y < 4 ->
                canvasRow (plainStrip 4 6 255) 4 y
                = canvasRow (plainStrip 4 6 255) 4 0).
  { intros y Hy.
    assert (Hc : y = 0 \/ y = 1 \/ y = 2 \/ y = 3) by lia.
    destruct Hc as [-> | [-> | [-> | ->]]]; vm_compute; reflexivity. }
  split; [exact H|].
  apply (featureless_zone_is_cut_in_the_middle (plainStrip 4 6 255) 4 0 4);
    [lia|lia|exact H].
Defined.

Lemma cuts_without_hints_witness :
  0 < cwidth (plainStrip 4 3200 255) /\
  3000 < cheight (plainStrip 4 3200 255) /\
  exists cuts last,
    uniquePoints (plainStrip 4 3200 255) []
    = Done ((0 :: cuts ++ [last]) ++ [cheight (plainStrip 4 3200 255)]) /\
    gapsBetween 2200 2799 (0 :: cuts ++ [last]) /\
    11 <= cheight (plainStrip 4 3200 255) - last <= TARGET_CHUNK_HEIGHT.
Proof.
  split; [simpl; lia|]. split; [simpl; lia|].
  apply (cuts_without_hints (plainStrip 4 3200 255)); simpl; lia.
Defined.

Lemma emitted_chunks_are_well_formed_witness :
  0 <= cwidth (plainStrip 4 300 255) /\
  map fname (chunkLoop (plainStrip 4 300 255) (plainFile 4 300 255) 0
                       [0; 150; 200; 300])
  = ["strip_part_1.png"; "strip_part_3.png"]%string /\
  Forall (fun f => canvas_wf (pixels f) /\
                   cwidth (pixels f) = cwidth (plainStrip 4 300 255) /\
                   100 <= cheight (pixels f))
         (chunkLoop (plainStrip 4 300 255) (plainFile 4 300 255) 0
                    [0; 150; 200; 300]).
Proof.
  split; [simpl; lia|]. split; [vm_compute; reflexivity|].
  apply (emitted_chunks_are_well_formed (plainStrip 4 300 255)
                                         (plainFile 4 300 255)
                                         [0; 150; 200; 300] 0).
  simpl. lia.
Defined.

Lemma chosen_zone_is_the_nearest_witness :
  Forall exactZone [midZone] /\
  zoneRows 4000 0 2500 [midZone] = Some (2000, 2500) /\
  exists z,
    In z [midZone] /\
    (inject_Z (0 + 100) < zoneMid 4000 z)%Q /\
    (zoneDistance 4000 2500 z < inject_Z 1800)%Q /\
    2000 = floor (start_percent z * inject_Z 4000) /\
    2500 = floor (end_percent z * inject_Z 4000) /\
    0 <= 2000 <= 4000 /\ 0 <= 2500 <= 4000 /\
    forall z', In z' [midZone] -> (inject_Z (0 + 100) < zoneMid 4000 z')%Q ->
               (zoneDistance 4000 2500 z <= zoneDistance 4000 2500 z')%Q.
Proof.
  assert (H : Forall exactZone [midZone]).
  { constructor; [|constructor]. split.
    - exists 512. split; [lia|reflexivity].
    - exists 640. split; [lia|reflexivity]. }
  split; [exact H|]. split; [vm_compute; reflexivity|].
  apply (proj1 (chosen_zone_is_the_nearest 4000 0 2500 [midZone]
                  ltac:(lia) ltac:(lia) eq_refl H)).
  vm_compute. reflexivity.
Defined.

Lemma row_statistics_are_bounded_witness :
  Forall isByte whiteRow4 /\
  exists e b,
    calculateRowEnergy whiteRow4 4 0 = {| energy := Fin e; brightness := Fin b |} /\
    (0 <= e /\ e <= 765)%Q /\ (0 <= b /\ b <= 255)%Q.
Proof.
  assert (H : Forall isByte whiteRow4)
    by (unfold whiteRow4; simpl; repeat constructor; unfold isByte; lia).
  split; [exact H|].
  apply (row_statistics_are_bounded whiteRow4 4 0 H); [lia|lia|simpl; lia].
Defined.

Lemma split_without_hints_keeps_all_but_a_short_tail_witness :
  canvas_wf (pixels (plainFile 4 3200 255)) /\
  0 < cwidth (pixels (plainFile 4 3200 255)) /\
  3000 < cheight (pixels (plainFile 4 3200 255)) /\
  exists chunks kept,
    splitLongImage (plainFile 4 3200 255) [] = Done chunks /\
    stack chunks
    = firstn (Z.to_nat kept) (bitmap (pixels (plainFile 4 3200 255))) /\
    cheight (pixels (plainFile 4 3200 255)) - 99 <= kept
    <= cheight (pixels (plainFile 4 3200 255)).
Proof.
  assert (H : canvas_wf (pixels (plainFile 4 3200 255)))
    by (apply plainStrip_wf; lia).
  split; [exact H|]. split; [simpl; lia|]. split; [simpl; lia|].
  apply (split_without_hints_keeps_all_but_a_short_tail (plainFile 4 3200 255) H);
    simpl; lia.
Defined.

End SlicerMoreFacts.

(* ================================================================== *)
(** * Further facts about the scheduler *)

Module SchedulerMoreFacts.

Import Scheduler SchedulerFacts SchedulerSpec.

(** ** Pages and their ids *)

Lemma same_id_same_page (l : list MangaPage) (a b : MangaPage) :
  NoDup (map id l) -> In a l -> In b l -> id a = id b -> a = b.
Proof.
  induction l as [|x l IH]; intros Hnd Ha Hb Hid; [destruct Ha|].
  simpl in Hnd. inversion Hnd as [|? ? Hx Hl]; subst.
  destruct Ha as [Ha|Ha], Hb as [Hb|Hb].
  - congruence.
  - subst x. exfalso. apply Hx. rewrite Hid. now apply in_map.
  - subst x. exfalso. apply Hx. rewrite <- Hid. now apply in_map.
  - now apply IH.
Qed.

Lemma schedule_pending (k : bool) (ps : list MangaPage) (hist : list Z) (now : Z)
    (sel : list MangaPage) (ts : list Z) :
  schedule k ps hist now = Some (sel, ts) ->
  forall q, In q sel -> In q ps /\ status q = pending.
Proof.
  intros E q Hq. apply schedule_some in E. destruct E as (n & Hsel & _).
  rewrite Hsel in Hq. apply In_firstn in Hq.
  apply filter_In in Hq. now rewrite hasStatus_true in Hq.
Qed.

(** With distinct ids, the pages that a tick marks are the selected
    pending pages themselves. *)
Lemma started_is_selected (k : bool) (ps : list MangaPage) (hist : list Z)
    (now : Z) (sel : list MangaPage) (ts : list Z) (p : MangaPage) :
  NoDup (map id ps) ->
  schedule k ps hist now = Some (sel, ts) ->
  In p ps -> isStarted sel p = true ->
  In p sel /\ status p = pending.
Proof.
  intros Hnd E Hp Hst. apply isStarted_true in Hst.
  apply in_map_iff in Hst. destruct Hst as [q [Hid Hq]].
  destruct (schedule_pending _ _ _ _ _ _ E q Hq) as [Hqp Hqs].
  assert (q = p) by now apply (same_id_same_page ps).
  subst q. now split.
Qed.

Lemma reachable_processing_bound (g : bool) (s : State) :
  reachable g s -> processingCount (pages s) <= CONCURRENCY_LIMIT.
Proof.
  induction 1 as [t Hi|t t' Hr IH Hs].
  - rewrite (initial_processing _ Hi). unfold CONCURRENCY_LIMIT. lia.
  - destruct (Z_lt_le_dec (processingCount (pages t)) (processingCount (pages t')))
      as [Hlt|Hle]; [|lia].
    destruct (step_processing _ _ _ Hs Hlt) as (now & _ & ->).
    apply tick_processing; [now apply reachable_nodup with g|assumption].
Qed.

(** ** Calls in flight and processing pages *)

Lemma servedInv_initial (s : State) : initial s -> servedInv s.
Proof.
  intros (_ & Hall & _ & Hf & _). split.
  - rewrite Hf. intros c [].
  - intros p Hp Hs. rewrite Forall_forall in Hall.
    destruct (Hall p Hp). congruence.
Qed.

Lemma servedInv_tick (now : Z) (s : State) :
  servedInv s -> servedInv (tick now s).
Proof.
  intros [Hb Hc]. unfold tick.
  destruct (schedule _ _ _ _) as [[sel ts]|] eqn:E; [|split; assumption].
  pose proof (schedule_pending _ _ _ _ _ _ E) as Hpend.
  split; simpl.
  - intros c Hin. rewrite startPages_ids. apply in_app_or in Hin.
    destruct Hin as [Hin|Hin]; [now apply Hb|].
    apply in_map_iff in Hin. destruct Hin as [q [<- Hq]].
    unfold callId. simpl. apply in_map. now apply Hpend.
  - intros p' Hp' Hs. unfold startPages in Hp'.
    apply in_map_iff in Hp'. destruct Hp' as [p [Hp' Hp]].
    rewrite map_app, map_map. apply in_or_app.
    destruct (isStarted sel p) eqn:Hst; subst p'.
    + right. apply isStarted_true in Hst. exact Hst.
    + left. now apply Hc.
Qed.

Lemma servedInv_settle (s : State) (c : Call) (before after : list Call)
    (f : MangaPage -> MangaPage) :
  inflight s = before ++ c :: after ->
  (forall p, id (f p) = id p) ->
  (forall p, id p <> callId c -> f p = p) ->
  (forall p, id p = callId c -> status (f p) <> processing) ->
  servedInv s ->
  forall s',
    pages s' = map f (pages s) -> inflight s' = before ++ after ->
    servedInv s'.
Proof.
  intros Hfl Hfid Hframe Hdone [Hb Hc] s' Hp Hi. split.
  - intros c' Hin. rewrite Hp, map_map.
    rewrite (map_ext _ id Hfid). apply Hb. rewrite Hfl.
    rewrite Hi in Hin. apply in_app_or in Hin. apply in_or_app.
    destruct Hin; [now left|right; now right].
  - intros p' Hp' Hs. rewrite Hp in Hp'.
    apply in_map_iff in Hp'. destruct Hp' as [p [Hp' Hin]]. subst p'.
    destruct (string_dec (id p) (callId c)) as [Heq|Hne].
    + now destruct (Hdone p Heq).
    + rewrite (Hframe p Hne) in *. specialize (Hc p Hin Hs).
      rewrite Hfl in Hc. rewrite Hi. rewrite map_app in *.
      apply in_app_or in Hc. apply in_or_app.
      destruct Hc as [Hc|[Hc|Hc]]; [now left|congruence|now right].
Qed.

Lemma servedInv_regenerate (s : State) (pageId : string) :
  servedInv s -> servedInv (regenerate pageId s).
Proof.
  intros [Hb Hc]. split; simpl.
  - intros c Hin. rewrite handleRegenerate_ids. now apply Hb.
  - intros p' Hp' Hs. unfold handleRegenerate in Hp'.
    apply in_map_iff in Hp'. destruct Hp' as [p [Hp' Hp]].
    destruct (String.eqb (id p) pageId); subst p'; [discriminate|].
    now apply Hc.
Qed.

Lemma reachable_servedInv (g : bool) (s : State) : reachable g s -> servedInv s.
Proof.
  induction 1 as [s Hi|s s' Hr IH Hs].
  - now apply servedInv_initial.
  - destruct Hs.
    + exact IH.
    + now apply servedInv_tick.
    + exact IH.
    + apply servedInv_settle
        with (s := s) (c := c) (before := before) (after := after)
             (f := fun p => if String.eqb (id p) (id (cpage c))
                            then withResult p completed (Some url) else p);
        auto.
      * intros p. now destruct (String.eqb _ _).
      * intros p Hne. apply String.eqb_neq in Hne. unfold callId in Hne.
        now rewrite Hne.
      * intros p Heq. apply String.eqb_eq in Heq. unfold callId in Heq.
        rewrite Heq. discriminate.
    + apply servedInv_settle
        with (s := s) (c := c) (before := before) (after := after)
             (f := fun p => if String.eqb (id p) (id (cpage c))
                            then withStatus p error else p);
        auto.
      * intros p. now destruct (String.eqb _ _).
      * intros p Hne. apply String.eqb_neq in Hne. unfold callId in Hne.
        now rewrite Hne.
      * intros p Heq. apply String.eqb_eq in Heq. unfold callId in Heq.
        rewrite Heq. discriminate.
    + now apply servedInv_regenerate.
Qed.

(** X10: in the application as written, the calls in flight and the
    processing pages match one to one: the ids of the calls are a
    rearrangement of the ids of the processing pages.  So no page is
    shown as processing without a call that will settle it, and no more
    than [CONCURRENCY_LIMIT] (5) calls are in flight. *)
Theorem calls_in_flight_match_processing_pages :
  forall s : State,
    reachable true s ->
    Permutation (map callId (inflight s)) (processingIds s) /\
    Z.of_nat (length (inflight s)) <= CONCURRENCY_LIMIT.
Proof.
  intros s Hr.
  pose proof (reachable_freshInv s Hr) as [Hnd Hfresh].
  pose proof (reachable_servedInv _ s Hr) as [Hb Hc].
  pose proof (reachable_nodup _ s Hr) as Hids.
  assert (Hperm : Permutation (map callId (inflight s)) (processingIds s)).
  { apply NoDup_Permutation.
    - exact Hnd.
    - unfold processingIds. now apply NoDup_ids_filter.
    - intros x. unfold processingIds. split; intros Hx.
      + apply in_map_iff in Hx. destruct Hx as [c [<- Hin]].
        specialize (Hb c Hin). apply in_map_iff in Hb.
        destruct Hb as [p [Hid Hp]].
        destruct (Hfresh c p Hin Hp Hid) as [Hproc _].
        rewrite <- Hid. apply in_map. apply filter_In.
        split; [assumption|now apply hasStatus_true].
      + apply in_map_iff in Hx. destruct Hx as [p [<- Hp]].
        apply filter_In in Hp. destruct Hp as [Hp Hs].
        apply hasStatus_true in Hs. now apply Hc. }
  split; [exact Hperm|].
  apply Permutation_length in Hperm. unfold processingIds in Hperm.
  rewrite !length_map in Hperm. rewrite Hperm.
  exact (reachable_processing_bound _ s Hr).
Qed.

(** ** Results and statuses *)

Lemma resultInv_initial (s : State) : initial s -> resultInv s.
Proof.
  intros (_ & Hall & _) p Hp. rewrite Forall_forall in Hall.
  destruct (Hall p Hp) as [Hs Hu]. rewrite Hs, Hu.
  split; [discriminate|intros [url H]; discriminate].
Qed.

Lemma resultInv_step (s s' : State) :
  NoDup (map id (pages s)) -> freshInv s ->
  step true s s' -> resultInv s -> resultInv s'.
Proof.
  intros Hnd [_ Hfresh] Hs Hinv. destruct Hs.
  - exact Hinv.
  - unfold tick. destruct (schedule _ _ _ _) as [[sel ts]|] eqn:E; [|exact Hinv].
    intros p' Hp'. simpl in Hp'. unfold startPages in Hp'.
    apply in_map_iff in Hp'. destruct Hp' as [p [Hp' Hp]].
    destruct (isStarted sel p) eqn:Hst; subst p'; [|now apply Hinv].
    destruct (started_is_selected _ _ _ _ _ _ p Hnd E Hp Hst) as [_ Hpend].
    simpl. split; [discriminate|]. intros Hu.
    apply (Hinv p Hp) in Hu. congruence.
  - exact Hinv.
  - intros p' Hp'. simpl in Hp'. unfold resolveSuccess in Hp'.
    apply in_map_iff in Hp'. destruct Hp' as [p [Hp' Hp]].
    destruct (String.eqb (id p) (id (cpage c))); subst p'; [|now apply Hinv].
    simpl. split; [intros _; now exists url|reflexivity].
  - intros p' Hp'. simpl in Hp'. unfold resolveFailure in Hp'.
    apply in_map_iff in Hp'. destruct Hp' as [p [Hp' Hp]].
    destruct (String.eqb (id p) (id (cpage c))) eqn:Eid; subst p';
      [|now apply Hinv].
    apply String.eqb_eq in Eid.
    assert (Hc : In c (inflight s)) by (rewrite H; apply in_elt).
    destruct (Hfresh c p Hc Hp Eid) as [Hproc _].
    simpl. split; [discriminate|]. intros Hu.
    apply (Hinv p Hp) in Hu. congruence.
  - intros p' Hp'. simpl in Hp'. unfold handleRegenerate in Hp'.
    apply in_map_iff in Hp'. destruct Hp' as [q [Hp' Hq]].
    destruct (String.eqb (id q) (id p)); subst p'; [|now apply Hinv].
    simpl. split; [discriminate|intros [url Hu]; discriminate].
Qed.

(** X11: in the application as written, a page holds a translated image
    exactly when its status is completed: a pending, processing or
    failed page never carries the result of an earlier attempt. *)
Theorem translated_image_iff_completed :
  forall (s : State) (p : MangaPage),
    reachable true s -> In p (pages s) ->
    (status p = completed <-> exists url, translatedUrl p = Some url).
Proof.
  intros s p Hr. revert p. change (resultInv s).
  induction Hr as [s Hi|s s' Hr IH Hs].
  - now apply resultInv_initial.
  - apply (resultInv_step s s'); auto.
    + now apply reachable_nodup with true.
    + now apply reachable_freshInv.
Qed.

(** X12: in the application as written, an event leaves every page at its
    place with its id, file, original URL and page number, and either
    leaves the page as it was or moves its status along the life cycle
    pending -> processing -> completed or error -> pending. *)
Theorem pages_follow_the_life_cycle :
  forall (s s' : State) (n : nat) (p p' : MangaPage),
    reachable true s -> step true s s' ->
    nth_error (pages s) n = Some p ->
    nth_error (pages s') n = Some p' ->
    (id p' = id p /\ originalFile p' = originalFile p /\
     originalUrl p' = originalUrl p /\ pageNumber p' = pageNumber p) /\
    (p' = p \/ nextStatus (status p) (status p') = true).
Proof.
  intros s s' n p p' Hr Hs Hn Hn'.
  pose proof (reachable_nodup _ s Hr) as Hnd.
  pose proof (reachable_freshInv s Hr) as [_ Hfresh].
  pose proof (nth_error_In _ _ Hn) as Hp.
  assert (Hsame : forall q, Some q = Some p ->
                  (id q = id p /\ originalFile q = originalFile p /\
                   originalUrl q = originalUrl p /\ pageNumber q = pageNumber p) /\
                  (q = p \/ nextStatus (status p) (status q) = true)).
  { intros q [= ->]. auto. }
  destruct Hs.
  - apply Hsame. simpl in Hn'. congruence.
  - unfold tick in Hn'.
    destruct (schedule _ _ _ _) as [[sel ts]|] eqn:E;
      [|apply Hsame; simpl in Hn'; congruence].
    simpl in Hn'. unfold startPages in Hn'.
    rewrite nth_error_map, Hn in Hn'. simpl in Hn'.
    destruct (isStarted sel p) eqn:Hst; [|now apply Hsame].
    destruct (started_is_selected _ _ _ _ _ _ p Hnd E Hp Hst) as [_ Hpend].
    injection Hn' as <-. simpl. rewrite Hpend. auto 6.
  - apply Hsame. simpl in Hn'. congruence.
  - simpl in Hn'. unfold resolveSuccess in Hn'.
    rewrite nth_error_map, Hn in Hn'. simpl in Hn'.
    destruct (String.eqb (id p) (id (cpage c))) eqn:Eid; [|now apply Hsame].
    apply String.eqb_eq in Eid.
    assert (Hc : In c (inflight s)) by (rewrite H; apply in_elt).
    destruct (Hfresh c p Hc Hp Eid) as [Hproc _].
    injection Hn' as <-. simpl. rewrite Hproc. auto 6.
  - simpl in Hn'. unfold resolveFailure in Hn'.
    rewrite nth_error_map, Hn in Hn'. simpl in Hn'.
    destruct (String.eqb (id p) (id (cpage c))) eqn:Eid; [|now apply Hsame].
    apply String.eqb_eq in Eid.
    assert (Hc : In c (inflight s)) by (rewrite H; apply in_elt).
    destruct (Hfresh c p Hc Hp Eid) as [Hproc _].
    injection Hn' as <-. simpl. rewrite Hproc. auto 6.
  - simpl in Hn'. unfold handleRegenerate in Hn'.
    rewrite nth_error_map, Hn in Hn'. simpl in Hn'.
    destruct (String.eqb (id p) (id p0)) eqn:Eid; [|now apply Hsame].
    apply String.eqb_eq in Eid.
    assert (p = p0) by now apply (same_id_same_page (pages s)).
    subst p0. specialize (H0 eq_refl).
    injection Hn' as <-. simpl. split; [auto|]. right.
    unfold regenerateOffered in H0.
    destruct (status p); try discriminate; reflexivity.
Qed.

(** ** Reading order *)

Lemma firstn_reaches_back {A : Type} (n : nat) (front back : list A) (p q : A) :
  In q (firstn n (front ++ p :: back)) -> ~ In q front -> q <> p ->
  In p (firstn n (front ++ p :: back)).
Proof.
  rewrite firstn_app. intros Hq Hfront Hne.
  apply in_app_or in Hq. destruct Hq as [Hq|Hq].
  - now apply In_firstn in Hq.
  - apply in_or_app. right.
    destruct (n - length front)%nat; [destruct Hq|now left].
Qed.

Lemma NoDup_app_disjoint {A : Type} (l1 l2 : list A) (x : A) :
  NoDup (l1 ++ l2) -> In x l1 -> In x l2 -> False.
Proof.
  induction l1 as [|a l1 IH]; intros Hnd H1 H2; [destruct H1|].
  simpl in Hnd. inversion Hnd as [|? ? Ha Hl]; subst.
  destruct H1 as [->|H1]; [|now apply IH].
  apply Ha. apply in_or_app. now right.
Qed.

(** X13: a tick starts pending pages in the order of the page list and
    skips none: when it starts the page at place [j], every page that
    was pending at an earlier place is started by the same tick. *)
Theorem pending_pages_start_in_page_order :
  forall (g : bool) (s : State) (now : Z) (i j : nat) (p q q' : MangaPage),
    reachable g s -> (i < j)%nat ->
    nth_error (pages s) i = Some p -> nth_error (pages s) j = Some q ->
    status p = pending -> status q = pending ->
    nth_error (pages (tick now s)) j = Some q' -> status q' = processing ->
    exists p', nth_error (pages (tick now s)) i = Some p' /\
               status p' = processing.
Proof.
  intros g s now i j p q q' Hr Hij Hi Hj Hp Hq Hj' Hq'.
  pose proof (reachable_nodup _ s Hr) as Hnd.
  unfold tick in *.
  destruct (schedule _ _ _ _) as [[sel ts]|] eqn:E;
    [|simpl in Hj'; congruence].
  simpl in *. unfold startPages in *.
  rewrite nth_error_map, Hj in Hj'. simpl in Hj'.
  rewrite nth_error_map, Hi. simpl.
  destruct (isStarted sel q) eqn:Hst; [|congruence].
  destruct (started_is_selected _ _ _ _ _ _ q Hnd E (nth_error_In _ _ Hj) Hst)
    as [Hqsel _].
  assert (Hpsel : In p sel).
  { apply schedule_some in E. destruct E as (n & Hsel & _).
    destruct (nth_error_split _ _ Hi) as (l1 & l2 & Hl & Hlen).
    rewrite Hl in Hj, Hnd, Hsel.
    rewrite nth_error_app2 in Hj by lia.
    replace (j - length l1)%nat with (S (j - i - 1)) in Hj by lia.
    simpl in Hj. apply nth_error_In in Hj.
    apply NoDup_map_inv in Hnd.
    pose proof (NoDup_remove_1 _ _ _ Hnd) as Hnd1.
    pose proof (NoDup_remove_2 _ _ _ Hnd) as Hnd2.
    rewrite filter_app in Hsel. cbn [filter] in Hsel.
    assert (Hpp : hasStatus pending p = true) by now apply hasStatus_true.
    rewrite Hpp in Hsel. rewrite Hsel in *.
    apply (firstn_reaches_back n _ _ p q); [assumption| |].
    - intros Hin. apply filter_In in Hin.
      now apply (NoDup_app_disjoint l1 l2 q Hnd1).
    - intros ->. apply Hnd2. apply in_or_app. now right. }
  assert (Hps : isStarted sel p = true)
    by (apply isStarted_true; now apply in_map).
  rewrite Hps. eexists. split; reflexivity.
Qed.

(** ** A tick uses every slot *)

Lemma count_disjoint {A : Type} (a b c : A -> bool) (f : A -> A) (l : list A) :
  (forall x, a x = true -> c (f x) = true) ->
  (forall x, b x = true -> c (f x) = true) ->
  (forall x, a x = true -> b x = false) ->
  (length (filter a l) + length (filter b l)
   <= length (filter c (map f l)))%nat.
Proof.
  intros Ha Hb Hab. induction l as [|x l IH]; [simpl; lia|].
  simpl. specialize (Ha x). specialize (Hb x). specialize (Hab x).
  destruct (a x), (b x), (c (f x)); simpl; try lia;
    try (now discriminate Ha); try (now discriminate Hb);
    try (now discriminate Hab).
Qed.

Lemma filter_none {A : Type} (f : A -> bool) (l : list A) :
  (forall x, In x l -> f x = false) -> filter f l = [].
Proof.
  induction l as [|x l IH]; intros H; [reflexivity|].
  simpl. rewrite (H x (or_introl eq_refl)). apply IH.
  intros y Hy. apply H. now right.
Qed.

(** X14: after a tick with a key selected, no slot that could have been
    used is left: no page is pending, or [CONCURRENCY_LIMIT] pages are
    processing, or the request history holds [RPM_LIMIT] timestamps of
    the last minute. *)
Theorem tick_leaves_no_usable_slot :
  forall (g : bool) (s : State) (now : Z),
    reachable g s -> hasKey s = true ->
    countStatus pending (tick now s) = 0%nat \/
    CONCURRENCY_LIMIT <= processingCount (pages (tick now s)) \/
    RPM_LIMIT
    <= Z.of_nat (length (filter (inWindow now) (requestHistory (tick now s)))).
Proof.
  intros g s now Hr Hk.
  pose proof (reachable_nodup _ s Hr) as Hnd.
  unfold tick.
  destruct (schedule (hasKey s) (pages s) (requestHistory s) now)
    as [[sel ts]|] eqn:E.
  - pose proof (schedule_some _ _ _ _ _ _ E) as (n & Hsel & Hts & Hlen & _).
    pose proof (admittedBy_exact n (pages s) Hnd) as Hadm.
    rewrite <- Hsel in Hadm.
    unfold schedule in E. rewrite Hk in E. cbn [negb] in E.
    destruct (Z.of_nat (length (filter (hasStatus pending) (pages s))) =? 0);
      [discriminate|].
    destruct (CONCURRENCY_LIMIT
              - Z.of_nat (length (filter (hasStatus processing) (pages s))) <=? 0);
      [discriminate|].
    destruct (RPM_LIMIT
              - Z.of_nat (length (filter (inWindow now) (requestHistory s))) <=? 0);
      [discriminate|].
    destruct (_ >? 0) eqn:Hpos; [|discriminate].
    pose proof (f_equal (fun o => match o with
                                  | Some (a, _) => length a
                                  | None => 0%nat
                                  end) E) as Esel.
    cbv beta iota in Esel. clear E.
    set (P := length (filter (hasStatus pending) (pages s))) in *.
    set (A := length (filter (hasStatus processing) (pages s))) in *.
    set (V := length (filter (inWindow now) (requestHistory s))) in *.
    assert (Hn : Z.of_nat n
                 = Z.min (Z.min (Z.of_nat P) (CONCURRENCY_LIMIT - Z.of_nat A))
                         (RPM_LIMIT - Z.of_nat V)).
    { rewrite <- Hlen, <- Esel. rewrite length_firstn. fold P.
      rewrite Z.gtb_ltb in Hpos. apply Z.ltb_lt in Hpos. lia. }
    simpl.
    assert (Hproc : (A + n <= length (filter (hasStatus processing)
                                             (startPages sel (pages s))))%nat).
    { rewrite <- Hlen at 1. rewrite <- Hadm at 1. unfold admittedBy, A.
      unfold startPages. apply count_disjoint.
      - intros x Hx. destruct (isStarted sel x); [reflexivity|assumption].
      - intros x Hx. apply andb_prop in Hx. destruct Hx as [_ Hx].
        now rewrite Hx.
      - intros x Hx. apply hasStatus_true in Hx.
        unfold hasStatus. rewrite Hx. reflexivity. }
    assert (Hwin : length (filter (inWindow now) (requestHistory s ++ ts))
                   = (V + n)%nat).
    { rewrite filter_app, length_app, Hts, filter_repeat.
      unfold inWindow at 2. rewrite Z.sub_diag. cbn [Z.ltb Z.compare].
      now rewrite repeat_length. }
    rewrite Hwin. unfold processingCount.
    destruct (Z.eq_dec (Z.of_nat n) (Z.of_nat P)) as [HP|HP].
    + left. unfold countStatus. simpl.
      assert (Hall : sel = filter (hasStatus pending) (pages s)).
      { rewrite Hsel. apply firstn_all2. fold P. lia. }
      rewrite filter_none; [reflexivity|].
      intros p' Hp'. unfold startPages in Hp'.
      apply in_map_iff in Hp'. destruct Hp' as [p [Hp' Hp]].
      destruct (isStarted sel p) eqn:Hst; subst p'; [reflexivity|].
      destruct (hasStatus pending p) eqn:Hpend; [|reflexivity].
      assert (Hin : In p sel) by (rewrite Hall; apply filter_In; now split).
      assert (isStarted sel p = true)
        by (apply isStarted_true; now apply in_map).
      congruence.
    + right. lia.
  - simpl. unfold schedule in E. rewrite Hk in E. cbn [negb] in E.
    destruct (Z.of_nat (length (filter (hasStatus pending) (pages s))) =? 0)
      eqn:E1.
    { left. unfold countStatus. simpl. apply Z.eqb_eq in E1. lia. }
    destruct (CONCURRENCY_LIMIT
              - Z.of_nat (length (filter (hasStatus processing) (pages s))) <=? 0)
      eqn:E2.
    { right. left. unfold processingCount. apply Z.leb_le in E2. lia. }
    destruct (RPM_LIMIT
              - Z.of_nat (length (filter (inWindow now) (requestHistory s))) <=? 0)
      eqn:E3.
    { right. right. apply Z.leb_le in E3. lia. }
    destruct (_ >? 0) eqn:Hpos; [discriminate|].
    apply Z.eqb_neq in E1. apply Z.leb_gt in E2. apply Z.leb_gt in E3.
    rewrite Z.gtb_ltb in Hpos. apply Z.ltb_ge in Hpos. lia.
Qed.

(** ** The clean-up is invisible to the scheduler *)

(** X15: the clean-up interval never changes what the scheduler decides:
    a tick after a clean-up starts the same pages, dispatches the same
    calls and logs the same admissions as a tick without it. *)
Theorem cleanup_is_invisible_to_the_scheduler :
  forall (s : State) (now now' : Z),
    now <= now' ->
    schedule (hasKey s) (pages s) (cleanupHistory now (requestHistory s)) now'
    = schedule (hasKey s) (pages s) (requestHistory s) now' /\
    pages (tick now' (cleanup now s)) = pages (tick now' s) /\
    inflight (tick now' (cleanup now s)) = inflight (tick now' s) /\
    admissions (tick now' (cleanup now s)) = admissions (tick now' s).
Proof.
  intros s now now' Hle.
  assert (Hs : forall k ps,
             schedule k ps (cleanupHistory now (requestHistory s)) now'
             = schedule k ps (requestHistory s) now').
  { intros k ps. unfold schedule.
    now rewrite (cleanupHistory_window now now' _ Hle). }
  split; [apply Hs|].
  unfold tick, cleanup. cbn [hasKey pages requestHistory inflight admissions regenLog].
  rewrite Hs.
  destruct (schedule _ _ _ _) as [[sel ts]|]; simpl; auto.
Qed.

Lemma firstDone_reachable (g : bool) : reachable g firstDone.
Proof.
  apply reach_step with (tick 0 (demoState ["a"; "b"]%string)).
  - apply reach_step with (demoState ["a"; "b"]%string).
    + apply reach_init, demoState_initial.
      repeat constructor; simpl; intuition discriminate.
    + apply step_tick. simpl. lia.
  - apply (step_ok g _ [] (mkCall (demoPage "a") 0)
                   [mkCall (demoPage "b") 0] "blob:translated").
    reflexivity.
Defined.

Lemma twoPending_reachable (g : bool) : reachable g (demoState ["a"; "b"]%string).
Proof.
  apply reach_init, demoState_initial.
  repeat constructor; simpl; intuition discriminate.
Defined.

Lemma calls_in_flight_match_processing_pages_witness :
  reachable true firstDone /\
  Permutation (map callId (inflight firstDone)) (processingIds firstDone) /\
  Z.of_nat (length (inflight firstDone)) <= CONCURRENCY_LIMIT.
Proof.
  split; [exact (firstDone_reachable true)|].
  exact (calls_in_flight_match_processing_pages firstDone
           (firstDone_reachable true)).
Defined.

Lemma translated_image_iff_completed_witness :
  reachable true firstDone /\
  In (withResult (demoPage "a") completed (Some "blob:translated"%string))
     (pages firstDone) /\
  (status (withResult (demoPage "a") completed (Some "blob:translated"%string))
   = completed <->
   exists url,
     translatedUrl (withResult (demoPage "a") completed
                               (Some "blob:translated"%string)) = Some url).
Proof.
  split; [exact (firstDone_reachable true)|].
  split; [vm_compute; left; reflexivity|].
  apply (translated_image_iff_completed firstDone);
    [exact (firstDone_reachable true)|vm_compute; left; reflexivity].
Defined.

Lemma pages_follow_the_life_cycle_witness :
  reachable true (demoState ["a"; "b"]%string) /\
  step true (demoState ["a"; "b"]%string) (tick 0 (demoState ["a"; "b"]%string)) /\
  nth_error (pages (demoState ["a"; "b"]%string)) 1 = Some (demoPage "b") /\
  nth_error (pages (tick 0 (demoState ["a"; "b"]%string))) 1
  = Some (withStatus (demoPage "b") processing) /\
  nextStatus (status (demoPage "b"))
             (status (withStatus (demoPage "b") processing)) = true.
Proof.
  assert (Hs : step true (demoState ["a"; "b"]%string)
                    (tick 0 (demoState ["a"; "b"]%string)))
    by (apply step_tick; simpl; lia).
  split; [exact (twoPending_reachable true)|]. split; [exact Hs|].
  split; [reflexivity|]. split; [vm_compute; reflexivity|].
  destruct (pages_follow_the_life_cycle
              (demoState ["a"; "b"]%string) (tick 0 (demoState ["a"; "b"]%string))
              1 (demoPage "b") (withStatus (demoPage "b") processing)
              (twoPending_reachable true) Hs eq_refl eq_refl) as [_ [H|H]].
  - discriminate H.
  - exact H.
Defined.

Lemma pending_pages_start_in_page_order_witness :
  reachable true (demoState ["a"; "b"]%string) /\
  nth_error (pages (demoState ["a"; "b"]%string)) 0 = Some (demoPage "a") /\
  nth_error (pages (demoState ["a"; "b"]%string)) 1 = Some (demoPage "b") /\
  nth_error (pages (tick 0 (demoState ["a"; "b"]%string))) 1
  = Some (withStatus (demoPage "b") processing) /\
  exists p',
    nth_error (pages (tick 0 (demoState ["a"; "b"]%string))) 0 = Some p' /\
    status p' = processing.
Proof.
  split; [exact (twoPending_reachable true)|].
  split; [reflexivity|]. split; [reflexivity|].
  split; [vm_compute; reflexivity|].
  apply (pending_pages_start_in_page_order
           true (demoState ["a"; "b"]%string) 0 0 1
           (demoPage "a") (demoPage "b") (withStatus (demoPage "b") processing)
           (twoPending_reachable true));
    [lia|reflexivity|reflexivity|reflexivity|reflexivity
    |vm_compute; reflexivity|reflexivity].
Defined.

Lemma tick_leaves_no_usable_slot_witness :
  reachable true (demoState sevenIds) /\
  hasKey (demoState sevenIds) = true /\
  (countStatus pending (tick 0 (demoState sevenIds)) = 0%nat \/
   CONCURRENCY_LIMIT <= processingCount (pages (tick 0 (demoState sevenIds))) \/
   RPM_LIMIT
   <= Z.of_nat (length (filter (inWindow 0)
                               (requestHistory (tick 0 (demoState sevenIds)))))).
Proof.
  assert (H : reachable true (demoState sevenIds))
    by (apply reach_init, demoState_initial, sevenIds_NoDup).
  split; [exact H|]. split; [reflexivity|].
  exact (tick_leaves_no_usable_slot true (demoState sevenIds) 0 H eq_refl).
Defined.

Lemma cleanup_is_invisible_to_the_scheduler_witness :
  60000 <= 60001 /\
  pages (tick 60001 (cleanup 60000 (tick 0 (demoState sevenIds))))
  = pages (tick 60001 (tick 0 (demoState sevenIds))).
Proof.
  split; [lia|].
  apply (cleanup_is_invisible_to_the_scheduler
           (tick 0 (demoState sevenIds)) 60000 60001).
  lia.
Defined.

End SchedulerMoreFacts.

(* ================================================================== *)
(** * Facts about the translation pipeline *)

Module TranslatorFacts.

Import JS Slicer SlicerFacts SlicerMoreFacts Translator.

(** ** Sums of rationals *)

Lemma sum_shift (f : Z -> Q) (xs : list Z) (a : Q) :
  (fold_left (fun acc x => acc + f x) xs a
   == a + fold_left (fun acc x => acc + f x) xs 0)%Q.
Proof.
  revert a. induction xs as [|x xs IH]; intros a; cbn [fold_left].
  - ring.
  - rewrite (IH (a + f x)%Q), (IH (0 + f x)%Q). ring.
Qed.

Lemma sumOver_cons (f : Z -> Q) (x : Z) (xs : list Z) :
  (sumOver f (x :: xs) == f x + sumOver f xs)%Q.
Proof.
  unfold sumOver. cbn [fold_left]. rewrite sum_shift.
  change (inject_Z 0) with 0%Q. ring.
Qed.


Lemma countQ_cons (x : Z) (xs : list Z) : (countQ (x :: xs) == countQ xs + 1)%Q.
Proof.
  unfold countQ. cbn [length]. rewrite Nat2Z.inj_succ.
  unfold Z.succ. rewrite inject_Z_plus. reflexivity.
Qed.

Lemma sum_of_deviations (g : Z -> Q) (a : Q) (xs : list Z) :
  (sumOver (fun i => g i - a) xs == sumOver g xs - countQ xs * a)%Q.
Proof.
  induction xs as [|x xs IH].
  - unfold sumOver, countQ. simpl. ring.
  - rewrite !sumOver_cons, countQ_cons, IH. ring.
Qed.

Lemma squares_about (g : Z -> Q) (a c : Q) (xs : list Z) :
  (sumOver (fun i => (g i - c) * (g i - c)) xs
   == sumOver (fun i => (g i - a) * (g i - a)) xs
      + (2 # 1) * (a - c) * sumOver (fun i => g i - a) xs
      + countQ xs * ((a - c) * (a - c)))%Q.
Proof.
  induction xs as [|x xs IH].
  - unfold sumOver, countQ. simpl. ring.
  - rewrite !sumOver_cons, countQ_cons, IH. ring.
Qed.

Lemma sumOver_le (f : Z -> Q) (m : Q) (xs : list Z) :
  (forall x, In x xs -> (f x <= m)%Q) ->
  (sumOver f xs <= countQ xs * m)%Q.
Proof.
  induction xs as [|x xs IH]; intros H.
  - unfold sumOver, countQ. simpl. unfold Qle. simpl. lia.
  - rewrite sumOver_cons, countQ_cons.
    pose proof (H x (or_introl eq_refl)).
    assert (sumOver f xs <= countQ xs * m)%Q
      by (apply IH; intros y Hy; apply H; now right).
    lra.
Qed.

Lemma countQ_nonneg (xs : list Z) : (0 <= countQ xs)%Q.
Proof.
  unfold countQ. change 0%Q with (inject_Z 0). rewrite <- Zle_Qle. lia.
Qed.

(** The mean of the squared deviations from the mean is at most the
    square of half the spread. *)
Lemma variance_of_narrow_band (g : Z -> Q) (lo half : Q) (xs : list Z) :
  xs <> [] ->
  (0 <= half)%Q ->
  (forall x, In x xs -> (lo <= g x <= lo + half + half)%Q) ->
  let avg := (sumOver g xs / countQ xs)%Q in
  (sumOver (fun i => (g i - avg) * (g i - avg)) xs / countQ xs
   <= half * half)%Q.
Proof.
  intros Hne Hhalf Hband avg.
  assert (Hn : (0 < countQ xs)%Q).
  { unfold countQ. change 0%Q with (inject_Z 0). rewrite <- Zlt_Qlt.
    destruct xs; [congruence|simpl; lia]. }
  apply Qle_shift_div_r; [exact Hn|].
  pose proof (squares_about g avg (lo + half) xs) as Hid.
  pose proof (sum_of_deviations g avg xs) as Hdev.
  assert (Hzero : (sumOver (fun i => g i - avg) xs == 0)%Q).
  { rewrite Hdev. unfold avg. field. lra. }
  rewrite Hzero in Hid.
  assert (Hsq : (0 <= countQ xs * ((avg - (lo + half)) * (avg - (lo + half))))%Q).
  { apply Qmult_le_0_compat; [lra|].
    destruct (Qlt_le_dec (avg - (lo + half)) 0).
    - setoid_replace ((avg - (lo + half)) * (avg - (lo + half)))%Q
        with ((- (avg - (lo + half))) * (- (avg - (lo + half))))%Q by ring.
      apply Qmult_le_0_compat; lra.
    - apply Qmult_le_0_compat; lra. }
  assert (Hle : (sumOver (fun i => (g i - (lo + half)) * (g i - (lo + half))) xs
                 <= countQ xs * (half * half))%Q).
  { apply sumOver_le. intros x Hx. destruct (Hband x Hx) as [H1 H2].
    assert (0 <= (half - (g x - (lo + half))) * (half + (g x - (lo + half))))%Q
      by (apply Qmult_le_0_compat; lra).
    lra. }
  lra.
Qed.

(** ** The samples *)

Lemma forRangeFuel_multiples (step : Z) (fuel : nat) (x stop v : Z) :
  In v (forRangeFuel fuel x stop step) ->
  exists k : nat, v = x + Z.of_nat k * step.
Proof.
  revert x. induction fuel as [|fuel IH]; cbn [forRangeFuel]; intros x Hin.
  - contradiction.
  - destruct (x <? stop); [|contradiction].
    destruct Hin as [<-|Hin].
    + exists 0%nat. lia.
    + destruct (IH _ Hin) as [k ->]. exists (S k). lia.
Qed.

Lemma sample_in_bounds (data : list Z) (i : Z) :
  Z.of_nat (length data) mod 4 = 0 ->
  In i (sampledIndices data) ->
  0 <= i /\ i + 3 < Z.of_nat (length data).
Proof.
  intros Hlen Hin. unfold sampledIndices in Hin.
  assert (Hb : 0 <= i < Z.of_nat (length data))
    by (apply (forRange_bounds 0 _ 16); [lia|exact Hin]).
  unfold forRange in Hin. apply forRangeFuel_multiples in Hin.
  destruct Hin as [k Hk].
  apply Zmod_divides in Hlen; [|lia]. destruct Hlen as [m Hm]. lia.
Qed.

Lemma pixelValue_exact (data : list Z) (i : Z) :
  0 <= i -> i + 2 < Z.of_nat (length data) ->
  pixelValue data i = Fin (greyAt data i).
Proof.
  intros H0 H2. unfold pixelValue, greyAt.
  rewrite !rd_exact by lia. cbn [add]. unfold ofZ.
  apply div_Fin. now apply inject_Z_nonzero.
Qed.

Lemma sum_loop (data : list Z) (idxs : list Z) :
  (forall i, In i idxs -> pixelValue data i = Fin (greyAt data i)) ->
  forall (a : Q) (c : Z),
    fold_left (sumStep data) idxs (Fin a, c)
    = (Fin (fold_left (fun acc i => acc + greyAt data i)%Q idxs a),
       c + Z.of_nat (length idxs)).
Proof.
  induction idxs as [|i idxs IH]; intros H a c.
  - simpl. now rewrite Z.add_0_r.
  - cbn [fold_left sumStep]. rewrite (H i (or_introl eq_refl)). cbn [add].
    rewrite IH by (intros j Hj; apply H; now right).
    f_equal. cbn [length]. lia.
Qed.

Lemma variance_loop (data : list Z) (avg : Q) (idxs : list Z) :
  (forall i, In i idxs -> pixelValue data i = Fin (greyAt data i)) ->
  forall a : Q,
    fold_left (varianceStep data (Fin avg)) idxs (Fin a)
    = Fin (fold_left (fun acc i =>
                        acc + (greyAt data i - avg) * (greyAt data i - avg))%Q
                     idxs a).
Proof.
  induction idxs as [|i idxs IH]; intros H a.
  - reflexivity.
  - cbn [fold_left]. unfold varianceStep at 2.
    rewrite (H i (or_introl eq_refl)). cbn [sub mul add].
    apply IH. intros j Hj. apply H. now right.
Qed.

(** The variance in closed form. *)
Lemma varianceOf_exact (data : list Z) :
  Z.of_nat (length data) mod 4 = 0 ->
  sampledIndices data <> [] ->
  let xs := sampledIndices data in
  let avg := (sumOver (greyAt data) xs / countQ xs)%Q in
  varianceOf data
  = Fin (sumOver (fun i => (greyAt data i - avg) * (greyAt data i - avg))%Q xs
         / countQ xs).
Proof.
  intros Hlen Hne xs avg.
  assert (Hex : forall i, In i xs -> pixelValue data i = Fin (greyAt data i)).
  { intros i Hi. destruct (sample_in_bounds data i Hlen Hi).
    apply pixelValue_exact; lia. }
  assert (Hn : ~ (countQ xs == 0)%Q).
  { unfold countQ. apply inject_Z_nonzero. fold xs in Hne.
    destruct xs; [congruence|simpl; lia]. }
  unfold varianceOf. fold xs. unfold ofZ at 1.
  rewrite (sum_loop data xs Hex). rewrite Z.add_0_l.
  unfold ofZ at 1. fold (countQ xs).
  rewrite (div_Fin _ _ Hn).
  fold (sumOver (greyAt data) xs). fold avg.
  unfold ofZ at 1. rewrite (variance_loop data avg xs Hex).
  unfold ofZ. fold (countQ xs). rewrite (div_Fin _ _ Hn).
  reflexivity.
Qed.

(** X16: a thumbnail whose sampled pixels span at most 19 grey levels
    has a variance of at most 90.25, below the threshold of 100 by more
    than any rounding of the sums, so [isComplexImage] answers false
    and the page is returned untranslated. *)
Theorem flat_thumbnail_is_not_complex :
  forall (data : list Z) (lo : Q),
    Z.of_nat (length data) mod 4 = 0 ->
    (forall i, In i (sampledIndices data) ->
               (lo <= greyAt data i <= lo + 19)%Q) ->
    isComplexImage data = false.
Proof.
  intros data lo Hlen Hband. unfold isComplexImage.
  destruct (sampledIndices data) as [|i0 rest] eqn:Exs.
  - unfold varianceOf. rewrite Exs. reflexivity.
  - assert (Hne : sampledIndices data <> []) by (rewrite Exs; discriminate).
    rewrite (varianceOf_exact data Hlen Hne). cbv zeta. rewrite Exs.
    unfold gt, ofZ. apply Qltb_ge.
    apply Qle_trans with ((19 # 2) * (19 # 2))%Q;
      [|unfold Qle; simpl; lia].
    apply (variance_of_narrow_band (greyAt data) lo (19 # 2) (i0 :: rest));
      [discriminate|lra|].
    intros x Hx. specialize (Hband x Hx). lra.
Qed.

(** ** What the test never reads *)

Lemma rd_agree (data data' : list Z) (i : Z) :
  length data' = length data ->
  nth (Z.to_nat i) data' 0 = nth (Z.to_nat i) data 0 ->
  rd data' i = rd data i.
Proof.
  intros Hlen Hnth. unfold rd. destruct (i <? 0); [reflexivity|].
  destruct (nth_error data (Z.to_nat i)) as [b|] eqn:E.
  - assert (Hlt : (Z.to_nat i < length data')%nat)
      by (rewrite Hlen; apply nth_error_Some; congruence).
    apply nth_error_Some in Hlt.
    destruct (nth_error data' (Z.to_nat i)) as [b'|] eqn:E'; [|congruence].
    rewrite (nth_error_nth _ _ 0 E) in Hnth.
    rewrite (nth_error_nth _ _ 0 E') in Hnth. now subst.
  - apply nth_error_None in E. rewrite <- Hlen in E.
    apply nth_error_None in E. now rewrite E.
Qed.

(** X17: [isComplexImage] reads the red, green and blue bytes of one
    pixel in four and nothing else: two thumbnails that agree on those
    bytes get the same answer, whatever the other pixels and the alpha
    channel hold. *)
Theorem only_sampled_bytes_are_read :
  forall data data' : list Z,
    length data' = length data ->
    (forall i k, In i (sampledIndices data) -> 0 <= k <= 2 ->
                 nth (Z.to_nat (i + k)) data' 0 = nth (Z.to_nat (i + k)) data 0) ->
    isComplexImage data' = isComplexImage data.
Proof.
  intros data data' Hlen Hsame.
  assert (Hpv : forall i, In i (sampledIndices data) ->
                          pixelValue data' i = pixelValue data i).
  { intros i Hi. unfold pixelValue.
    rewrite (rd_agree data data' i Hlen)
      by (rewrite <- (Z.add_0_r i); apply Hsame; [assumption|lia]).
    rewrite (rd_agree data data' (i + 1) Hlen) by (apply Hsame; [assumption|lia]).
    rewrite (rd_agree data data' (i + 2) Hlen) by (apply Hsame; [assumption|lia]).
    reflexivity. }
  unfold isComplexImage, varianceOf, sampledIndices in *. rewrite Hlen.
  set (xs := forRange 0 (Z.of_nat (length data)) 16) in *.
  assert (Hsum : forall acc, fold_left (sumStep data') xs acc
                             = fold_left (sumStep data) xs acc).
  { clear Hsame. induction xs as [|x xs IH]; intros acc; [reflexivity|].
    cbn [fold_left]. unfold sumStep at 2 4. destruct acc as [sum c].
    rewrite (Hpv x (or_introl eq_refl)).
    apply IH. intros j Hj. apply Hpv. now right. }
  rewrite Hsum.
  destruct (fold_left (sumStep data) xs (ofZ 0, 0)) as [sum c].
  assert (Hvar : forall avg acc, fold_left (varianceStep data' avg) xs acc
                                 = fold_left (varianceStep data avg) xs acc).
  { clear Hsame Hsum. intros avg.
    induction xs as [|x xs IH]; intros acc; [reflexivity|].
    cbn [fold_left]. unfold varianceStep at 2 4.
    rewrite (Hpv x (or_introl eq_refl)).
    apply IH. intros j Hj. apply Hpv. now right. }
  now rewrite Hvar.
Qed.

(** ** The aspect ratio *)

(** Distances compare as their squares do, and the comparison of the
    squares of [v - r] and [w - r] is linear in [r]. *)
Lemma Qabs_le_squares (a b : Q) :
  (Qabs a <= Qabs b)%Q <-> (a * a <= b * b)%Q.
Proof.
  split.
  - apply (Qabs_case a); apply (Qabs_case b); intros; nra.
  - apply (Qabs_case a); apply (Qabs_case b); intros;
      apply Qnot_lt_le; intros Hlt; nra.
Qed.

Lemma Qabs_lt_squares (a b : Q) :
  (Qabs a < Qabs b)%Q <-> (a * a < b * b)%Q.
Proof.
  split; intros H; apply Qnot_le_lt; intros Hle;
    apply Qabs_le_squares in Hle; lra.
Qed.

Ltac decide_comparison r :=
  match goal with
  | |- context [Qltb (Qabs (?v - r)) (Qabs (?w - r))] =>
      lazymatch w with
      | context [if _ then _ else _] => fail
      | _ =>
          let E := fresh "E" in
          destruct (Qltb (Qabs (v - r)) (Qabs (w - r))) eqn:E;
          [apply Qltb_lt, Qabs_lt_squares in E
          |apply Qltb_ge, Qabs_le_squares in E];
          cbn [val]; try solve [exfalso; lra]
      end
  end.

Ltac settle_ratio r :=
  unfold bestRatio, supportedRatios; cbn [fold_left];
  unfold closerRatio; cbn [val];
  repeat decide_comparison r;
  reflexivity.

(** X18: the aspect ratio asked of the image model, by the ratio
    [width / height] of the page: ["9:16"] below 0.65625, ["3:4"] from
    there to below 0.875, ["1:1"] from 0.875 to 1.165, ["4:3"] above
    1.165 up to 1.55 and ["16:9"] above 1.55. *)
Theorem aspect_ratio_bands :
  forall r : Q,
    ((r < 21 # 32)%Q -> label (bestRatio r) = "9:16"%string) /\
    ((21 # 32 <= r)%Q -> (r < 7 # 8)%Q -> label (bestRatio r) = "3:4"%string) /\
    ((7 # 8 <= r)%Q -> (r <= 233 # 200)%Q -> label (bestRatio r) = "1:1"%string) /\
    ((233 # 200 < r)%Q -> (r <= 31 # 20)%Q -> label (bestRatio r) = "4:3"%string) /\
    ((31 # 20 < r)%Q -> label (bestRatio r) = "16:9"%string).
Proof.
  intros r. split; [|split; [|split; [|split]]]; intros.
  - settle_ratio r.
  - settle_ratio r.
  - settle_ratio r.
  - settle_ratio r.
  - settle_ratio r.
Qed.

(** X19: the ratio chosen is a nearest one: no supported ratio is closer
    to [width / height] than the one sent. *)
Theorem chosen_ratio_is_nearest :
  forall (r : Q) (x : Ratio),
    In x supportedRatios ->
    (Qabs (val (bestRatio r) - r) <= Qabs (val x - r))%Q.
Proof.
  intros r x Hx.
  unfold bestRatio, supportedRatios in *. cbn [fold_left].
  unfold closerRatio. cbn [val].
  repeat decide_comparison r;
    simpl in Hx;
    repeat (destruct Hx as [<-|Hx];
            [cbn [val]; apply Qabs_le_squares; lra|]);
    contradiction.
Qed.

Lemma flat_thumbnail_is_not_complex_witness :
  Z.of_nat (length whiteThumb) mod 4 = 0 /\
  (forall i, In i (sampledIndices whiteThumb) ->
             (255 <= greyAt whiteThumb i <= 255 + 19)%Q) /\
  isComplexImage whiteThumb = false.
Proof.
  assert (H : forall i, In i (sampledIndices whiteThumb) ->
                        (255 <= greyAt whiteThumb i <= 255 + 19)%Q).
  { intros i Hi. vm_compute in Hi. destruct Hi as [<-|[]].
    split; vm_compute; discriminate. }
  split; [reflexivity|]. split; [exact H|].
  apply (flat_thumbnail_is_not_complex whiteThumb 255); [reflexivity|exact H].
Defined.

Lemma only_sampled_bytes_are_read_witness :
  length spottedThumb = length whiteThumb /\
  isComplexImage spottedThumb = isComplexImage whiteThumb.
Proof.
  split; [reflexivity|].
  apply (only_sampled_bytes_are_read whiteThumb spottedThumb); [reflexivity|].
  intros i k Hi Hk. vm_compute in Hi. destruct Hi as [<-|[]].
  assert (Hc : k = 0 \/ k = 1 \/ k = 2) by lia.
  destruct Hc as [-> | [-> | ->]]; reflexivity.
Defined.

Lemma aspect_ratio_bands_witness :
  (aspect 800 2500 < 21 # 32)%Q /\
  label (bestRatio (aspect 800 2500)) = "9:16"%string.
Proof.
  split; [vm_compute; reflexivity|].
  apply (proj1 (aspect_ratio_bands (aspect 800 2500))).
  vm_compute. reflexivity.
Defined.

Lemma chosen_ratio_is_nearest_witness :
  In (mkRatio (3 # 4) "3:4") supportedRatios /\
  (Qabs (val (bestRatio (aspect 800 2500)) - aspect 800 2500)
   <= Qabs (val (mkRatio (3 # 4) "3:4") - aspect 800 2500))%Q.
Proof.
  assert (H : In (mkRatio (3 # 4) "3:4") supportedRatios)
    by (simpl; auto).
  split; [exact H|].
  exact (chosen_ratio_is_nearest (aspect 800 2500) (mkRatio (3 # 4) "3:4") H).
Defined.

End TranslatorFacts.

(* ================================================================== *)
(** * Facts about the long-strip export *)

Module StitcherFacts.

Import Stitcher StitcherSpec.

(** ** renderBatch *)

Lemma drawStep_fold (maxWidth : Z) (batch : list Item) :
  forall (done : list Draw) (y : Z),
    fold_left (drawStep maxWidth) batch (done, y)
    = (done ++ place maxWidth y batch, y + batchHeight batch).
Proof.
  induction batch as [|item batch IH]; intros done y.
  - simpl. now rewrite app_nil_r, Z.add_0_r.
  - cbn [fold_left drawStep]. rewrite IH. cbn [place batchHeight fold_right].
    rewrite <- app_assoc. f_equal. fold (batchHeight batch). lia.
Qed.

Lemma renderBatch_spec (maxWidth : Z) (a : Acc) :
  renderBatch maxWidth a
  = match currentBatch a with
    | [] => resultUrls a
    | _ :: _ =>
        resultUrls a
        ++ [mkSheet maxWidth (currentHeight a)
                    (place maxWidth 0 (currentBatch a))]
    end.
Proof.
  unfold renderBatch. destruct (currentBatch a) as [|item batch]; [reflexivity|].
  now rewrite drawStep_fold.
Qed.

Lemma place_what (maxWidth y : Z) (batch : list Item) :
  map what (place maxWidth y batch) = map img batch.
Proof.
  revert y. induction batch as [|item batch IH]; intros y; [reflexivity|].
  simpl. now rewrite IH.
Qed.

Lemma place_tiled (maxWidth y : Z) (batch : list Item) :
  tiledFrom y (place maxWidth y batch).
Proof.
  revert y. induction batch as [|item batch IH]; intros y; simpl; auto.
Qed.

Lemma place_total (maxWidth y : Z) (batch : list Item) :
  totalHeight (place maxWidth y batch) = batchHeight batch.
Proof.
  revert y. induction batch as [|item batch IH]; intros y; [reflexivity|].
  unfold totalHeight, batchHeight in *. simpl. now rewrite IH.
Qed.

Lemma place_scaled (maxWidth y : Z) (batch : list Item) :
  Forall (fun item => height item = scaledHeight maxWidth (img item)) batch ->
  Forall (fun d => dWidth d = maxWidth /\
                   dHeight d = scaledHeight maxWidth (what d))
         (place maxWidth y batch).
Proof.
  revert y. induction batch as [|item batch IH]; intros y H; simpl.
  - constructor.
  - inversion H; subst. constructor; [now split|now apply IH].
Qed.

Lemma place_length (maxWidth y : Z) (batch : list Item) :
  length (place maxWidth y batch) = length batch.
Proof.
  revert y. induction batch as [|item batch IH]; intros y; simpl; auto.
Qed.

Lemma batchHeight_snoc (batch : list Item) (item : Item) :
  batchHeight (batch ++ [item]) = batchHeight batch + height item.
Proof.
  unfold batchHeight. induction batch as [|x batch IH]; simpl; [lia|].
  rewrite IH. lia.
Qed.

(** ** Lists of sheets *)

Lemma drawnImages_snoc (sheets : list Sheet) (s : Sheet) :
  drawnImages (sheets ++ [s]) = drawnImages sheets ++ map what (draws s).
Proof.
  unfold drawnImages. rewrite flat_map_app. simpl. now rewrite app_nil_r.
Qed.

(** Only the height of a sheet and its first drawing matter to
    [packed]. *)
Lemma packed_last (sheets : list Sheet) (s s' : Sheet) :
  hd_error (draws s') = hd_error (draws s) ->
  packed (sheets ++ [s]) -> packed (sheets ++ [s']).
Proof.
  intros Hhd. induction sheets as [|x sheets IH]; [simpl; auto|].
  destruct sheets as [|x2 sheets].
  - simpl. intros [H _]. split; [|exact I].
    destruct (draws s) as [|d ds], (draws s') as [|d' ds'];
      simpl in Hhd; try discriminate; [exact H|].
    injection Hhd as ->. exact H.
  - intros [H Hp]. split; [exact H|]. apply IH. exact Hp.
Qed.

Lemma packed_snoc (sheets : list Sheet) (s s' : Sheet) (d : Draw)
    (ds : list Draw) :
  draws s' = d :: ds ->
  MAX_CANVAS_HEIGHT < sheight s + dHeight d ->
  packed (sheets ++ [s]) -> packed ((sheets ++ [s]) ++ [s']).
Proof.
  intros Hd Hgap. induction sheets as [|x sheets IH].
  - simpl. intros _. rewrite Hd. auto.
  - destruct sheets as [|x2 sheets].
    + simpl. intros [H _]. rewrite Hd. auto.
    + intros [H Hp]. split; [exact H|]. apply IH. exact Hp.
Qed.

(** ** The loop *)

Lemma stitchInv_start (maxWidth : Z) :
  stitchInv maxWidth [] (mkAcc [] [] 0).
Proof.
  unfold stitchInv. simpl. repeat split; auto.
Qed.

Lemma wellLaid_batch (maxWidth cur : Z) (item : Item) (batch : list Item) :
  cur = batchHeight (item :: batch) ->
  Forall (fun it => height it = scaledHeight maxWidth (img it)) (item :: batch) ->
  (cur <= MAX_CANVAS_HEIGHT \/ (length (item :: batch) <= 1)%nat) ->
  wellLaid maxWidth (mkSheet maxWidth cur (place maxWidth 0 (item :: batch))).
Proof.
  intros Hcur Hsc Hmax. unfold wellLaid. cbn [swidth sheight draws].
  split; [reflexivity|]. split; [simpl; discriminate|].
  split; [apply place_tiled|]. split; [now rewrite place_total|].
  split; [now apply place_scaled|].
  destruct Hmax as [H|H]; [now left|right].
  rewrite place_length. simpl in *. lia.
Qed.

Lemma Forall_snoc_inv {A : Type} (P : A -> Prop) (l : list A) (x : A) :
  Forall P (l ++ [x]) -> Forall P l.
Proof. intros H. apply Forall_app in H. tauto. Qed.

Lemma stitchInv_step (maxWidth : Z) (seen : list Image) (a : Acc) (im : Image) :
  stitchInv maxWidth seen a ->
  stitchInv maxWidth (seen ++ [im]) (stitchStep maxWidth a im).
Proof.
  intros (Hempty & Hcur & Hsc & Hmax & Hseen & Hlaid & Hpacked).
  rewrite renderBatch_spec in Hseen, Hlaid, Hpacked.
  unfold stitchStep. set (h := scaledHeight maxWidth im).
  destruct (currentHeight a + h >? MAX_CANVAS_HEIGHT) eqn:Eflush.
  - (* the batch is rendered and a new one opened *)
    rewrite Z.gtb_ltb in Eflush. apply Z.ltb_lt in Eflush.
    unfold stitchInv. rewrite !renderBatch_spec.
    cbn [resultUrls currentBatch currentHeight app].
    try rewrite renderBatch_spec.
    split; [discriminate|]. split; [unfold batchHeight; simpl; lia|].
    split; [repeat constructor|]. split; [right; simpl; lia|].
    destruct (currentBatch a) as [|item batch] eqn:Eb.
    + rewrite (Hempty eq_refl) in *. simpl in Hseen. subst seen.
      cbn [app]. split; [reflexivity|]. split; [|simpl; auto].
      constructor; [|constructor].
      apply (wellLaid_batch maxWidth (0 + h) (mkItem im h) []);
        [unfold batchHeight; simpl; lia|repeat constructor|right; simpl; lia].
    + split; [|split].
      * rewrite drawnImages_snoc, Hseen. reflexivity.
      * apply Forall_app. split; [exact Hlaid|].
        constructor; [|constructor].
        apply (wellLaid_batch maxWidth (0 + h) (mkItem im h) []);
          [unfold batchHeight; simpl; lia|repeat constructor|right; simpl; lia].
      * apply (packed_snoc _ _ _ (mkDraw im 0 maxWidth h) []);
          [reflexivity| |exact Hpacked].
        cbn [sheight dHeight]. lia.
  - (* the image joins the current batch *)
    rewrite Z.gtb_ltb in Eflush. apply Z.ltb_ge in Eflush.
    unfold stitchInv. rewrite !renderBatch_spec.
    cbn [resultUrls currentBatch currentHeight].
    split.
    { intros H. now destruct (currentBatch a). }
    split; [rewrite batchHeight_snoc; cbn [height]; lia|].
    split; [apply Forall_app; split; [exact Hsc|repeat constructor]|].
    split; [now left|].
    destruct (currentBatch a) as [|item batch] eqn:Eb.
    + rewrite (Hempty eq_refl) in *. simpl in Hseen. subst seen.
      cbn [app]. split; [reflexivity|]. split; [|simpl; auto].
      constructor; [|constructor].
      apply (wellLaid_batch maxWidth (currentHeight a + h) (mkItem im h) []);
        [rewrite Hcur; unfold batchHeight; simpl; lia|repeat constructor
        |right; simpl; lia].
    + cbn [app]. split; [|split].
      * rewrite drawnImages_snoc in *. cbn [draws] in *.
        rewrite place_what in *. rewrite <- Hseen.
        change (item :: batch ++ [mkItem im h])
          with ((item :: batch) ++ [mkItem im h]).
        rewrite map_app, app_assoc. reflexivity.
      * apply Forall_app. split; [now apply Forall_snoc_inv in Hlaid|].
        constructor; [|constructor].
        apply (wellLaid_batch maxWidth (currentHeight a + h) item
                              (batch ++ [mkItem im h])).
        -- change (item :: batch ++ [mkItem im h])
             with ((item :: batch) ++ [mkItem im h]).
           rewrite batchHeight_snoc. cbn [height]. lia.
        -- change (item :: batch ++ [mkItem im h])
             with ((item :: batch) ++ [mkItem im h]).
           apply Forall_app. split; [exact Hsc|repeat constructor].
        -- now left.
      * revert Hpacked. apply packed_last. reflexivity.
Qed.

Lemma stitchInv_loop (maxWidth : Z) (images : list Image) :
  stitchInv maxWidth images
            (fold_left (stitchStep maxWidth) images (mkAcc [] [] 0)).
Proof.
  induction images as [|im images IH] using rev_ind.
  - apply stitchInv_start.
  - rewrite fold_left_app. cbn [fold_left]. now apply stitchInv_step.
Qed.

Lemma stitch_spec (images : list Image) :
  drawnImages (stitchTranslatedPages images) = images /\
  Forall (wellLaid (sheetWidth images)) (stitchTranslatedPages images) /\
  packed (stitchTranslatedPages images).
Proof.
  destruct images as [|first rest].
  - simpl. repeat split; auto.
  - unfold stitchTranslatedPages, sheetWidth.
    destruct (stitchInv_loop (maxWidthOf first rest) (first :: rest))
      as (_ & _ & _ & _ & Hseen & Hlaid & Hpacked).
    auto.
Qed.

(** X20: the long-strip export draws every page exactly once and in the
    order given: the images drawn, sheet after sheet and from top to
    bottom, are the input list; and no sheet is empty. *)
Theorem export_keeps_every_page_in_order :
  forall images : list Image,
    drawnImages (stitchTranslatedPages images) = images /\
    Forall (fun s => draws s <> []) (stitchTranslatedPages images).
Proof.
  intros images. destruct (stitch_spec images) as (Hseen & Hlaid & _).
  split; [exact Hseen|].
  apply (Forall_impl _ (P := wellLaid (sheetWidth images))); [|exact Hlaid].
  intros s Hs. apply Hs.
Qed.

(** ** Scaling *)

Lemma fold_max_ge (ws : list Z) (w0 : Z) :
  w0 <= fold_left Z.max ws w0 /\
  (forall w, In w ws -> w <= fold_left Z.max ws w0) /\
  (fold_left Z.max ws w0 = w0 \/ In (fold_left Z.max ws w0) ws).
Proof.
  revert w0. induction ws as [|x ws IH]; intros w0.
  - simpl. split; [lia|]. split; [intros w []|now left].
  - cbn [fold_left]. destruct (IH (Z.max w0 x)) as (H0 & Hall & Hat).
    split; [lia|]. split.
    + intros w [<-|Hw]; [lia|now apply Hall].
    + destruct Hat as [Heq|Hin].
      * rewrite Heq. destruct (Z.max_spec w0 x) as [[_ ->]|[_ ->]];
          [right; now left|now left].
      * right. now right.
Qed.

Lemma sheetWidth_max (images : list Image) (im : Image) :
  In im images ->
  naturalWidth im <= sheetWidth images /\
  exists widest, In widest images /\ naturalWidth widest = sheetWidth images.
Proof.
  destruct images as [|first rest]; [intros []|].
  intros Hin. unfold sheetWidth, maxWidthOf.
  destruct (fold_max_ge (map naturalWidth rest) (naturalWidth first))
    as (H0 & Hall & Hat).
  split.
  - destruct Hin as [<-|Hin]; [exact H0|]. apply Hall. now apply in_map.
  - destruct Hat as [Heq|Hin'].
    + exists first. split; [now left|now rewrite Heq].
    + apply in_map_iff in Hin'. destruct Hin' as [w [Hw Hwin]].
      exists w. split; [now right|exact Hw].
Qed.

(** Scaling to a width that is not smaller never lowers the height. *)
Lemma scaledHeight_ge (maxWidth : Z) (im : Image) :
  0 < naturalWidth im -> naturalWidth im <= maxWidth ->
  0 <= naturalHeight im ->
  naturalHeight im <= scaledHeight maxWidth im.
Proof.
  intros Hw Hle Hh. unfold scaledHeight, JS.floor.
  rewrite <- (Qfloor_Z (naturalHeight im)) at 1.
  apply Qfloor_resp_le.
  assert (Hone : (1 <= inject_Z maxWidth / inject_Z (naturalWidth im))%Q).
  { apply Qle_shift_div_l.
    - change 0%Q with (inject_Z 0). now rewrite <- Zlt_Qlt.
    - rewrite Qmult_1_l. now rewrite <- Zle_Qle. }
  assert (H0 : (0 <= inject_Z (naturalHeight im))%Q)
    by (change 0%Q with (inject_Z 0); now rewrite <- Zle_Qle).
  nra.
Qed.

(** The drawings of the export are of images of the input, and none
    has a negative height. *)
Lemma drawn_heights (images : list Image) (s : Sheet) (d : Draw) :
  Forall (fun i => 0 < naturalWidth i /\ 0 <= naturalHeight i) images ->
  In s (stitchTranslatedPages images) -> In d (draws s) ->
  In (what d) images /\
  naturalHeight (what d) <= dHeight d /\ 0 <= dHeight d.
Proof.
  intros Hpos Hs Hd.
  destruct (stitch_spec images) as (Hseen & Hlaid & _).
  assert (Hin : In (what d) images).
  { rewrite <- Hseen. unfold drawnImages. apply in_flat_map.
    exists s. split; [exact Hs|now apply in_map]. }
  rewrite Forall_forall in Hlaid, Hpos.
  destruct (Hlaid s Hs) as (_ & _ & _ & _ & Hsc & _).
  rewrite Forall_forall in Hsc. destruct (Hsc d Hd) as [_ Hh].
  destruct (Hpos _ Hin) as [Hw Hnh].
  destruct (sheetWidth_max images _ Hin) as [Hle _].
  pose proof (scaledHeight_ge (sheetWidth images) (what d) Hw Hle Hnh).
  split; [exact Hin|]. lia.
Qed.

Lemma totalHeight_nonneg (ds : list Draw) :
  Forall (fun d => 0 <= dHeight d) ds -> 0 <= totalHeight ds.
Proof.
  unfold totalHeight. induction 1 as [|z ds Hz _ IH]; simpl; lia.
Qed.

Lemma tiled_inside (ds : list Draw) :
  Forall (fun d => 0 <= dHeight d) ds ->
  forall y, tiledFrom y ds ->
    forall d, In d ds -> y <= dy d /\ dy d + dHeight d <= y + totalHeight ds.
Proof.
  induction 1 as [|x ds Hx Hall IH]; intros y Ht d Hd; [destruct Hd|].
  destruct Ht as [Hy Ht].
  pose proof (totalHeight_nonneg ds Hall) as Hrest.
  unfold totalHeight in *. cbn [fold_right]. cbv beta in Hx.
  destruct Hd as [<-|Hd].
  - lia.
  - specialize (IH _ Ht d Hd). lia.
Qed.

Lemma packed_nth (sheets : list Sheet) :
  packed sheets ->
  forall n s1 s2,
    nth_error sheets n = Some s1 -> nth_error sheets (S n) = Some s2 ->
    exists d ds, draws s2 = d :: ds /\
                 MAX_CANVAS_HEIGHT < sheight s1 + dHeight d.
Proof.
  induction sheets as [|a sheets IH]; intros Hp n s1 s2 H1 H2;
    [destruct n; discriminate|].
  destruct sheets as [|b sheets]; [destruct n; discriminate|].
  destruct Hp as [Hab Hp]. destruct n as [|n].
  - simpl in H1, H2. injection H1 as <-. injection H2 as <-.
    destruct (draws b) as [|d ds]; [destruct Hab|]. eauto.
  - apply (IH Hp n); assumption.
Qed.

(** X21: for loaded pictures (positive natural width), every sheet of
    the export has the width of the widest page and holds at least one
    page; its pages are drawn one under the other from the top, each at
    the common width and inside the canvas; the canvas is as high as
    its pages together, and that is at most [MAX_CANVAS_HEIGHT] (16384)
    unless the sheet holds one single page. *)
Theorem export_sheets_are_well_laid :
  forall images : list Image,
    Forall (fun i => 0 < naturalWidth i /\ 0 <= naturalHeight i) images ->
    Forall (laidOut (sheetWidth images)) (stitchTranslatedPages images).
Proof.
  intros images Hpos.
  destruct (stitch_spec images) as (_ & Hlaid & _).
  apply Forall_forall. intros s Hs.
  rewrite Forall_forall in Hlaid.
  destruct (Hlaid s Hs) as (Hw & Hne & Ht & Hsh & Hd & Hmax).
  assert (Hnn : Forall (fun d => 0 <= dHeight d) (draws s)).
  { apply Forall_forall. intros d Hin.
    now destruct (drawn_heights images s d Hpos Hs Hin) as (_ & _ & H). }
  split; [exact Hw|]. split; [exact Hne|]. split; [exact Ht|].
  split; [exact Hsh|]. split; [|exact Hmax].
  apply Forall_forall. intros d Hin.
  rewrite Forall_forall in Hd. destruct (Hd d Hin) as [Hdw _].
  destruct (tiled_inside (draws s) Hnn 0 Ht d Hin) as [H1 H2].
  split; [exact Hdw|]. rewrite Hsh. lia.
Qed.

(** X22: for loaded pictures, the export starts a new sheet only when
    it must: the first page of each sheet would have made the sheet
    before it higher than [MAX_CANVAS_HEIGHT], so no two neighbouring
    sheets fit on one canvas. *)
Theorem export_sheets_are_packed :
  forall images : list Image,
    Forall (fun i => 0 < naturalWidth i /\ 0 <= naturalHeight i) images ->
    packed (stitchTranslatedPages images) /\
    forall n s1 s2,
      nth_error (stitchTranslatedPages images) n = Some s1 ->
      nth_error (stitchTranslatedPages images) (S n) = Some s2 ->
      MAX_CANVAS_HEIGHT < sheight s1 + sheight s2.
Proof.
  intros images Hpos.
  destruct (stitch_spec images) as (_ & Hlaid & Hpacked).
  split; [exact Hpacked|].
  intros n s1 s2 H1 H2.
  destruct (packed_nth _ Hpacked n s1 s2 H1 H2) as (d & ds & Hd & Hgap).
  pose proof (nth_error_In _ _ H2) as Hs2.
  rewrite Forall_forall in Hlaid.
  destruct (Hlaid s2 Hs2) as (_ & _ & Ht & Hsh & _).
  assert (Hnn : Forall (fun d => 0 <= dHeight d) (draws s2)).
  { apply Forall_forall. intros x Hx.
    now destruct (drawn_heights images s2 x Hpos Hs2 Hx) as (_ & _ & H). }
  assert (Hin : In d (draws s2)) by (rewrite Hd; now left).
  destruct (tiled_inside (draws s2) Hnn 0 Ht d Hin) as [Hy Htop].
  rewrite Hsh. lia.
Qed.

(** X23: the export never shrinks a page: every page is at most as wide
    as the sheets, the height it is drawn at is at least its natural
    height, and a page as wide as the sheets (there is one) keeps its
    natural height. *)
Theorem export_never_shrinks_a_page :
  forall (images : list Image) (im : Image),
    Forall (fun i => 0 < naturalWidth i /\ 0 <= naturalHeight i) images ->
    In im images ->
    naturalWidth im <= sheetWidth images /\
    naturalHeight im <= scaledHeight (sheetWidth images) im /\
    (naturalWidth im = sheetWidth images ->
     scaledHeight (sheetWidth images) im = naturalHeight im) /\
    exists widest, In widest images /\ naturalWidth widest = sheetWidth images.
Proof.
  intros images im Hpos Hin.
  destruct (sheetWidth_max images im Hin) as [Hle Hwidest].
  rewrite Forall_forall in Hpos. destruct (Hpos im Hin) as [Hw Hh].
  split; [exact Hle|]. split; [|split; [|exact Hwidest]].
  - now apply scaledHeight_ge.
  - intros Heq. unfold scaledHeight, JS.floor. rewrite <- Heq.
    rewrite <- (Qfloor_Z (naturalHeight im)) at 2.
    apply Qfloor_comp. field.
    apply SlicerFacts.inject_Z_nonzero. lia.
Qed.

Lemma threePages_loaded :
  Forall (fun i => 0 < naturalWidth i /\ 0 <= naturalHeight i) threePages.
Proof. repeat constructor; simpl; lia. Defined.

Lemma export_sheets_are_well_laid_witness :
  Forall (fun i => 0 < naturalWidth i /\ 0 <= naturalHeight i) threePages /\
  map sheight (stitchTranslatedPages threePages) = [9000; 9000] /\
  Forall (laidOut (sheetWidth threePages)) (stitchTranslatedPages threePages).
Proof.
  split; [exact threePages_loaded|]. split; [vm_compute; reflexivity|].
  exact (export_sheets_are_well_laid threePages threePages_loaded).
Defined.

Lemma export_sheets_are_packed_witness :
  Forall (fun i => 0 < naturalWidth i /\ 0 <= naturalHeight i) threePages /\
  map sheight (stitchTranslatedPages threePages) = [9000; 9000] /\
  packed (stitchTranslatedPages threePages).
Proof.
  split; [exact threePages_loaded|]. split; [vm_compute; reflexivity|].
  exact (proj1 (export_sheets_are_packed threePages threePages_loaded)).
Defined.

Lemma export_never_shrinks_a_page_witness :
  Forall (fun i => 0 < naturalWidth i /\ 0 <= naturalHeight i) threePages /\
  In (mkImage "blob:2" 400 4000) threePages /\
  naturalHeight (mkImage "blob:2" 400 4000)
  <= scaledHeight (sheetWidth threePages) (mkImage "blob:2" 400 4000).
Proof.
  assert (Hin : In (mkImage "blob:2" 400 4000) threePages)
    by (simpl; auto).
  split; [exact threePages_loaded|]. split; [exact Hin|].
  exact (proj1 (proj2 (export_never_shrinks_a_page
                         threePages _ threePages_loaded Hin))).
Defined.

End StitcherFacts.

(* ================================================================== *)
(** * Facts about the loading of a chapter *)

Module LoaderFacts.

Import Slicer Scheduler Loader LoaderSpec.

(** ** extractNumber *)

Lemma firstDigits_skip (pre s : string) :
  firstDigits pre = None ->
  firstDigits (pre ++ s)%string = firstDigits s.
Proof.
  induction pre as [|c pre IH]; intros H; [reflexivity|].
  simpl in *. destruct (isDigit c); [discriminate|now apply IH].
Qed.

Lemma parseDigits_stop (acc : Z) (post : string) :
  digitRun post = EmptyString -> parseDigits acc post = acc.
Proof.
  destruct post as [|c post]; [reflexivity|].
  simpl. now destruct (isDigit c).
Qed.

Lemma digitRun_numeral (d : Decimal.uint) (post : string) :
  digitRun post = EmptyString ->
  digitRun (NilEmpty.string_of_uint d ++ post)%string
  = NilEmpty.string_of_uint d.
Proof.
  intros Hpost. induction d; simpl; try exact Hpost;
    change (isDigit _) with true; cbv iota; now rewrite IHd.
Qed.

Lemma parseDigits_numeral (d : Decimal.uint) :
  forall acc : nat,
    parseDigits (Z.of_nat acc) (NilEmpty.string_of_uint d)
    = Z.of_nat (Nat.of_uint_acc d acc).
Proof.
  induction d; intros acc; cbn [NilEmpty.string_of_uint Nat.of_uint_acc];
    try reflexivity;
    cbn [parseDigits]; change (isDigit _) with true; cbv iota;
    rewrite <- IHd; f_equal; rewrite Nat.tail_mul_spec;
    match goal with
    | |- context [digitValue ?c] =>
        let v := eval vm_compute in (digitValue c) in
        change (digitValue c) with v
    end; lia.
Qed.

(** The value read by the model of [extractNumber], whatever its size. *)
Lemma extractNumber_numeral (pre post : string) (d : Decimal.uint) :
  firstDigits pre = None ->
  digitRun post = EmptyString ->
  d <> Decimal.Nil ->
  extractNumber (pre ++ NilEmpty.string_of_uint d ++ post)%string
  = Z.of_nat (Nat.of_uint d).
Proof.
  intros Hpre Hpost Hd. unfold extractNumber.
  rewrite (firstDigits_skip _ _ Hpre).
  assert (Hfirst : firstDigits (NilEmpty.string_of_uint d ++ post)%string
                   = Some (NilEmpty.string_of_uint d)).
  { destruct d; try congruence; simpl;
      change (isDigit _) with true; cbv iota;
      now rewrite (digitRun_numeral _ _ Hpost). }
  rewrite Hfirst. exact (parseDigits_numeral d 0).
Qed.

(** X24: [extractNumber] reads the first number of a file name: when the
    name is a prefix without digits, then a decimal numeral of a number
    below [2^53], then a rest that does not begin with a digit, the
    result is the value of the numeral (leading zeros allowed); the
    numeral of [n < 2^53] gives [n]; a name without digits gives 0. *)
Theorem extractNumber_reads_the_first_number :
  forall pre post : string,
    firstDigits pre = None ->
    digitRun post = EmptyString ->
    (forall d : Decimal.uint,
        d <> Decimal.Nil ->
        Z.of_nat (Nat.of_uint d) < 2 ^ 53 ->
        extractNumber (pre ++ NilEmpty.string_of_uint d ++ post)%string
        = Z.of_nat (Nat.of_uint d)) /\
    (forall n : nat,
        Z.of_nat n < 2 ^ 53 ->
        extractNumber (pre ++ NilEmpty.string_of_uint (Nat.to_uint n) ++ post)%string
        = Z.of_nat n) /\
    extractNumber pre = 0.
Proof.
  intros pre post Hpre Hpost.
  split; [|split].
  - intros d Hd _. now apply extractNumber_numeral.
  - intros n _. rewrite extractNumber_numeral; try assumption.
    + now rewrite Unsigned.of_to.
    + intros Hnil. pose proof (Unsigned.of_to n) as Hn.
      rewrite Hnil in Hn. simpl in Hn. subst n. discriminate.
  - unfold extractNumber. now rewrite Hpre.
Qed.

(** ** The sort *)

Section Sorting.

Variable sortOrder : SortOrder.

Lemma compare_strict (x y : File) :
  (compareFiles sortOrder x y <? 0) = true ->
  comesBefore sortOrder x y /\ fileNumber x <> fileNumber y.
Proof.
  unfold compareFiles, comesBefore, inOrder, fileNumber. intros H.
  apply Z.ltb_lt in H.
  destruct sortOrder; lia.
Qed.

Lemma compare_weak (x y : File) :
  (compareFiles sortOrder x y <? 0) = false -> comesBefore sortOrder y x.
Proof.
  unfold compareFiles, comesBefore, inOrder, fileNumber. intros H.
  apply Z.ltb_ge in H.
  destruct sortOrder; lia.
Qed.

Lemma before_trans (a b c : File) :
  comesBefore sortOrder a b -> comesBefore sortOrder b c ->
  comesBefore sortOrder a c.
Proof. unfold comesBefore, inOrder. destruct sortOrder; lia. Qed.

Lemma before_strict_trans (a b c : File) :
  comesBefore sortOrder a b -> fileNumber a <> fileNumber b ->
  comesBefore sortOrder b c -> fileNumber c <> fileNumber a.
Proof. unfold comesBefore, inOrder. destruct sortOrder; lia. Qed.

Lemma insertBy_perm (x : File) (l : list File) :
  Permutation (insertBy (compareFiles sortOrder) x l) (x :: l).
Proof.
  induction l as [|y l IH]; simpl; [reflexivity|].
  destruct (compareFiles sortOrder x y <? 0); [reflexivity|].
  rewrite IH. apply perm_swap.
Qed.

Lemma insertBy_sorted (x : File) (l : list File) :
  StronglySorted (comesBefore sortOrder) l ->
  StronglySorted (comesBefore sortOrder) (insertBy (compareFiles sortOrder) x l).
Proof.
  induction 1 as [|y l Hs IH Hall]; simpl.
  - repeat constructor.
  - destruct (compareFiles sortOrder x y <? 0) eqn:E.
    + apply compare_strict in E. destruct E as [Hxy _].
      constructor; [now constructor|].
      constructor; [exact Hxy|].
      eapply Forall_impl; [|exact Hall]. intros z Hz.
      now apply before_trans with y.
    + apply compare_weak in E. constructor; [exact IH|].
      apply Forall_forall. intros z Hz.
      apply (Permutation_in _ (insertBy_perm x l)) in Hz.
      destruct Hz as [<-|Hz]; [exact E|].
      rewrite Forall_forall in Hall. now apply Hall.
Qed.

Lemma insertBy_stable (k : Z) (x : File) (l : list File) :
  StronglySorted (comesBefore sortOrder) l ->
  filter (fun f => fileNumber f =? k) (insertBy (compareFiles sortOrder) x l)
  = filter (fun f => fileNumber f =? k) l
    ++ (if fileNumber x =? k then [x] else []).
Proof.
  induction 1 as [|y l Hs IH Hall]; simpl.
  - now destruct (fileNumber x =? k).
  - destruct (compareFiles sortOrder x y <? 0) eqn:E.
    + apply compare_strict in E. destruct E as [Hxy Hne].
      cbn [filter]. destruct (fileNumber x =? k) eqn:Ex; [|now rewrite app_nil_r].
      apply Z.eqb_eq in Ex.
      assert (Hy : (fileNumber y =? k) = false) by (apply Z.eqb_neq; lia).
      rewrite Hy.
      assert (Hnone : filter (fun f => fileNumber f =? k) l = []).
      { clear IH Hs. induction Hall as [|z l Hz _ IHl]; [reflexivity|].
        simpl. pose proof (before_strict_trans x y z Hxy Hne Hz).
        assert (Hzk : (fileNumber z =? k) = false) by (apply Z.eqb_neq; lia).
        now rewrite Hzk. }
      now rewrite Hnone.
    + cbn [filter]. rewrite IH. now destruct (fileNumber y =? k).
Qed.

Lemma sort_loop (k : Z) (l : list File) :
  forall acc : list File,
    StronglySorted (comesBefore sortOrder) acc ->
    let out := fold_left (fun sorted x => insertBy (compareFiles sortOrder) x sorted)
                         l acc in
    Permutation out (acc ++ l) /\
    StronglySorted (comesBefore sortOrder) out /\
    filter (fun f => fileNumber f =? k) out
    = filter (fun f => fileNumber f =? k) acc ++ filter (fun f => fileNumber f =? k) l.
Proof.
  induction l as [|x l IH]; intros acc Hacc; cbn [fold_left].
  - cbv zeta. simpl. rewrite !app_nil_r. auto.
  - destruct (IH _ (insertBy_sorted x acc Hacc)) as (Hp & Hs & Hf).
    split; [|split].
    + rewrite Hp, insertBy_perm. apply Permutation_middle.
    + exact Hs.
    + rewrite Hf, (insertBy_stable k x acc Hacc). cbn [filter].
      rewrite <- app_assoc. now destruct (fileNumber x =? k).
Qed.

End Sorting.

(** The sort of the model, whatever the numbers. *)
Lemma sortBy_spec (sortOrder : SortOrder) (files : list File) :
  Permutation (sortBy (compareFiles sortOrder) files) files /\
  StronglySorted (fun a b => inOrder sortOrder (extractNumber (fname a))
                                     (extractNumber (fname b)))
                 (sortBy (compareFiles sortOrder) files) /\
  forall k : Z,
    filter (fun f => extractNumber (fname f) =? k)
           (sortBy (compareFiles sortOrder) files)
    = filter (fun f => extractNumber (fname f) =? k) files.
Proof.
  unfold sortBy. split; [|split].
  - exact (proj1 (sort_loop sortOrder 0 files [] (SSorted_nil _))).
  - exact (proj1 (proj2 (sort_loop sortOrder 0 files [] (SSorted_nil _)))).
  - intros k.
    exact (proj2 (proj2 (sort_loop sortOrder k files [] (SSorted_nil _)))).
Qed.

Lemma sortBy_safeNumbers (sortOrder : SortOrder) (files : list File) :
  safeNumbers files -> safeNumbers (sortBy (compareFiles sortOrder) files).
Proof.
  unfold safeNumbers. intros H. apply Forall_forall. intros f Hf.
  rewrite Forall_forall in H. apply H.
  apply (Permutation_in f (proj1 (sortBy_spec sortOrder files)) Hf).
Qed.

(** X25: when the numbers in the names of the selected files are below
    [2^53], [handleFilesSelected] orders the files by these numbers:
    the sorted list is a rearrangement of the selection, its numbers
    stay below [2^53] and never decrease (ascending order) or never
    increase (descending order), and files with the same number keep
    the order of the selection. *)
Theorem files_are_sorted_by_number :
  forall (sortOrder : SortOrder) (files : list File),
    safeNumbers files ->
    let sorted := sortBy (compareFiles sortOrder) files in
    Permutation sorted files /\
    safeNumbers sorted /\
    StronglySorted (fun a b => inOrder sortOrder (extractNumber (fname a))
                                       (extractNumber (fname b))) sorted /\
    forall k : Z,
      filter (fun f => extractNumber (fname f) =? k) sorted
      = filter (fun f => extractNumber (fname f) =? k) files.
Proof.
  intros sortOrder files Hsafe sorted. unfold sorted.
  destruct (sortBy_spec sortOrder files) as (Hp & Hs & Hk).
  split; [exact Hp|]. split; [now apply sortBy_safeNumbers|].
  split; [exact Hs|exact Hk].
Qed.

(** ** The pages *)

Lemma pagesOf_spec (fresh : nat -> string * string) (file : File)
    (chunks : list File) :
  forall newPages : list MangaPage,
    exists added,
      pagesOf fresh file chunks newPages = newPages ++ added /\
      map originalFile added = chunks /\
      Forall (fun p => status p = pending /\ translatedUrl p = None /\
                       pageNumber p = extractNumber (fname file)) added /\
      forall n p, nth_error added n = Some p ->
                  id p = fst (fresh (length newPages + n)%nat).
Proof.
  unfold pagesOf. induction chunks as [|c chunks IH]; intros newPages.
  - exists []. simpl. rewrite app_nil_r. repeat split; auto.
    intros n p H. destruct n; discriminate.
  - cbn [fold_left].
    destruct (IH (newPages ++
                  [mkPage (fst (fresh (length newPages))) c
                          (snd (fresh (length newPages))) None pending
                          (extractNumber (fname file))]))
      as (added & Heq & Hfiles & Hall & Hids).
    eexists (_ :: added). split; [|split; [|split]].
    + rewrite Heq, <- app_assoc. reflexivity.
    + simpl. now rewrite Hfiles.
    + constructor; [simpl; auto|exact Hall].
    + intros n p Hn. destruct n as [|n].
      * injection Hn as <-. simpl. now rewrite Nat.add_0_r.
      * simpl in Hn. rewrite (Hids n p Hn). rewrite length_app. simpl.
        f_equal. f_equal. lia.
Qed.

Lemma sorted_app {A : Type} (R : A -> A -> Prop) (l1 l2 : list A) :
  StronglySorted R l1 -> StronglySorted R l2 ->
  (forall x y, In x l1 -> In y l2 -> R x y) ->
  StronglySorted R (l1 ++ l2).
Proof.
  intros H1 H2 H. induction H1 as [|x l1 Hs IH Hall]; [exact H2|].
  simpl. constructor.
  - apply IH. intros a b Ha Hb. apply H; [now right|exact Hb].
  - apply Forall_app. split; [exact Hall|].
    apply Forall_forall. intros y Hy. apply H; [now left|exact Hy].
Qed.

Lemma same_number_sorted (sortOrder : SortOrder) (k : Z) (l : list MangaPage) :
  Forall (fun p => pageNumber p = k) l ->
  StronglySorted (fun p q => inOrder sortOrder (pageNumber p) (pageNumber q)) l.
Proof.
  induction 1 as [|p l Hp Hl IH]; constructor; [exact IH|].
  eapply Forall_impl; [|exact Hl]. intros q Hq. cbv beta in Hq.
  rewrite Hp, Hq. unfold inOrder. destruct sortOrder; lia.
Qed.

Lemma processFiles_spec (appMode : AppMode) (sortOrder : SortOrder)
    (loads : File -> bool) (zonesOf : File -> list Zone)
    (fresh : nat -> string * string) (rawFiles : list File) :
  StronglySorted (fun a b => inOrder sortOrder (extractNumber (fname a))
                                     (extractNumber (fname b))) rawFiles ->
  forall newPages pages,
    processFiles appMode loads zonesOf fresh rawFiles newPages = Some pages ->
    exists added,
      pages = newPages ++ added /\
      Forall (fun p => status p = pending /\ translatedUrl p = None /\
                       exists f, In f rawFiles /\
                                 pageNumber p = extractNumber (fname f)) added /\
      StronglySorted (fun p q => inOrder sortOrder (pageNumber p) (pageNumber q))
                     added /\
      (forall n p, nth_error added n = Some p ->
                   id p = fst (fresh (length newPages + n)%nat)) /\
      (appMode = manga -> map originalFile added = rawFiles).
Proof.
  induction 1 as [|file rest Hs IH Hall]; intros newPages pages Hrun.
  - simpl in Hrun. injection Hrun as <-. exists [].
    rewrite app_nil_r. repeat split; auto; try constructor.
    intros n p H. destruct n; discriminate.
  - cbn [processFiles] in Hrun.
    destruct (chunksOf appMode loads zonesOf file) as [chunks|] eqn:Ec;
      [|discriminate].
    destruct (pagesOf_spec fresh file chunks newPages)
      as (first & Hfirst & Hfiles & Hfall & Hfids).
    rewrite Hfirst in Hrun.
    destruct (IH _ _ Hrun) as (more & Hpages & Hmall & Hmsorted & Hmids & Hmfiles).
    exists (first ++ more). split; [|split; [|split; [|split]]].
    + now rewrite Hpages, app_assoc.
    + apply Forall_app. split.
      * eapply Forall_impl; [|exact Hfall].
        intros p (Hp1 & Hp2 & Hp3). repeat split; auto.
        exists file. split; [now left|exact Hp3].
      * eapply Forall_impl; [|exact Hmall].
        intros p (Hp1 & Hp2 & f & Hf & Hp3). repeat split; auto.
        exists f. split; [now right|exact Hp3].
    + apply sorted_app; [|exact Hmsorted|].
      * apply (same_number_sorted sortOrder (extractNumber (fname file))).
        eapply Forall_impl; [|exact Hfall]. now intros p (_ & _ & Hp).
      * intros p q Hp Hq. rewrite Forall_forall in Hfall, Hmall, Hall.
        destruct (Hfall p Hp) as (_ & _ & Hpn).
        destruct (Hmall q Hq) as (_ & _ & f & Hf & Hqn).
        rewrite Hpn, Hqn. now apply Hall.
    + intros n p Hn. destruct (Nat.lt_ge_cases n (length first)) as [Hlt|Hge].
      * rewrite nth_error_app1 in Hn by exact Hlt. now apply Hfids.
      * rewrite nth_error_app2 in Hn by exact Hge.
        rewrite (Hmids _ _ Hn), length_app. f_equal. f_equal. lia.
    + intros Hmode. rewrite map_app, Hfiles, (Hmfiles Hmode).
      subst appMode. simpl in Ec. now injection Ec as <-.
Qed.

(** X26: when the numbers in the names of the selected files are below
    [2^53], the pages that [handleFilesSelected] hands to [setPages]
    are all pending and without result, with page numbers below [2^53]
    listed in the chosen order; the [n]-th page carries the [n]-th
    random id.  In manga mode there is always such a list, of exactly
    the sorted files.  When the random ids are pairwise distinct, the
    list is a starting state of the scheduler. *)
Theorem loaded_pages_are_ordered_and_pending :
  forall (appMode : AppMode) (sortOrder : SortOrder) (loads : File -> bool)
         (zonesOf : File -> list Zone) (fresh : nat -> string * string)
         (fileList : list File),
    safeNumbers fileList ->
    (forall pages,
        handleFilesSelected appMode sortOrder loads zonesOf fresh fileList
        = Some pages ->
        Forall (fun p => status p = pending /\ translatedUrl p = None /\
                         pageNumber p < 2 ^ 53) pages /\
        StronglySorted (fun p q => inOrder sortOrder (pageNumber p) (pageNumber q))
                       pages /\
        (forall n p, nth_error pages n = Some p -> id p = fst (fresh n)) /\
        (NoDup (map id pages) ->
         forall k now, initial (mkState pages [] k [] now [] []))) /\
    (appMode = manga ->
     exists pages,
       handleFilesSelected appMode sortOrder loads zonesOf fresh fileList
       = Some pages /\
       map originalFile pages = sortBy (compareFiles sortOrder) fileList).
Proof.
  intros appMode sortOrder loads zonesOf fresh fileList Hsafe.
  pose proof (sortBy_spec sortOrder fileList) as (_ & Hsorted & _).
  pose proof (sortBy_safeNumbers sortOrder fileList Hsafe) as Hsafe'.
  assert (Hspec : forall pages,
             handleFilesSelected appMode sortOrder loads zonesOf fresh fileList
             = Some pages ->
             Forall (fun p => status p = pending /\ translatedUrl p = None /\
                              pageNumber p < 2 ^ 53) pages /\
             StronglySorted (fun p q => inOrder sortOrder (pageNumber p)
                                                (pageNumber q)) pages /\
             (forall n p, nth_error pages n = Some p -> id p = fst (fresh n)) /\
             (appMode = manga ->
              map originalFile pages = sortBy (compareFiles sortOrder) fileList)).
  { intros pages Hrun. unfold handleFilesSelected in Hrun.
    destruct (processFiles_spec appMode sortOrder loads zonesOf fresh _ Hsorted
                                [] pages Hrun)
      as (added & -> & Hall & Hs & Hids & Hfiles).
    simpl. split; [|auto].
    eapply Forall_impl; [|exact Hall]. intros p (H1 & H2 & f & Hf & Hn).
    split; [exact H1|]. split; [exact H2|]. rewrite Hn.
    unfold safeNumbers in Hsafe'. rewrite Forall_forall in Hsafe'.
    exact (Hsafe' f Hf). }
  split.
  - intros pages Hrun. destruct (Hspec pages Hrun) as (Hall & Hs & Hids & _).
    split; [exact Hall|]. split; [exact Hs|]. split; [exact Hids|].
    intros Hnd k now. unfold initial. simpl.
    split; [exact Hnd|]. split; [|auto].
    eapply Forall_impl; [|exact Hall]. intros p (H1 & H2 & _). auto.
  - intros Hmode.
    assert (Hsome : forall rawFiles newPages,
               exists pages,
                 processFiles appMode loads zonesOf fresh rawFiles newPages
                 = Some pages).
    { subst appMode. induction rawFiles as [|f rest IH]; intros newPages.
      - now exists newPages.
      - simpl. apply IH. }
    destruct (Hsome (sortBy (compareFiles sortOrder) fileList) [])
      as [pages Hrun].
    exists pages. split; [exact Hrun|].
    now apply (Hspec pages Hrun).
Qed.

Lemma extractNumber_reads_the_first_number_witness :
  firstDigits "page" = None /\
  digitRun ".png" = EmptyString /\
  extractNumber ("page" ++ NilEmpty.string_of_uint (Nat.to_uint 12) ++ ".png")%string
  = Z.of_nat 12.
Proof.
  split; [reflexivity|]. split; [reflexivity|].
  apply (proj1 (proj2 (extractNumber_reads_the_first_number
                         "page" ".png" eq_refl eq_refl)) 12%nat).
  reflexivity.
Defined.

Lemma chapter_safe : safeNumbers chapter.
Proof. repeat constructor. Defined.

Lemma files_are_sorted_by_number_witness :
  safeNumbers chapter /\
  map fname (sortBy (compareFiles asc) chapter)
  = ["cover.png"; "2.png"; "02.png"; "10.png"]%string /\
  Permutation (sortBy (compareFiles asc) chapter) chapter /\
  safeNumbers (sortBy (compareFiles asc) chapter) /\
  StronglySorted (fun a b => inOrder asc (extractNumber (fname a))
                                     (extractNumber (fname b)))
                 (sortBy (compareFiles asc) chapter) /\
  forall k : Z,
    filter (fun f => extractNumber (fname f) =? k)
           (sortBy (compareFiles asc) chapter)
    = filter (fun f => extractNumber (fname f) =? k) chapter.
Proof.
  split; [exact chapter_safe|]. split; [vm_compute; reflexivity|].
  exact (files_are_sorted_by_number asc chapter chapter_safe).
Defined.

Lemma loaded_pages_are_ordered_and_pending_witness :
  safeNumbers chapter /\
  option_map (map (fun p => (id p, fname (originalFile p), pageNumber p)))
             (handleFilesSelected manga desc (fun _ => true) (fun _ => [])
                                  countingIds chapter)
  = Some [("0", "10.png", 10); ("1", "2.png", 2); ("2", "02.png", 2);
          ("3", "cover.png", 0)]%string /\
  exists pages,
    handleFilesSelected manga desc (fun _ => true) (fun _ => [])
                        countingIds chapter = Some pages /\
    map originalFile pages = sortBy (compareFiles desc) chapter.
Proof.
  split; [exact chapter_safe|]. split; [vm_compute; reflexivity|].
  exact (proj2 (loaded_pages_are_ordered_and_pending
                  manga desc (fun _ => true) (fun _ => []) countingIds chapter
                  chapter_safe) eq_refl).
Defined.

End LoaderFacts.
